(** * mining-viz-ish: the block-model viewer (app.ts), embedded and verified

    The development follows the class [MiningVizApp]: the CSV parser, the
    coordinate offset, the scene builder and the clipping-plane controls.

    Modelling conventions.
    - A JavaScript [number] is modelled by [number]: NaN, the two infinities
      and the finite values, a finite value being the rational a double
      stands for.  The arithmetic rounds as IEEE-754 binary64 does (to the
      nearest double, ties to even, with overflow to an infinity and
      gradual underflow): the rounding is the Standard Library's
      [SpecFloat].  There is one zero: the sign of zero is not represented.
    - A JavaScript string is a [string]; each character stands for one code
      unit below 256.
    - The fields of the application object live in the record [App]; methods
      are computations in the monad [M], which threads the [App] and carries
      thrown exceptions.  Objects of the rendering library are modelled by
      what the application reads and writes on them. *)

From Stdlib Require Import ZArith QArith Qround SpecFloat Ascii String List Bool Lia
  Permutation.
From stdpp Require Import base option list gmap strings sorting.

Local Open Scope string_scope.
Local Open Scope list_scope.
Local Open Scope Z_scope.
Set Warnings "-register-all,-abstract-large-number,-clear-no-such-hyp".

(* ===================================================================== *)
(** * JavaScript numbers *)
(* ===================================================================== *)

Module Num.

Inductive number : Type :=
  | NaN
  | NegInfinity
  | Finite (q : Q)
  | Infinity.

(** An integer that a double holds exactly: a count, an index or a
    length (they are below 2^53). *)
Definition of_Z (z : Z) : number := Finite (inject_Z z).
Definition of_nat (n : nat) : number := of_Z (Z.of_nat n).

Definition isNaN (x : number) : bool :=
  match x with NaN => true | _ => false end.

Definition isFinite (x : number) : bool :=
  match x with Finite _ => true | _ => false end.

(** Sign of a rational: [Lt], [Eq] or [Gt] against zero. *)
Definition Qsign (q : Q) : comparison := (Qnum q ?= 0)%Z.

(** [x <= y] of JavaScript: false as soon as one side is NaN. *)
Definition leb (x y : number) : bool :=
  match x, y with
  | NaN, _ | _, NaN => false
  | NegInfinity, _ => true
  | _, Infinity => true
  | Finite p, Finite q => Qle_bool p q
  | _, _ => false
  end.

(** [x >= y] of JavaScript. *)
Definition geb (x y : number) : bool := leb y x.

(** ** Rounding to binary64 *)

Definition prec : Z := 53.
Definition emax : Z := 1024.

(** [m * 2^e] as a reduced rational. *)
Definition binary (m e : Z) : Q :=
  if 0 <=? e then inject_Z (m * 2 ^ e)
  else Qred (Qmake m (Z.to_pos (2 ^ (- e)))).

(** The number a binary64 value stands for. *)
Definition of_float (f : spec_float) : number :=
  match f with
  | S754_zero _ => Finite 0
  | S754_infinity s => if s then NegInfinity else Infinity
  | S754_nan => NaN
  | S754_finite s m e => Finite (binary (if s then Z.neg m else Z.pos m) e)
  end.

(** The double nearest to the rational [q] (ties to even), or the infinity
    of its sign beyond the range: the quotient of its numerator by its
    denominator, rounded once.  [SFdiv] divides the two integers as they
    are, whatever their size, and rounds the quotient to 53 bits with the
    exponent range of binary64; a quotient too small for a subnormal is
    zero. *)
Definition round (q : Q) : number :=
  match Qnum q with
  | 0 => Finite 0
  | Z.pos n =>
      of_float (SFdiv prec emax (S754_finite false n 0)
                                (S754_finite false (Qden q) 0))
  | Z.neg n =>
      of_float (SFdiv prec emax (S754_finite true n 0)
                                (S754_finite false (Qden q) 0))
  end.

(** The value of a decimal literal of the source. *)
Definition of_Q (q : Q) : number := round q.

Global Arguments round : simpl never.
Global Arguments of_Q : simpl never.

(** [Math.min(x, y)]: NaN if either is NaN, else the smaller one. *)
Definition min (x y : number) : number :=
  match x, y with
  | NaN, _ | _, NaN => NaN
  | NegInfinity, _ | _, NegInfinity => NegInfinity
  | Infinity, z | z, Infinity => z
  | Finite p, Finite q => if Qle_bool p q then Finite p else Finite q
  end.

(** Unary minus. *)
Definition neg (x : number) : number :=
  match x with
  | NaN => NaN
  | NegInfinity => Infinity
  | Finite q => Finite (- q)
  | Infinity => NegInfinity
  end.

(** [x + y]. *)
Definition add (x y : number) : number :=
  match x, y with
  | NaN, _ | _, NaN => NaN
  | Infinity, NegInfinity | NegInfinity, Infinity => NaN
  | Infinity, _ | _, Infinity => Infinity
  | NegInfinity, _ | _, NegInfinity => NegInfinity
  | Finite p, Finite q => round (p + q)
  end.

(** [x - y]. *)
Definition sub (x y : number) : number := add x (neg y).

(** An infinity of the given sign times a finite [q]. *)
Definition scale_inf (positive : bool) (q : Q) : number :=
  match Qsign q with
  | Eq => NaN
  | Gt => if positive then Infinity else NegInfinity
  | Lt => if positive then NegInfinity else Infinity
  end.

(** [x * y]. *)
Definition mul (x y : number) : number :=
  match x, y with
  | NaN, _ | _, NaN => NaN
  | Finite p, Finite q => round (p * q)
  | Infinity, Finite q | Finite q, Infinity => scale_inf true q
  | NegInfinity, Finite q | Finite q, NegInfinity => scale_inf false q
  | Infinity, Infinity | NegInfinity, NegInfinity => Infinity
  | Infinity, NegInfinity | NegInfinity, Infinity => NegInfinity
  end.

(** [x / y].  The one zero of the model is the positive zero, which is what
    an array length is; the sources divide by array lengths only. *)
Definition div (x y : number) : number :=
  match x, y with
  | NaN, _ | _, NaN => NaN
  | Finite p, Finite q =>
      match Qsign q with
      | Eq => match Qsign p with
              | Eq => NaN | Gt => Infinity | Lt => NegInfinity
              end
      | _ => round (p / q)
      end
  | Finite _, _ => Finite 0
  | Infinity, Finite q =>
      match Qsign q with Lt => NegInfinity | _ => Infinity end
  | NegInfinity, Finite q =>
      match Qsign q with Lt => Infinity | _ => NegInfinity end
  | _, _ => NaN
  end.

End Num.

Export Num (number, NaN, NegInfinity, Finite, Infinity).

(* ===================================================================== *)
(** * JavaScript strings: split, trim, indexOf, parseFloat *)
(* ===================================================================== *)

Module Str.

(** [s.split(sep)] for a one-character separator: never the empty list. *)
Fixpoint split (sep : ascii) (s : string) : list string :=
  match s with
  | EmptyString => [EmptyString]
  | String c rest =>
      if Ascii.eqb c sep then EmptyString :: split sep rest
      else match split sep rest with
           | field :: fields => String c field :: fields
           | [] => [String c EmptyString]
           end
  end.

(** White space and line terminators among the code units below 256:
    TAB, LF, VT, FF, CR, SPACE and NBSP. *)
Definition is_white (c : ascii) : bool :=
  let n := nat_of_ascii c in
  ((9 <=? n) && (n <=? 13))%nat || (n =? 32)%nat || (n =? 160)%nat.

Fixpoint trimStart (s : string) : string :=
  match s with
  | String c rest => if is_white c then trimStart rest else s
  | EmptyString => EmptyString
  end.

Fixpoint trimEnd (s : string) : string :=
  match s with
  | EmptyString => EmptyString
  | String c rest =>
      match trimEnd rest with
      | EmptyString => if is_white c then EmptyString else String c EmptyString
      | kept => String c kept
      end
  end.

(** [s.trim()]. *)
Definition trim (s : string) : string := trimEnd (trimStart s).

(** Truthiness of a string: the empty string is the one falsy string. *)
Definition truthy (s : string) : bool :=
  match s with EmptyString => false | _ => true end.

(** [l.indexOf(x)]: the first position of [x], or [-1]. *)
Fixpoint indexOf_from (i : Z) (l : list string) (x : string) : Z :=
  match l with
  | [] => -1
  | y :: rest => if String.eqb y x then i else indexOf_from (i + 1) rest x
  end.

Definition indexOf (l : list string) (x : string) : Z := indexOf_from 0 l x.

(** ** parseFloat *)

Definition is_digit (c : ascii) : bool :=
  let n := nat_of_ascii c in ((48 <=? n) && (n <=? 57))%nat.

Definition digit_value (c : ascii) : Z := Z.of_nat (nat_of_ascii c) - 48.

(** The longest run of decimal digits at the front, and what follows. *)
Fixpoint span_digits (s : string) : list ascii * string :=
  match s with
  | String c rest =>
      if is_digit c
      then let '(ds, tl) := span_digits rest in (c :: ds, tl)
      else ([], s)
  | EmptyString => ([], EmptyString)
  end.

Definition digits_value (ds : list ascii) : Z :=
  fold_left (fun acc c => 10 * acc + digit_value c) ds 0.

(** An optional sign at the front: [true] for a minus. *)
Definition take_sign (s : string) : bool * string :=
  match s with
  | String "+"%char rest => (false, rest)
  | String "-"%char rest => (true, rest)
  | _ => (false, s)
  end.

(** The exponent part [e±ddd] when it is complete, else exponent zero. *)
Definition exponent_of (s : string) : Z :=
  match s with
  | String c rest =>
      if Ascii.eqb c "e" || Ascii.eqb c "E" then
        let '(minus, rest') := take_sign rest in
        match span_digits rest' with
        | ([], _) => 0
        | (ds, _) => if minus then - digits_value ds else digits_value ds
        end
      else 0
  | EmptyString => 0
  end.

(** [m * 10^e] as a reduced rational. *)
Definition decimal (m e : Z) : Q :=
  if 0 <=? e then inject_Z (m * 10 ^ e)
  else Qred (Qmake m (Z.to_pos (10 ^ (- e)))).

(** [parseFloat(s)]: leading white space is skipped, then the longest
    prefix that is a decimal literal (or a signed [Infinity]) is read and
    rounded to a double; NaN when there is none. *)
Definition parseFloat (s : string) : number :=
  let '(minus, body) := take_sign (trimStart s) in
  if String.prefix "Infinity" body then
    if minus then NegInfinity else Infinity
  else
    let '(int_ds, after_int) := span_digits body in
    let '(frac_ds, after_frac) :=
      match after_int with
      | String "."%char rest => span_digits rest
      | _ => ([], after_int)
      end in
    match int_ds, frac_ds with
    | [], [] => NaN
    | _, _ =>
        let m := digits_value (int_ds ++ frac_ds) in
        let e := exponent_of after_frac - Z.of_nat (List.length frac_ds) in
        Num.round (decimal (if minus then - m else m) e)
    end.

End Str.

(* ===================================================================== *)
(** * The data model *)
(* ===================================================================== *)

Record BlockData : Type := mkBlock {
  centroid_x : number;
  centroid_y : number;
  centroid_z : number;
  dim_x : number;
  dim_y : number;
  dim_z : number;
  rock : string
}.

Record Vector3 : Type := mkVector3 { vx : number; vy : number; vz : number }.

(** The three cross-section planes, the keys of [clipPlanes]. *)
Inductive PlaneName : Type := XY | YZ | XZ.

#[global] Instance PlaneName_eq_dec : EqDecision PlaneName.
Proof. solve_decision. Defined.

(** [THREE.Plane]: a unit normal and the signed distance [constant]. *)
Record Plane : Type := mkPlane { normal : Vector3; constant : number }.

Record ClipPlanes : Type := mkClipPlanes { xy : Plane; yz : Plane; xz : Plane }.

Definition plane_get (p : PlaneName) (ps : ClipPlanes) : Plane :=
  match p with XY => xy ps | YZ => yz ps | XZ => xz ps end.

Definition plane_set (p : PlaneName) (v : Plane) (ps : ClipPlanes) : ClipPlanes :=
  match p with
  | XY => {| xy := v; yz := yz ps; xz := xz ps |}
  | YZ => {| xy := xy ps; yz := v; xz := xz ps |}
  | XZ => {| xy := xy ps; yz := yz ps; xz := v |}
  end.

(** [THREE.Color]: built by [setHSL] or from a hexadecimal code. *)
Inductive Color : Type :=
  | setHSL (h s l : number)
  | hex (rgb : Z).

(** A material object, with the fields the application writes.
    [clippingPlanes] holds references to entries of [clipPlanes], hence
    plane names; the library's initial [null] is the empty list here. *)
Record Material : Type := mkMaterial {
  color : Color;
  clippingPlanes : list PlaneName;
  clipIntersection : bool;
  needsUpdate : bool
}.

Record BoxGeometry : Type := mkBox { width : number; height : number; depth : number }.

(** The geometry of a mesh: the box of a block, or the square face of a
    plane helper. *)
Inductive Geometry : Type :=
  | Box (box : BoxGeometry)
  | Square.

(** The nodes of the scene graph.  A mesh refers to its material by its
    address in the store [materials]: meshes of one rock type share one
    material.  A plane helper refers to its entry of [clipPlaneHelpers];
    it is a line object, and its children hold the mesh of its face. *)
Inductive Object3D : Type :=
  | Mesh (geometry : Geometry) (material : nat) (position : Vector3)
  | Group (children : list Object3D)
  | PlaneHelper (p : PlaneName) (children : list Object3D)
  | DirectionalLight
  | AmbientLight
  | GridHelper
  | AxesHelper
  | Gizmos.

(** What the application writes on a [THREE.PlaneHelper]. *)
Record PlaneHelperState : Type := mkHelper { visible : bool }.

(** Thrown values. *)
Inductive Error : Type :=
  | TypeError (message : string)
  | FetchError (message : string).

(** Arguments of [console.log] and [console.error]. *)
Inductive LogArg : Type :=
  | AStr (s : string)
  | ANum (n : number)
  | AInt (z : Z)
  | AStrs (l : list string)
  | AVec (v : Vector3)
  | ABlock (b : BlockData)
  | AErr (e : Error).

Inductive LogEntry : Type :=
  | Log (args : list LogArg)
  | LogError (args : list LogArg).

(** The fields of [MiningVizApp], the heap of materials and the console. *)
Record App : Type := mkApp {
  scene : list Object3D;
  materials : gmap nat Material;
  camera_position : Vector3;
  modelCenter : Vector3;
  coordinateOffset : Vector3;
  clipPlanes : ClipPlanes;
  clipPlaneHelpers : PlaneName -> option PlaneHelperState;
  activeClipPlane : option PlaneName;
  clipPosition : number;
  localClippingEnabled : bool;
  console : list LogEntry
}.

Definition set_scene (v : list Object3D) (a : App) : App :=
  {| scene := v; materials := materials a;
     camera_position := camera_position a; modelCenter := modelCenter a;
     coordinateOffset := coordinateOffset a; clipPlanes := clipPlanes a;
     clipPlaneHelpers := clipPlaneHelpers a;
     activeClipPlane := activeClipPlane a; clipPosition := clipPosition a;
     localClippingEnabled := localClippingEnabled a; console := console a |}.

Definition set_materials (v : gmap nat Material) (a : App) : App :=
  {| scene := scene a; materials := v; camera_position := camera_position a;
     modelCenter := modelCenter a; coordinateOffset := coordinateOffset a;
     clipPlanes := clipPlanes a; clipPlaneHelpers := clipPlaneHelpers a;
     activeClipPlane := activeClipPlane a; clipPosition := clipPosition a;
     localClippingEnabled := localClippingEnabled a; console := console a |}.

Definition set_camera_position (v : Vector3) (a : App) : App :=
  {| scene := scene a; materials := materials a; camera_position := v;
     modelCenter := modelCenter a; coordinateOffset := coordinateOffset a;
     clipPlanes := clipPlanes a; clipPlaneHelpers := clipPlaneHelpers a;
     activeClipPlane := activeClipPlane a; clipPosition := clipPosition a;
     localClippingEnabled := localClippingEnabled a; console := console a |}.

Definition set_modelCenter (v : Vector3) (a : App) : App :=
  {| scene := scene a; materials := materials a;
     camera_position := camera_position a; modelCenter := v;
     coordinateOffset := coordinateOffset a; clipPlanes := clipPlanes a;
     clipPlaneHelpers := clipPlaneHelpers a;
     activeClipPlane := activeClipPlane a; clipPosition := clipPosition a;
     localClippingEnabled := localClippingEnabled a; console := console a |}.

Definition set_coordinateOffset (v : Vector3) (a : App) : App :=
  {| scene := scene a; materials := materials a;
     camera_position := camera_position a; modelCenter := modelCenter a;
     coordinateOffset := v; clipPlanes := clipPlanes a;
     clipPlaneHelpers := clipPlaneHelpers a;
     activeClipPlane := activeClipPlane a; clipPosition := clipPosition a;
     localClippingEnabled := localClippingEnabled a; console := console a |}.

Definition set_clipPlanes (v : ClipPlanes) (a : App) : App :=
  {| scene := scene a; materials := materials a;
     camera_position := camera_position a; modelCenter := modelCenter a;
     coordinateOffset := coordinateOffset a; clipPlanes := v;
     clipPlaneHelpers := clipPlaneHelpers a;
     activeClipPlane := activeClipPlane a; clipPosition := clipPosition a;
     localClippingEnabled := localClippingEnabled a; console := console a |}.

Definition set_clipPlaneHelpers (v : PlaneName -> option PlaneHelperState) (a : App) : App :=
  {| scene := scene a; materials := materials a;
     camera_position := camera_position a; modelCenter := modelCenter a;
     coordinateOffset := coordinateOffset a; clipPlanes := clipPlanes a;
     clipPlaneHelpers := v; activeClipPlane := activeClipPlane a;
     clipPosition := clipPosition a;
     localClippingEnabled := localClippingEnabled a; console := console a |}.

Definition set_activeClipPlane (v : option PlaneName) (a : App) : App :=
  {| scene := scene a; materials := materials a;
     camera_position := camera_position a; modelCenter := modelCenter a;
     coordinateOffset := coordinateOffset a; clipPlanes := clipPlanes a;
     clipPlaneHelpers := clipPlaneHelpers a; activeClipPlane := v;
     clipPosition := clipPosition a;
     localClippingEnabled := localClippingEnabled a; console := console a |}.

Definition set_clipPosition (v : number) (a : App) : App :=
  {| scene := scene a; materials := materials a;
     camera_position := camera_position a; modelCenter := modelCenter a;
     coordinateOffset := coordinateOffset a; clipPlanes := clipPlanes a;
     clipPlaneHelpers := clipPlaneHelpers a;
     activeClipPlane := activeClipPlane a; clipPosition := v;
     localClippingEnabled := localClippingEnabled a; console := console a |}.

Definition set_localClippingEnabled (v : bool) (a : App) : App :=
  {| scene := scene a; materials := materials a;
     camera_position := camera_position a; modelCenter := modelCenter a;
     coordinateOffset := coordinateOffset a; clipPlanes := clipPlanes a;
     clipPlaneHelpers := clipPlaneHelpers a;
     activeClipPlane := activeClipPlane a; clipPosition := clipPosition a;
     localClippingEnabled := v; console := console a |}.

Definition set_console (v : list LogEntry) (a : App) : App :=
  {| scene := scene a; materials := materials a;
     camera_position := camera_position a; modelCenter := modelCenter a;
     coordinateOffset := coordinateOffset a; clipPlanes := clipPlanes a;
     clipPlaneHelpers := clipPlaneHelpers a;
     activeClipPlane := activeClipPlane a; clipPosition := clipPosition a;
     localClippingEnabled := localClippingEnabled a; console := v |}.

(* ===================================================================== *)
(** * The monad of methods: state and exceptions *)
(* ===================================================================== *)

Inductive Completion (A : Type) : Type :=
  | Normal (a : A)
  | Throw (e : Error).
Arguments Normal {A} a.
Arguments Throw {A} e.

Definition M (A : Type) : Type := App -> Completion A * App.

Definition ret {A} (a : A) : M A := fun s => (Normal a, s).

Definition bind {A B} (c : M A) (k : A -> M B) : M B :=
  fun s =>
    match c s with
    | (Normal a, s') => k a s'
    | (Throw e, s') => (Throw e, s')
    end.

Definition throw {A} (e : Error) : M A := fun s => (Throw e, s).

(** [try { body } catch (error) { handler }]: the writes of [body] stay. *)
Definition try_catch {A} (body : M A) (handler : Error -> M A) : M A :=
  fun s =>
    match body s with
    | (Normal a, s') => (Normal a, s')
    | (Throw e, s') => handler e s'
    end.

Definition get : M App := fun s => (Normal s, s).
Definition modify (f : App -> App) : M unit := fun s => (Normal tt, f s).

Declare Scope js_scope.
Delimit Scope js_scope with js.
Notation "x <- c ;; k" := (bind c (fun x => k))
  (at level 100, c at next level, k at level 200, right associativity) : js_scope.
Notation "c ;; k" := (bind c (fun _ => k))
  (at level 100, k at level 200, right associativity) : js_scope.
Local Open Scope js_scope.

(** The final state and the completion of a run. *)
Definition exec {A} (c : M A) (s : App) : App := snd (c s).
Definition eval {A} (c : M A) (s : App) : Completion A := fst (c s).

Definition console_log (args : list LogArg) : M unit :=
  modify (fun s => set_console (console s ++ [Log args]) s).

Definition console_error (args : list LogArg) : M unit :=
  modify (fun s => set_console (console s ++ [LogError args]) s).

(** [l.forEach(f)] for an effectful callback. *)
Fixpoint forEach {A} (l : list A) (f : A -> M unit) : M unit :=
  match l with
  | [] => ret tt
  | x :: rest => f x ;; forEach rest f
  end.

(* ===================================================================== *)
(** * parseCSV *)
(* ===================================================================== *)

Definition LF : ascii := "010"%char.
Definition COMMA : ascii := ","%char.

(** [values[i]]: read only below [values.length] in [parseCSV]. *)
Definition at_index (values : list string) (i : nat) : string :=
  nth i values EmptyString.

(** The block literal built from the fields of one row. *)
Definition block_of_values (rockIndex : Z) (values : list string) : BlockData :=
  {| centroid_x := Str.parseFloat (at_index values 0);
     centroid_y := Str.parseFloat (at_index values 1);
     centroid_z := Str.parseFloat (at_index values 2);
     dim_x := Str.parseFloat (at_index values 3);
     dim_y := Str.parseFloat (at_index values 4);
     dim_z := Str.parseFloat (at_index values 5);
     rock := if (0 <=? rockIndex) && (rockIndex <? Z.of_nat (length values))
             then at_index values (Z.to_nat rockIndex)
             else "unknown" |}.

(** The body of the [for] loop of [parseCSV], run over [lines[3..]] with
    the array [data] built so far; each [continue] leaves [data] as it is.
    Nothing inside the [try] can throw, so its [catch] is never entered. *)
Fixpoint parse_rows (rockIndex : Z) (lines : list string) (data : list BlockData)
  : list BlockData :=
  match lines with
  | [] => data
  | line :: rest =>
      if negb (Str.truthy (Str.trim line)) then parse_rows rockIndex rest data
      else
        let values := Str.split COMMA line in
        if (length values <? 6)%nat then parse_rows rockIndex rest data
        else
          let block := block_of_values rockIndex values in
          if Num.isNaN (centroid_x block) || Num.isNaN (dim_x block)
          then parse_rows rockIndex rest data
          else parse_rows rockIndex rest (data ++ [block])
  end.

Definition csv_lines (csvText : string) : list string := Str.split LF csvText.

Definition csv_headers (csvText : string) : list string :=
  Str.split COMMA (at_index (csv_lines csvText) 0).

Definition csv_rockIndex (csvText : string) : Z :=
  Str.indexOf (csv_headers csvText) "rock".

Definition parseCSV (csvText : string) : M (list BlockData) :=
  let lines := csv_lines csvText in
  console_log [AStr "CSV lines:"; AInt (Z.of_nat (length lines))] ;;
  let headers := csv_headers csvText in
  let rockIndex := csv_rockIndex csvText in
  console_log [AStr "Headers:"; AStrs headers] ;;
  console_log [AStr "Rock index:"; AInt rockIndex] ;;
  let data := parse_rows rockIndex (skipn 3 lines) [] in
  console_log [AStr "Successfully parsed blocks:"; AInt (Z.of_nat (length data))] ;;
  match data with
  | first :: _ => console_log [AStr "First block:"; ABlock first]
  | [] => ret tt
  end ;;
  ret data.

(* ===================================================================== *)
(** * computeCoordinateOffset *)
(* ===================================================================== *)

(** The three running minima after the [forEach]. *)
Definition centroid_minima (blocks : list BlockData) : Vector3 :=
  fold_left
    (fun m block =>
       {| vx := Num.min (vx m) (centroid_x block);
          vy := Num.min (vy m) (centroid_y block);
          vz := Num.min (vz m) (centroid_z block) |})
    blocks
    {| vx := Infinity; vy := Infinity; vz := Infinity |}.

Definition computeCoordinateOffset (blocks : list BlockData) : M unit :=
  modify (set_coordinateOffset (centroid_minima blocks)).

(* ===================================================================== *)
(** * Plain objects used as dictionaries *)
(* ===================================================================== *)

Module Obj.

(** The own properties of an object created by [{}], in creation order. *)
Definition t (V : Type) : Type := list (string * V).

(** The property names every [{}] inherits from [Object.prototype]; each
    holds a function (or, for [__proto__], the prototype itself): a truthy
    value which is not an array. *)
Definition prototype_keys : list string :=
  [ "constructor"; "__defineGetter__"; "__defineSetter__"; "hasOwnProperty";
    "__lookupGetter__"; "__lookupSetter__"; "isPrototypeOf";
    "propertyIsEnumerable"; "toString"; "valueOf"; "__proto__";
    "toLocaleString" ].

Definition inherited (k : string) : bool := bool_decide (k ∈ prototype_keys).

Fixpoint own {V} (k : string) (o : t V) : option V :=
  match o with
  | [] => None
  | (k', v) :: rest => if String.eqb k' k then Some v else own k rest
  end.

(** What [o[k]] evaluates to. *)
Inductive Lookup (V : Type) : Type :=
  | Own (v : V)
  | Inherited
  | Undefined.
Arguments Own {V} v.
Arguments Inherited {V}.
Arguments Undefined {V}.

Definition get {V} (k : string) (o : t V) : Lookup V :=
  match own k o with
  | Some v => Own v
  | None => if inherited k then Inherited else Undefined
  end.

(** [o[k] = v] on a key which is not inherited: an own property is
    overwritten in place, a new one is created last. *)
Fixpoint set {V} (k : string) (v : V) (o : t V) : t V :=
  match o with
  | [] => [(k, v)]
  | (k', v') :: rest =>
      if String.eqb k' k then (k', v) :: rest else (k', v') :: set k v rest
  end.

(** A key is an array index when it is the canonical decimal form of an
    integer below [2^32 - 1]. *)
Definition array_index (k : string) : option Z :=
  match Str.span_digits k with
  | (d :: ds, EmptyString) =>
      let n := Str.digits_value (d :: ds) in
      if (negb (Ascii.eqb d "0") || bool_decide (ds = [])) && (n <? 4294967295)
      then Some n else None
  | _ => None
  end.

Definition indexed {V} (o : t V) : list (Z * (string * V)) :=
  omap (fun kv => match array_index (fst kv) with
                  | Some n => Some (n, kv)
                  | None => None
                  end) o.

Definition named {V} (o : t V) : t V :=
  filter (fun kv => array_index (fst kv) = None) o.

Definition index_le {V} (a b : Z * (string * V)) : Prop := fst a <= fst b.

#[global] Instance index_le_dec {V} (a b : Z * (string * V)) :
  Decision (index_le a b).
Proof. unfold index_le. apply _. Defined.

(** [Object.entries(o)]: the array-index keys by ascending value, then the
    other keys in creation order. *)
Definition entries {V} (o : t V) : list (string * V) :=
  map snd (merge_sort index_le (indexed o)) ++ named o.

End Obj.

(* ===================================================================== *)
(** * createBlockModel *)
(* ===================================================================== *)

(** [new Set(labels)] spread into an array: first occurrences, in order. *)
Definition Set_add (s : list string) (x : string) : list string :=
  if bool_decide (x ∈ s) then s else s ++ [x].

Definition Set_of (labels : list string) : list string :=
  fold_left Set_add labels [].

Definition rockTypes_of (blocks : list BlockData) : list string :=
  Set_of (map rock blocks).

Definition saturation : number := Num.of_Q 0.8.
Definition lightness : number := Num.of_Q 0.6.

Global Arguments saturation : simpl never.
Global Arguments lightness : simpl never.

(** The [Map] filled by [rockTypes.forEach((rock, i) => ...)]. *)
Definition rockColors_of (rockTypes : list string) : gmap string Color :=
  fold_left
    (fun colors '(i, rock) =>
       let hue := Num.div (Num.of_nat i) (Num.of_nat (length rockTypes)) in
       <[rock := setHSL hue saturation lightness]> colors)
    (imap pair rockTypes)
    ∅.

Definition maxBlocks : nat := 5000.

Definition visibleBlocks_of (blocks : list BlockData) : list BlockData :=
  if (maxBlocks <? length blocks)%nat then take maxBlocks blocks else blocks.

(** One round of the grouping [forEach]: the entry is created when
    [blocksByRock[block.rock]] is falsy, then the block is pushed.  An
    inherited property is truthy and has no [push]. *)
Definition group_block (blocksByRock : Obj.t (list BlockData)) (block : BlockData)
  : Completion (Obj.t (list BlockData)) :=
  let created :=
    match Obj.get (rock block) blocksByRock with
    | Obj.Undefined => Obj.set (rock block) [] blocksByRock
    | _ => blocksByRock
    end in
  match Obj.get (rock block) created with
  | Obj.Own blocksOfType =>
      Normal (Obj.set (rock block) (blocksOfType ++ [block]) created)
  | _ => Throw (TypeError "blocksByRock[block.rock].push is not a function")
  end.

Fixpoint group_blocks (blocks : list BlockData) (blocksByRock : Obj.t (list BlockData))
  : Completion (Obj.t (list BlockData)) :=
  match blocks with
  | [] => Normal blocksByRock
  | block :: rest =>
      match group_block blocksByRock block with
      | Normal grown => group_blocks rest grown
      | Throw e => Throw e
      end
  end.

Definition lift {A} (c : Completion A) : M A := fun s => (c, s).

Definition scaleFactor : number := Num.of_Q 0.7.

Global Arguments scaleFactor : simpl never.
Definition heightScaleFactor : number := Finite 2.

(** The box and its position for one block: x stays x, the source z is the
    height (the y of the scene), the source y is the depth. *)
Definition make_cube (scale heightScale : number) (offset : Vector3)
    (material : nat) (block : BlockData) : Object3D :=
  Mesh
    (Box {| width := Num.mul (dim_x block) scale;
            height := Num.mul (Num.mul (dim_z block) scale) heightScale;
            depth := Num.mul (dim_y block) scale |})
    material
    {| vx := Num.sub (centroid_x block) (vx offset);
       vy := Num.mul (Num.sub (centroid_z block) (vz offset)) heightScale;
       vz := Num.sub (centroid_y block) (vy offset) |}.

(** [new THREE.MeshLambertMaterial({ color })], and as well the
    [MeshBasicMaterial] of a helper: a fresh material object, which holds
    no clip plane. *)
Definition new_material (c : Color) : M nat :=
  fun s =>
    let address := fresh (dom (materials s)) in
    let m := {| color := c; clippingPlanes := [];
                clipIntersection := false; needsUpdate := false |} in
    (Normal address, set_materials (<[address := m]> (materials s)) s).

(** The [forEach] over [Object.entries(blocksByRock)], with the children
    added to [blockGroup] so far. *)
Fixpoint add_rock_groups (rockColors : gmap string Color)
    (entries : list (string * list BlockData)) (children : list Object3D)
  : M (list Object3D) :=
  match entries with
  | [] => ret children
  | (rockType, blocksOfType) :: rest =>
      let color := default (hex 13421772) (rockColors !! rockType) in
      material <- new_material color ;;
      console_log [AStr "Creating "; AInt (Z.of_nat (length blocksOfType));
                   AStr " "; AStr rockType; AStr " blocks"] ;;
      s <- get ;;
      let cubes :=
        map (make_cube scaleFactor heightScaleFactor (coordinateOffset s) material)
            blocksOfType in
      add_rock_groups rockColors rest (children ++ cubes)
  end.

(** The sums of the normalized centroids. *)
Definition centroid_sums (offset : Vector3) (blocks : list BlockData) : Vector3 :=
  fold_left
    (fun sum block =>
       {| vx := Num.add (vx sum) (Num.sub (centroid_x block) (vx offset));
          vy := Num.add (vy sum) (Num.sub (centroid_y block) (vy offset));
          vz := Num.add (vz sum) (Num.sub (centroid_z block) (vz offset)) |})
    blocks
    {| vx := Finite 0; vy := Finite 0; vz := Finite 0 |}.

Definition createBlockModel (blocks : list BlockData) : M unit :=
  let count := Num.of_nat (length blocks) in
  console_log [AStr "Creating block model with"; AInt (Z.of_nat (length blocks));
               AStr "blocks"] ;;
  s <- get ;;
  let sums := centroid_sums (coordinateOffset s) blocks in
  let center :=
    {| vx := Num.div (vx sums) count;
       vy := Num.div (vz sums) count;
       vz := Num.div (vy sums) count |} in
  modify (set_modelCenter center) ;;
  console_log [AStr "Normalized model center:"; AVec center] ;;
  let rockTypes := rockTypes_of blocks in
  console_log [AStr "Rock types:"; AStrs rockTypes] ;;
  let rockColors := rockColors_of rockTypes in
  let visibleBlocks := visibleBlocks_of blocks in
  console_log [AStr "Visualizing "; AInt (Z.of_nat (length visibleBlocks));
               AStr " of "; AInt (Z.of_nat (length blocks)); AStr " blocks"] ;;
  blocksByRock <- lift (group_blocks visibleBlocks []) ;;
  children <- add_rock_groups rockColors (Obj.entries blocksByRock) [] ;;
  modify (fun s => set_scene (scene s ++ [Group children]) s) ;;
  modify (set_camera_position
            {| vx := Num.add (vx center) (Finite 500);
               vy := Num.add (vy center) (Finite 500);
               vz := Num.add (vz center) (Finite 500) |}) ;;
  console_log [AStr "Block model creation complete"].

(* ===================================================================== *)
(** * loadData *)
(* ===================================================================== *)

(** [loadData(url)], given what [fetch(url)] and [response.text()] deliver:
    the text, or the error they reject with. *)
Definition loadData (response : Error + string) (url : string) : M unit :=
  try_catch
    (console_log [AStr "Loading data from:"; AStr url] ;;
     text <- match response with
             | inr text => ret text
             | inl e => throw e
             end ;;
     console_log [AStr "CSV data loaded, length:";
                  AInt (Z.of_nat (String.length text))] ;;
     data <- parseCSV text ;;
     console_log [AStr "Parsed blocks:"; AInt (Z.of_nat (length data))] ;;
     if (0 <? length data)%nat then
       computeCoordinateOffset data ;;
       s <- get ;;
       console_log [AStr "Using coordinate offset:"; AVec (coordinateOffset s)] ;;
       createBlockModel data
     else
       console_error [AStr "No valid blocks found in data"])
    (fun error =>
       console_error [AStr "Failed to load or parse data:"; AErr error]).

(* ===================================================================== *)
(** * The clipping controls *)
(* ===================================================================== *)

(** The nodes [traverse] visits below (and including) one node. *)
Fixpoint descendants (o : Object3D) : list Object3D :=
  o :: match o with
       | Group children => flat_map descendants children
       | PlaneHelper _ children => flat_map descendants children
       | _ => []
       end.

(** [this.scene.traverse(callback)]. *)
Definition scene_traverse (callback : Object3D -> M unit) : M unit :=
  s <- get ;;
  forEach (flat_map descendants (scene s)) callback.

(** A write on the material object a mesh refers to. *)
Definition update_material (address : nat) (f : Material -> Material) : M unit :=
  modify (fun s => set_materials (alter f address (materials s)) s).

Definition hide (h : PlaneHelperState) : PlaneHelperState := {| visible := false |}.
Definition show (h : PlaneHelperState) : PlaneHelperState := {| visible := true |}.

Definition helper_set (p : PlaneName) (h : PlaneHelperState)
    (helpers : PlaneName -> option PlaneHelperState)
  : PlaneName -> option PlaneHelperState :=
  fun q => if decide (q = p) then Some h else helpers q.

(** The writes of [disableClipping] on the material of a mesh. *)
Definition clear_planes (m : Material) : Material :=
  {| color := color m; clippingPlanes := [];
     clipIntersection := clipIntersection m; needsUpdate := true |}.

(** The writes of [setActiveClipPlane] on the material of a mesh. *)
Definition assign_plane (plane : PlaneName) (m : Material) : Material :=
  {| color := color m; clippingPlanes := [plane];
     clipIntersection := false; needsUpdate := true |}.

(** [if (node instanceof THREE.Mesh) { node.material... }]. *)
Definition on_mesh (f : Material -> Material) (node : Object3D) : M unit :=
  match node with
  | Mesh _ material _ => update_material material f
  | _ => ret tt
  end.

Definition disableClipping : M unit :=
  modify (fun s => set_clipPlaneHelpers
                     (fun p => hide <$> clipPlaneHelpers s p) s) ;;
  scene_traverse (on_mesh clear_planes) ;;
  modify (set_activeClipPlane None) ;;
  modify (set_localClippingEnabled false).

(** [updateClipPlane()].  The closing [helper.updateMatrixWorld()] puts
    the helper where the plane is; where a helper is drawn is not
    represented. *)
Definition updateClipPlane : M unit :=
  s <- get ;;
  match activeClipPlane s with
  | None => ret tt
  | Some active =>
      let plane := plane_get active (clipPlanes s) in
      modify (set_clipPlanes
                (plane_set active
                   {| normal := normal plane;
                      constant := Num.neg (clipPosition s) |}
                   (clipPlanes s))) ;;
      match clipPlaneHelpers s active with
      | Some helper =>
          modify (fun s => set_clipPlaneHelpers
                             (helper_set active (show helper) (clipPlaneHelpers s)) s)
      | None => ret tt
      end
  end.

Definition origin : Vector3 := {| vx := Finite 0; vy := Finite 0; vz := Finite 0 |}.

(** [new THREE.PlaneHelper(plane, 1000, 0xff0000)]: the helper is a line
    object with one child, a mesh for its face, which has a fresh
    [MeshBasicMaterial] of the helper's colour.  (The line material of the
    helper itself is out of the reach of the application: the helper is no
    mesh.) *)
Definition new_PlaneHelper (plane : PlaneName) : M Object3D :=
  face <- new_material (hex 16711680) ;;
  ret (PlaneHelper plane [Mesh Square face origin]).

Definition setActiveClipPlane (plane : PlaneName) : M unit :=
  disableClipping ;;
  modify (set_activeClipPlane (Some plane)) ;;
  s <- get ;;
  match clipPlaneHelpers s plane with
  | None =>
      helper <- new_PlaneHelper plane ;;
      modify (fun s => set_clipPlaneHelpers
                         (helper_set plane {| visible := true |} (clipPlaneHelpers s)) s) ;;
      modify (fun s => set_scene (scene s ++ [helper]) s)
  | Some _ => ret tt
  end ;;
  scene_traverse (on_mesh (assign_plane plane)) ;;
  updateClipPlane ;;
  modify (set_localClippingEnabled true).

(** The [oninput] handler of the position slider, for the value the
    slider holds. *)
Definition positionSlider_oninput (value : string) : M unit :=
  modify (set_clipPosition (Str.parseFloat value)) ;;
  updateClipPlane.

(** One animation frame: only the clip plane is application state. *)
Definition animate : M unit :=
  s <- get ;;
  match activeClipPlane s with
  | Some _ => updateClipPlane
  | None => ret tt
  end.

(** The application object when the constructor returns. *)
Definition constructed : App :=
  {| scene := [Gizmos; DirectionalLight; AmbientLight; GridHelper; AxesHelper];
     materials := ∅;
     camera_position := {| vx := Finite 0; vy := Finite 0; vz := Finite 1000 |};
     modelCenter := origin;
     coordinateOffset := origin;
     clipPlanes :=
       {| xy := {| normal := mkVector3 (Finite 0) (Finite 0) (Finite 1);
                   constant := Finite 0 |};
          yz := {| normal := mkVector3 (Finite 1) (Finite 0) (Finite 0);
                   constant := Finite 0 |};
          xz := {| normal := mkVector3 (Finite 0) (Finite 1) (Finite 0);
                   constant := Finite 0 |} |};
     clipPlaneHelpers := fun _ => None;
     activeClipPlane := None;
     clipPosition := Finite 0;
     localClippingEnabled := false;
     console := [Log [AStr "Initializing app"];
                 Log [AStr "App initialization complete"]] |}.

(** What can happen to a constructed application: the three radio buttons
    of a plane, the button "No Clipping", a move of the slider, an animation
    frame, and the arrival of the data asked for by [loadData]. *)
Inductive Event : Type :=
  | SelectPlane (p : PlaneName)
  | Disable
  | SetOffset (value : string)
  | Frame
  | Loaded (response : Error + string) (url : string).

Definition handle (e : Event) : M unit :=
  match e with
  | SelectPlane p => setActiveClipPlane p
  | Disable => disableClipping
  | SetOffset value => positionSlider_oninput value
  | Frame => animate
  | Loaded response url => loadData response url
  end.

(** The state after a sequence of events.  A handler that throws ends
    there; its writes stay. *)
Definition run (events : list Event) (s : App) : App :=
  fold_left (fun s e => exec (handle e) s) events s.

(* ===================================================================== *)
(** * Notions the properties are stated with *)
(* ===================================================================== *)

(** A line made of white space only. *)
Fixpoint blank (line : string) : bool :=
  match line with
  | EmptyString => true
  | String c rest => Str.is_white c && blank rest
  end.

Definition fields (line : string) : list string := Str.split COMMA line.

(** The field reads as a number, an infinity included: anything but NaN. *)
Definition numeric (field : string) : bool :=
  negb (Num.isNaN (Str.parseFloat field)).

(** The field reads as a finite number. *)
Definition finite_numeric (field : string) : bool :=
  Num.isFinite (Str.parseFloat field).

(** The rows the parser keeps. *)
Definition row_kept (line : string) : bool :=
  negb (blank line)
  && (6 <=? length (fields line))%nat
  && numeric (at_index (fields line) 0)
  && numeric (at_index (fields line) 3).

(** The rows to keep when the two checked fields have to be finite. *)
Definition row_kept_finite (line : string) : bool :=
  negb (blank line)
  && (6 <=? length (fields line))%nat
  && finite_numeric (at_index (fields line) 0)
  && finite_numeric (at_index (fields line) 3).

Definition block_of_line (rockIndex : Z) (line : string) : BlockData :=
  block_of_values rockIndex (fields line).

(** The lines after the three leading ones. *)
Definition data_lines (csvText : string) : list string :=
  skipn 3 (csv_lines csvText).

Definition NL : string := String LF EmptyString.

(** The text of the scenario of the specification. *)
Definition granite_text : string :=
  "x,y,z,dx,dy,dz,rock" +:+ NL +:+ "A" +:+ NL +:+ "B" +:+ NL +:+ "C" +:+ NL
  +:+ "10,20,30,2,2,2,granite" +:+ NL.

Definition granite_block : BlockData :=
  {| centroid_x := Finite 10; centroid_y := Finite 20; centroid_z := Finite 30;
     dim_x := Finite 2; dim_y := Finite 2; dim_z := Finite 2;
     rock := "granite" |}.

(** A text whose one data row has [Infinity] in the two checked fields. *)
Definition infinity_text : string :=
  "x,y,z,dx,dy,dz,rock" +:+ NL +:+ NL +:+ NL
  +:+ "Infinity,20,30,Infinity,2,2,granite".



(** How the rock label of the block of a row relates to the row. *)
Definition rock_from_row (rockIndex : Z) (line : string) (block : BlockData) : Prop :=
  let values := fields line in
  (6 <= length values)%nat
  /\ (Z.of_nat (length values) <= rockIndex -> rock block = "unknown")
  /\ (rockIndex < 0 -> rock block = "unknown")
  /\ (0 <= rockIndex < Z.of_nat (length values) ->
      rock block = at_index values (Z.to_nat rockIndex)).

(** A text whose header puts the rock column eighth and whose data row has
    six fields. *)
Definition short_row_text : string :=
  "x,y,z,dx,dy,dz,grade,rock" +:+ NL +:+ NL +:+ NL +:+ "1,2,3,4,5,6".

(** [m] is the least element of [xs] for the order of JavaScript. *)
Definition is_minimum (m : number) (xs : list number) : Prop :=
  m ∈ xs /\ Forall (fun x => Num.leb m x = true) xs.

Definition finite_centroid (block : BlockData) : Prop :=
  Num.isFinite (centroid_x block) = true
  /\ Num.isFinite (centroid_y block) = true
  /\ Num.isFinite (centroid_z block) = true.

(** The centroid of a block once the offset is subtracted, as
    [createBlockModel] computes it. *)
Definition normalized (offset : Vector3) (block : BlockData) : Vector3 :=
  {| vx := Num.sub (centroid_x block) (vx offset);
     vy := Num.sub (centroid_y block) (vy offset);
     vz := Num.sub (centroid_z block) (vz offset) |}.

(** [x >= 0] holds. *)
Definition nonneg (x : number) : Prop := Num.geb x (Finite 0) = true.

(** A text whose one data row has a centroid-y which is not a number. *)
Definition nan_text : string :=
  "x,y,z,dx,dy,dz,rock" +:+ NL +:+ NL +:+ NL +:+ "10,n/a,30,2,2,2,granite".

(** Two blocks with finite centroids. *)
Definition two_blocks : list BlockData :=
  [ granite_block;
    {| centroid_x := Finite 12; centroid_y := Finite 18; centroid_z := Finite 31;
       dim_x := Finite 2; dim_y := Finite 2; dim_z := Finite 2;
       rock := "basalt" |} ].

(** ** The clipping controls as state transformers *)

(** [node] is the object [o] or lies below it in the graph: the graph is
    read from the children lists alone, not from a traversal. *)
Inductive below (node : Object3D) : Object3D -> Prop :=
  | below_self : below node node
  | below_group child children :
      child ∈ children -> below node child -> below node (Group children)
  | below_helper plane child children :
      child ∈ children -> below node child ->
      below node (PlaneHelper plane children).

(** [node] is an object of the scene graph. *)
Definition in_scene (node : Object3D) (s : App) : Prop :=
  exists root, root ∈ scene s /\ below node root.

(** Induction on the scene graph, children included. *)
Section Object3D_graph_ind.
Variable P : Object3D -> Prop.
Hypothesis mesh_case : forall g address p, P (Mesh g address p).
Hypothesis group_case :
    forall children, Forall P children -> P (Group children).
Hypothesis helper_case :
    forall plane children, Forall P children -> P (PlaneHelper plane children).
Hypothesis leaf_case :
    forall o, descendants o = [o] -> P o.

Fixpoint Object3D_graph_ind (o : Object3D) : P o :=
    let all :=
      fix all (l : list Object3D) : Forall P l :=
        match l with
        | [] => List.Forall_nil P
        | child :: rest =>
            List.Forall_cons P child rest (Object3D_graph_ind child) (all rest)
        end in
    match o with
    | Mesh g address p => mesh_case g address p
    | Group children => group_case children (all children)
    | PlaneHelper plane children => helper_case plane children (all children)
    | DirectionalLight => leaf_case DirectionalLight eq_refl
    | AmbientLight => leaf_case AmbientLight eq_refl
    | GridHelper => leaf_case GridHelper eq_refl
    | AxesHelper => leaf_case AxesHelper eq_refl
    | Gizmos => leaf_case Gizmos eq_refl
    end.
End Object3D_graph_ind.

(** Every node of the scene graph, in the order of [traverse]. *)
Definition scene_nodes (s : App) : list Object3D :=
  flat_map descendants (scene s).

(** The material object a constructor of the library makes for a colour. *)
Definition fresh_material (c : Color) : Material :=
  {| color := c; clippingPlanes := [];
     clipIntersection := false; needsUpdate := false |}.

(** The red of the plane helpers, [0xff0000]. *)
Definition helper_red : Color := hex 16711680.

(** The helper of a plane, for the address of the material of its face. *)
Definition helper_of (plane : PlaneName) (face : nat) : Object3D :=
  PlaneHelper plane [Mesh Square face origin].

(** The store after [f] is applied to the material of every mesh among
    [nodes], one visit after the other. *)
Definition retarget (f : Material -> Material) (nodes : list Object3D)
    (store : gmap nat Material) : gmap nat Material :=
  fold_left
    (fun store node =>
       match node with
       | Mesh _ address _ => alter f address store
       | _ => store
       end)
    nodes store.

(** The state [disableClipping] leaves. *)
Definition disabled (s : App) : App :=
  set_localClippingEnabled false
    (set_activeClipPlane None
       (set_materials (retarget clear_planes (scene_nodes s) (materials s))
          (set_clipPlaneHelpers (fun p => hide <$> clipPlaneHelpers s p) s))).

(** The state [updateClipPlane] leaves. *)
Definition repositioned (s : App) : App :=
  match activeClipPlane s with
  | None => s
  | Some active =>
      let moved :=
        set_clipPlanes
          (plane_set active
             {| normal := normal (plane_get active (clipPlanes s));
                constant := Num.neg (clipPosition s) |}
             (clipPlanes s)) s in
      match clipPlaneHelpers s active with
      | Some helper =>
          set_clipPlaneHelpers
            (helper_set active (show helper) (clipPlaneHelpers s)) moved
      | None => moved
      end
  end.

(** The helper of [plane] is created and added to the scene if need be,
    with a new material for its face. *)
Definition with_helper (plane : PlaneName) (s : App) : App :=
  match clipPlaneHelpers s plane with
  | None =>
      let face := fresh (dom (materials s)) in
      set_scene (scene s ++ [helper_of plane face])
        (set_clipPlaneHelpers
           (helper_set plane {| visible := true |} (clipPlaneHelpers s))
           (set_materials (<[face := fresh_material helper_red]> (materials s)) s))
  | Some _ => s
  end.

(** The state [setActiveClipPlane plane] leaves. *)
Definition activated (plane : PlaneName) (s : App) : App :=
  let chosen := with_helper plane (set_activeClipPlane (Some plane) (disabled s)) in
  set_localClippingEnabled true
    (repositioned
       (set_materials
          (retarget (assign_plane plane) (scene_nodes chosen) (materials chosen))
          chosen)).

(** The renderer clips exactly when a plane is active. *)
Definition clip_consistent (s : App) : Prop :=
  localClippingEnabled s = true <-> activeClipPlane s <> None.

(** Every mesh of the scene has its material in the store. *)
Definition materials_present (s : App) : Prop :=
  forall g address p,
    in_scene (Mesh g address p) s -> address ∈ dom (materials s).

(** Every mesh of the scene has a material, and it holds no clip plane. *)
Definition no_mesh_clipped (s : App) : Prop :=
  forall g address p,
    in_scene (Mesh g address p) s ->
    exists m, materials s !! address = Some m /\ clippingPlanes m = [].

(** The helpers the application holds are in the scene, each with the
    mesh of its face. *)
Definition helpers_in_scene (s : App) : Prop :=
  forall r, is_Some (clipPlaneHelpers s r) ->
            exists face, helper_of r face ∈ scene s.

(** While a plane is active, the material of the face of its helper holds
    it. *)
Definition active_face_clipped (s : App) : Prop :=
  forall q face,
    activeClipPlane s = Some q -> helper_of q face ∈ scene s ->
    exists m, materials s !! face = Some m /\ clippingPlanes m = [q].

(** The position stored for a plane. *)
Definition plane_position (p : PlaneName) (s : App) : number :=
  constant (plane_get p (clipPlanes s)).

(** ** The scene builder *)

(** All the blocks held by an object of arrays of blocks. *)
Definition grouped (o : Obj.t (list BlockData)) : list BlockData :=
  concat (map snd o).

(** No own key of the object is a name inherited from the prototype. *)
Definition own_keys_fresh (o : Obj.t (list BlockData)) : Prop :=
  Forall (fun kv => Obj.inherited (fst kv) = false) o.

(** The cubes of [createBlockModel], for the materials they are given. *)
Definition cubes_of (offset : Vector3) (addresses : list nat)
    (blocks : list BlockData) : list Object3D :=
  zip_with (make_cube scaleFactor heightScaleFactor offset) addresses blocks.

(** The model centre [createBlockModel] computes. *)
Definition center_of (offset : Vector3) (blocks : list BlockData) : Vector3 :=
  let sums := centroid_sums offset blocks in
  let count := Num.of_nat (length blocks) in
  {| vx := Num.div (vx sums) count;
     vy := Num.div (vz sums) count;
     vz := Num.div (vy sums) count |}.

(** Where [createBlockModel] puts the camera. *)
Definition camera_over (center : Vector3) : Vector3 :=
  {| vx := Num.add (vx center) (Finite 500);
     vy := Num.add (vy center) (Finite 500);
     vz := Num.add (vz center) (Finite 500) |}.

(** The clipping controls are the same in the two states. *)
Definition same_controls (s s' : App) : Prop :=
  clipPlanes s' = clipPlanes s
  /\ clipPlaneHelpers s' = clipPlaneHelpers s
  /\ activeClipPlane s' = activeClipPlane s
  /\ clipPosition s' = clipPosition s
  /\ localClippingEnabled s' = localClippingEnabled s.

(** [x === y] on numbers: NaN equals nothing. *)
Definition same_number (x y : number) : bool :=
  match x, y with
  | NegInfinity, NegInfinity | Infinity, Infinity => true
  | Finite p, Finite q => Qeq_bool p q
  | _, _ => false
  end.

(** The horizontal extents and the horizontal position of a box. *)
Definition horizontal (o : Object3D) : option (number * number * number * number) :=
  match o with
  | Mesh (Box g) _ p => Some (width g, depth g, vx p, vz p)
  | _ => None
  end.

(** The box of a block as the code builds it: every extent times 0.7, the
    height times 2 besides; the position is the normalized centroid, its
    height times 2, the horizontal coordinates as they are. *)
Definition box_of_block (offset : Vector3) (address : nat) (block : BlockData)
  : Object3D :=
  Mesh
    (Box {| width := Num.mul (dim_x block) (Num.of_Q 0.7);
            height := Num.mul (Num.mul (dim_z block) (Num.of_Q 0.7)) (Finite 2);
            depth := Num.mul (dim_y block) (Num.of_Q 0.7) |})
    address
    {| vx := vx (normalized offset block);
       vy := Num.mul (vz (normalized offset block)) (Finite 2);
       vz := vy (normalized offset block) |}.

(** The position of the first occurrence of [x] in [l] (its length when
    there is none). *)
Fixpoint first_index (x : string) (l : list string) : nat :=
  match l with
  | [] => 0
  | y :: rest => if String.eqb y x then 0 else S (first_index x rest)
  end.

(** The hue given to the label of rank [i] among [k] labels. *)
Definition hue_of (i k : nat) : number := Num.div (Num.of_nat i) (Num.of_nat k).

(** A block whose rock label is a name every object inherits. *)
Definition constructor_block : BlockData :=
  {| centroid_x := Finite 0; centroid_y := Finite 0; centroid_z := Finite 0;
     dim_x := Finite 1; dim_y := Finite 1; dim_z := Finite 1;
     rock := "constructor" |}.

(** A dataset of 5001 such blocks. *)
Definition constructor_dataset : list BlockData := replicate 5001 constructor_block.

(** The text of a file with [n] data rows labelled "constructor". *)
Fixpoint constructor_rows (n : nat) : string :=
  match n with
  | O => EmptyString
  | S n' => "0,0,0,1,1,1,constructor" +:+ NL +:+ constructor_rows n'
  end.

Definition constructor_text : string :=
  "x,y,z,dx,dy,dz,rock" +:+ NL +:+ NL +:+ NL +:+ constructor_rows 5001.

(** ** Notions for the further properties *)

(** The keys of the object are distinct, and every array holds at least
    one block, all of them labelled with its key. *)
Definition well_grouped (o : Obj.t (list BlockData)) : Prop :=
  NoDup (map fst o)
  /\ Forall (fun kv => snd kv <> [] /\ Forall (fun block => rock block = fst kv) (snd kv)) o.

(** One rock type of the built model: the address of its material, its
    label and its blocks. *)
Record RockGroup : Type := mkRockGroup {
  group_material : nat;
  group_rock : string;
  group_blocks_of : list BlockData
}.

(** The boxes of the rock groups, in order. *)
Definition boxes_of_groups (offset : Vector3) (groups : list RockGroup)
  : list Object3D :=
  flat_map
    (fun g => map (make_cube scaleFactor heightScaleFactor offset (group_material g))
                  (group_blocks_of g))
    groups.

(** The addresses of the materials of the meshes among [nodes]. *)
Definition mesh_addresses (nodes : list Object3D) : list nat :=
  omap (fun node => match node with Mesh _ address _ => Some address | _ => None end)
       nodes.

(** The controls agree with the active plane: the renderer clips exactly
    when a plane is active; the position of the active plane is minus the
    value of the slider; a helper is visible exactly when its plane is the
    active one; the active plane has a helper; the helpers are the plane
    helpers of the scene. *)
Definition controls_in_step (s : App) : Prop :=
  clip_consistent s
  /\ (forall p, activeClipPlane s = Some p ->
        plane_position p s = Num.neg (clipPosition s))
  /\ (forall r h, clipPlaneHelpers s r = Some h ->
        (visible h = true <-> activeClipPlane s = Some r))
  /\ (forall p, activeClipPlane s = Some p -> is_Some (clipPlaneHelpers s p))
  /\ (forall r, is_Some (clipPlaneHelpers s r)
                <-> exists children, PlaneHelper r children ∈ scene s).

(** The two states agree on everything the application holds, the helpers
    being compared plane by plane. *)
Definition same_state (s s' : App) : Prop :=
  scene s' = scene s
  /\ materials s' = materials s
  /\ camera_position s' = camera_position s
  /\ modelCenter s' = modelCenter s
  /\ coordinateOffset s' = coordinateOffset s
  /\ clipPlanes s' = clipPlanes s
  /\ (forall p, clipPlaneHelpers s' p = clipPlaneHelpers s p)
  /\ activeClipPlane s' = activeClipPlane s
  /\ clipPosition s' = clipPosition s
  /\ localClippingEnabled s' = localClippingEnabled s
  /\ console s' = console s.

(** The blocks [parseCSV] returns for a text. *)
Definition parsed (csvText : string) : list BlockData :=
  map (block_of_line (csv_rockIndex csvText))
      (List.filter row_kept (data_lines csvText)).

(** The node is a box standing at nonnegative coordinates. *)
Definition in_positive_octant (node : Object3D) : Prop :=
  match node with
  | Mesh _ _ p => nonneg (vx p) /\ nonneg (vy p) /\ nonneg (vz p)
  | _ => False
  end.

(** The node is a mesh whose material is in the store and holds no clip
    plane. *)
Definition unclipped_mesh (store : gmap nat Material) (node : Object3D) : Prop :=
  match node with
  | Mesh _ address _ =>
      exists m, store !! address = Some m /\ clippingPlanes m = []
  | _ => False
  end.

Definition CR : ascii := "013"%char.
Definition CRLF : string := String CR NL.

(** The granite text with Windows line ends: the last header is then
    "rock" followed by a carriage return. *)
Definition granite_crlf_text : string :=
  "x,y,z,dx,dy,dz,rock" +:+ CRLF +:+ "A" +:+ CRLF +:+ "B" +:+ CRLF
  +:+ "10,20,30,2,2,2,granite" +:+ CRLF.

(** No material of a mesh of the scene holds a clip plane other than the
    active one: it holds none, or the active plane alone. *)
Definition no_stale_plane (s : App) : Prop :=
  forall g address p m,
    in_scene (Mesh g address p) s ->
    materials s !! address = Some m ->
    clippingPlanes m = []
    \/ exists q, activeClipPlane s = Some q /\ clippingPlanes m = [q].
(* ===================================================================== *)
(** * The parser *)
(* ===================================================================== *)

Lemma trimStart_empty line : Str.trimStart line = EmptyString <-> blank line = true.
Proof.
  induction line as [|c rest IH]; simpl; [tauto|].
  destruct (Str.is_white c); simpl; [exact IH|].
  split; discriminate.
Qed.

Lemma trimEnd_keeps c rest :
  Str.is_white c = false -> Str.trimEnd (String c rest) <> EmptyString.
Proof.
  intros Hc. simpl. destruct (Str.trimEnd rest); [rewrite Hc|]; discriminate.
Qed.

Lemma trimStart_head line :
  match Str.trimStart line with
  | EmptyString => True
  | String c _ => Str.is_white c = false
  end.
Proof.
  induction line as [|c rest IH]; simpl; [exact I|].
  destruct (Str.is_white c) eqn:E; [exact IH | exact E].
Qed.

(** The test [!line.trim()] holds for the blank lines, and for no other. *)
Lemma truthy_trim line : Str.truthy (Str.trim line) = negb (blank line).
Proof.
  unfold Str.trim.
  destruct (blank line) eqn:B.
  - apply trimStart_empty in B. rewrite B. reflexivity.
  - pose proof (trimStart_head line) as H.
    destruct (Str.trimStart line) as [|c rest] eqn:T.
    + apply trimStart_empty in T. congruence.
    + pose proof (trimEnd_keeps c rest H) as K.
      destruct (Str.trimEnd (String c rest)); [congruence | reflexivity].
Qed.

Lemma parse_rows_cons rockIndex line rest data :
  parse_rows rockIndex (line :: rest) data
  = parse_rows rockIndex rest
      (if row_kept line then data ++ [block_of_line rockIndex line] else data).
Proof.
  cbn [parse_rows]. unfold row_kept, numeric, block_of_line.
  rewrite truthy_trim. fold (fields line).
  rewrite Nat.ltb_antisym.
  destruct (blank line); [reflexivity|].
  destruct (6 <=? length (fields line))%nat; [|reflexivity].
  cbn [negb andb block_of_values centroid_x dim_x].
  destruct (Num.isNaN (Str.parseFloat (at_index (fields line) 0)));
    [reflexivity|].
  destruct (Num.isNaN (Str.parseFloat (at_index (fields line) 3)));
    reflexivity.
Qed.

Lemma parse_rows_app rockIndex lines data :
  parse_rows rockIndex lines data
  = data ++ map (block_of_line rockIndex) (List.filter row_kept lines).
Proof.
  revert data. induction lines as [|line rest IH]; intros data.
  - cbn. now rewrite app_nil_r.
  - rewrite parse_rows_cons, IH. cbn [List.filter].
    destruct (row_kept line); [|reflexivity].
    rewrite <- app_assoc. reflexivity.
Qed.

(** [parseCSV] always returns, and writes on the console only. *)
Lemma parseCSV_run csvText s :
  exists lines,
    parseCSV csvText s
    = (Normal (map (block_of_line (csv_rockIndex csvText))
                   (List.filter row_kept (data_lines csvText))),
       set_console (console s ++ lines) s).
Proof.
  unfold parseCSV, data_lines.
  rewrite parse_rows_app. simpl app.
  set (data := map _ _).
  destruct data as [|first data'] eqn:D; cbn;
    rewrite <- ?app_assoc; cbn; eexists; reflexivity.
Qed.
(** C1, as amended: [parseCSV] skips the first three lines and keeps exactly
    the later lines which are not blank, split into at least six fields, and
    whose first and fourth fields read as a number other than NaN (an
    infinity is kept); each kept line gives one block, in order.  On the
    text of the scenario the result is the one granite block with centroid
    (10,20,30) and dimensions (2,2,2). *)
Theorem parseCSV_keeps_numeric_rows :
  (forall csvText s,
     eval (parseCSV csvText) s
     = Normal (map (block_of_line (csv_rockIndex csvText))
                   (List.filter row_kept (data_lines csvText))))
  /\ (forall s, eval (parseCSV granite_text) s = Normal [granite_block]).
Proof.
  assert (G : forall csvText s,
     eval (parseCSV csvText) s
     = Normal (map (block_of_line (csv_rockIndex csvText))
                   (List.filter row_kept (data_lines csvText)))).
  { intros csvText s. unfold eval.
    destruct (parseCSV_run csvText s) as [lines ->]. reflexivity. }
  split; [exact G|].
  intros s. rewrite G. vm_compute. reflexivity.
Qed.

(** C1 fails as stated: a row whose first and fourth fields are [Infinity]
    is kept, although neither field reads as a finite number. *)
Lemma parseCSV_keeps_infinite_rows :
  eval (parseCSV infinity_text) constructed
  = Normal [ {| centroid_x := Infinity; centroid_y := Finite 20;
                centroid_z := Finite 30; dim_x := Infinity;
                dim_y := Finite 2; dim_z := Finite 2; rock := "granite" |} ]
  /\ List.filter row_kept_finite (data_lines infinity_text) = [].
Proof. split; vm_compute; reflexivity. Qed.

Lemma filter_none {A} (f : A -> bool) l :
  Forall (fun x => f x = false) l -> List.filter f l = [].
Proof.
  induction 1 as [|x l Hx _ IH]; [reflexivity|].
  cbn [List.filter]. rewrite Hx. exact IH.
Qed.

Lemma loadData_empty csvText url s :
  Forall (fun line => row_kept line = false) (data_lines csvText) ->
  exists lines,
    loadData (inr csvText) url s
    = (Normal tt,
       set_console
         (console s ++ lines ++ [LogError [AStr "No valid blocks found in data"]]) s).
Proof.
  intros H.
  unfold loadData, try_catch.
  unfold bind at 1. cbn [console_log modify].
  unfold bind at 1. cbn [ret].
  unfold bind at 1. cbn [console_log modify].
  unfold bind at 1.
  match goal with |- context [parseCSV csvText ?st] =>
    destruct (parseCSV_run csvText st) as [lines ->] end.
  rewrite (filter_none _ _ H). cbn.
  exists ([Log [AStr "Loading data from:"; AStr url];
           Log [AStr "CSV data loaded, length:";
                AInt (Z.of_nat (String.length csvText))]]
          ++ lines ++ [Log [AStr "Parsed blocks:"; AInt (Z.of_nat 0)]]).
  unfold set_console. cbn. rewrite <- !app_assoc. reflexivity.
Qed.



Lemma rock_from_row_block rockIndex line :
  row_kept line = true -> rock_from_row rockIndex line (block_of_line rockIndex line).
Proof.
  unfold row_kept, rock_from_row, block_of_line, block_of_values.
  intros K. cbn [rock].
  apply andb_prop in K as [K _]. apply andb_prop in K as [K _].
  apply andb_prop in K as [_ K]. apply Nat.leb_le in K.
  split; [exact K|].
  repeat split; intros R.
  - destruct (0 <=? rockIndex); [|reflexivity].
    destruct (Z.ltb_spec rockIndex (Z.of_nat (length (fields line))));
      [lia | reflexivity].
  - destruct (Z.leb_spec 0 rockIndex); [lia | reflexivity].
  - destruct (Z.leb_spec 0 rockIndex); [|lia].
    destruct (Z.ltb_spec rockIndex (Z.of_nat (length (fields line))));
      [reflexivity | lia].
Qed.

(** C10: the blocks [parseCSV] returns are those of the kept rows, in
    order, and the rock label of each is "unknown" when the row has no more
    fields than the index of the header's rock column (also when the header
    has no such column); it is the field at that index when the index is in
    range. *)
Theorem parseCSV_rock_label_in_range_only csvText s :
  exists data,
    eval (parseCSV csvText) s = Normal data
    /\ Forall2 (rock_from_row (csv_rockIndex csvText))
         (List.filter row_kept (data_lines csvText)) data.
Proof.
  unfold eval. destruct (parseCSV_run csvText s) as [lines ->].
  eexists. split; [reflexivity|].
  apply Forall2_fmap_r, Forall_Forall2_diag, Forall_forall.
  intros line Hin. apply list_elem_of_In, filter_In in Hin as [_ K].
  now apply rock_from_row_block.
Qed.

(** The header puts the rock column at index 7; the row has six fields. *)
Example short_row_unknown :
  eval (parseCSV short_row_text) constructed
  = Normal [ {| centroid_x := Finite 1; centroid_y := Finite 2;
                centroid_z := Finite 3; dim_x := Finite 4; dim_y := Finite 5;
                dim_z := Finite 6; rock := "unknown" |} ]
  /\ csv_rockIndex short_row_text = 7.
Proof. split; vm_compute; reflexivity. Qed.

(* ===================================================================== *)
(** * Numbers: the rounding keeps the sign *)
(* ===================================================================== *)

Lemma binary_nonneg m e : 0 <= m -> (0 <= Num.binary m e)%Q.
Proof.
  intros H. unfold Num.binary. destruct (0 <=? e).
  - unfold Qle. cbn. nia.
  - rewrite Qred_correct. unfold Qle. cbn. lia.
Qed.

Lemma shr_1_nonneg mrs : 0 <= shr_m mrs -> 0 <= shr_m (shr_1 mrs).
Proof.
  destruct mrs as [m r s']. cbn.
  destruct m as [|[p|p|]|[p|p|]]; cbn; lia.
Qed.

Lemma iter_pos_nonneg n mrs :
  0 <= shr_m mrs -> 0 <= shr_m (SpecFloat.iter_pos shr_1 n mrs).
Proof.
  revert mrs. induction n as [n IH|n IH|]; intros mrs H; cbn.
  - apply IH, IH, shr_1_nonneg, H.
  - apply IH, IH, H.
  - now apply shr_1_nonneg.
Qed.

Lemma shr_fexp_nonneg m e l :
  0 <= m -> 0 <= shr_m (fst (shr_fexp Num.prec Num.emax m e l)).
Proof.
  intros H. unfold shr_fexp, shr.
  assert (R : 0 <= shr_m (shr_record_of_loc m l)).
  { unfold shr_record_of_loc. destruct l as [|[]]; exact H. }
  destruct (fexp Num.prec Num.emax (Zdigits2 m + e) - e); cbn [fst]; auto.
  now apply iter_pos_nonneg.
Qed.

Lemma round_nearest_even_nonneg m l : 0 <= m -> 0 <= round_nearest_even m l.
Proof.
  intros H. unfold round_nearest_even.
  destruct l as [|[]]; try lia. destruct (IntDef.Z.even m); lia.
Qed.

(** Rounding a magnitude gives a zero, a finite value or an infinity of
    the sign asked for. *)
Lemma binary_round_aux_sign sx m e l :
  0 <= m ->
  match binary_round_aux Num.prec Num.emax sx m e l with
  | S754_zero _ => True
  | S754_finite s _ _ | S754_infinity s => s = sx
  | S754_nan => False
  end.
Proof.
  intros H. unfold binary_round_aux.
  pose proof (shr_fexp_nonneg m e l H) as H1.
  destruct (shr_fexp Num.prec Num.emax m e l) as [mrs' e'].
  cbn [fst] in H1.
  pose proof (shr_fexp_nonneg _ e' loc_Exact
                (round_nearest_even_nonneg _ (loc_of_shr_record mrs') H1)) as H2.
  destruct (shr_fexp Num.prec Num.emax _ e' loc_Exact) as [mrs'' e''].
  cbn [fst] in H2.
  destruct (shr_m mrs''); [exact I | | lia].
  destruct (e'' <=? Num.emax - Num.prec); reflexivity.
Qed.

Lemma SFdiv_sign sx n d :
  match SFdiv Num.prec Num.emax (S754_finite sx n 0) (S754_finite false d 0) with
  | S754_zero _ => True
  | S754_finite s _ _ | S754_infinity s => s = sx
  | S754_nan => False
  end.
Proof.
  unfold SFdiv.
  destruct (SFdiv_core_binary Num.prec Num.emax (Z.pos n) 0 (Z.pos d) 0)
    as [[mz ez] lz] eqn:E.
  replace (xorb sx false) with sx by now destruct sx.
  apply binary_round_aux_sign.
  unfold SFdiv_core_binary in E.
  destruct (IntDef.Z.div_eucl _ (Z.pos d)) as [q r] eqn:D in E.
  injection E as <- _ _.
  match type of D with
  | IntDef.Z.div_eucl ?a ?b = _ =>
      pose proof (Z.div_eucl_eq a b ltac:(lia)) as Q;
      pose proof (Z.mod_pos_bound a b ltac:(lia)) as B;
      assert (A : 0 <= a)
  end.
  { destruct (0 - 0 - _); try lia. apply Z.shiftl_nonneg. lia. }
  change IntDef.Z.div_eucl with Z.div_eucl in D.
  unfold Z.modulo in B. rewrite D in Q, B. nia.
Qed.

(** Rounding keeps the sign: a nonnegative rational rounds to a
    nonnegative number (an infinity at most). *)
Lemma round_nonneg q : (0 <= q)%Q -> nonneg (Num.round q).
Proof.
  intros H. unfold nonneg, Num.geb, Num.round.
  destruct q as [n d]. unfold Qle in H. cbn in H. cbn [Qnum Qden].
  destruct n as [|n|n]; [reflexivity | | lia].
  pose proof (SFdiv_sign false n d) as S.
  destruct (SFdiv _ _ _ _) as [s|s| |s m e]; cbn; try easy.
  - now subst s.
  - subst s. apply Qle_bool_iff. apply binary_nonneg. lia.
Qed.

Lemma round_notNaN q : Num.isNaN (Num.round q) = false.
Proof.
  unfold Num.round. destruct (Qnum q) as [|n|n]; [reflexivity | |].
  - pose proof (SFdiv_sign false n (Qden q)) as S.
    destruct (SFdiv _ _ _ _) as [s|[]| |s m e]; easy.
  - pose proof (SFdiv_sign true n (Qden q)) as S.
    destruct (SFdiv _ _ _ _) as [s|[]| |s m e]; easy.
Qed.

(* ===================================================================== *)
(** * The coordinate offset *)
(* ===================================================================== *)

Lemma leb_refl x : Num.isNaN x = false -> Num.leb x x = true.
Proof.
  destruct x; cbn; try easy. intros _. apply Qle_bool_iff, Qle_refl.
Qed.

Lemma leb_trans x y z :
  Num.leb x y = true -> Num.leb y z = true -> Num.leb x z = true.
Proof.
  destruct x, y, z; cbn; try easy.
  rewrite !Qle_bool_iff. apply Qle_trans.
Qed.

Lemma min_cases x y : Num.min x y = x \/ Num.min x y = y.
Proof.
  destruct x, y; cbn; auto. destruct (Qle_bool q q0); auto.
Qed.

Lemma min_notNaN x y :
  Num.isNaN x = false -> Num.isNaN y = false -> Num.isNaN (Num.min x y) = false.
Proof. destruct (min_cases x y) as [-> | ->]; auto. Qed.

Lemma Qle_bool_refl q : Qle_bool q q = true.
Proof. apply Qle_bool_iff, Qle_refl. Qed.

Lemma Qle_bool_flip p q : Qle_bool p q = false -> Qle_bool q p = true.
Proof.
  intros E. apply Qle_bool_iff, Qlt_le_weak, Qnot_le_lt.
  intros H. apply Qle_bool_iff in H. congruence.
Qed.

Lemma min_leb_l x y :
  Num.isNaN x = false -> Num.isNaN y = false -> Num.leb (Num.min x y) x = true.
Proof.
  destruct x as [| |p|], y as [| |q|]; cbn; try easy; intros _ _.
  - destruct (Qle_bool p q) eqn:E; cbn.
    + apply Qle_bool_refl.
    + now apply Qle_bool_flip.
  - apply Qle_bool_refl.
Qed.

Lemma min_leb_r x y :
  Num.isNaN x = false -> Num.isNaN y = false -> Num.leb (Num.min x y) y = true.
Proof.
  destruct x as [| |p|], y as [| |q|]; cbn; try easy; intros _ _.
  - destruct (Qle_bool p q) eqn:E; cbn; [exact E|].
    apply Qle_bool_refl.
  - apply Qle_bool_refl.
Qed.

(** The running minimum of a [forEach] started at [acc]. *)
Lemma fold_min_spec xs acc :
  Forall (fun x => Num.isNaN x = false) xs ->
  Num.isNaN acc = false ->
  let m := fold_left Num.min xs acc in
  Num.isNaN m = false
  /\ Num.leb m acc = true
  /\ Forall (fun x => Num.leb m x = true) xs
  /\ (m = acc \/ m ∈ xs).
Proof.
  intros Hxs. revert acc.
  induction Hxs as [|x xs Hx _ IH]; intros acc Hacc; cbn.
  - repeat split; auto using leb_refl.
  - destruct (IH (Num.min acc x) (min_notNaN _ _ Hacc Hx)) as (N & L & F & C).
    repeat split.
    + exact N.
    + eapply leb_trans; [exact L | now apply min_leb_l].
    + constructor; [|exact F].
      eapply leb_trans; [exact L | now apply min_leb_r].
    + destruct C as [C | C]; [|right; now constructor].
      rewrite C. destruct (min_cases acc x) as [-> | ->]; [now left|].
      right. constructor.
Qed.

Lemma fold_min_is_minimum xs :
  xs <> [] ->
  Forall (fun x => Num.isNaN x = false) xs ->
  is_minimum (fold_left Num.min xs Infinity) xs.
Proof.
  intros Hne Hxs.
  destruct (fold_min_spec xs Infinity Hxs eq_refl) as (_ & _ & F & C).
  split; [|exact F].
  destruct C as [C | C]; [|exact C].
  rewrite C in *.
  destruct xs as [|x xs]; [congruence|].
  apply Forall_cons in F as [Hx _].
  destruct x; cbn in Hx; try discriminate. constructor.
Qed.

Lemma centroid_minima_fold blocks m :
  fold_left
    (fun m block =>
       {| vx := Num.min (vx m) (centroid_x block);
          vy := Num.min (vy m) (centroid_y block);
          vz := Num.min (vz m) (centroid_z block) |})
    blocks m
  = {| vx := fold_left Num.min (map centroid_x blocks) (vx m);
       vy := fold_left Num.min (map centroid_y blocks) (vy m);
       vz := fold_left Num.min (map centroid_z blocks) (vz m) |}.
Proof.
  revert m. induction blocks as [|b blocks IH]; intros m; cbn.
  - now destruct m.
  - now rewrite IH.
Qed.

Lemma finite_notNaN x : Num.isFinite x = true -> Num.isNaN x = false.
Proof. now destruct x. Qed.

Lemma sub_nonneg m x :
  Num.isFinite m = true -> Num.isFinite x = true ->
  Num.leb m x = true -> nonneg (Num.sub x m).
Proof.
  destruct m as [| |p|], x as [| |q|]; cbn [Num.isFinite Num.leb]; try easy.
  intros _ _ L. change (Num.sub (Finite q) (Finite p)) with (Num.round (q + - p)).
  apply round_nonneg. apply Qle_bool_iff in L. now apply Qle_minus_iff in L.
Qed.

Lemma is_minimum_nonneg m xs x :
  Forall (fun x => Num.isFinite x = true) xs ->
  is_minimum m xs -> x ∈ xs -> nonneg (Num.sub x m).
Proof.
  intros Hfin [Hin Hle] Hx.
  rewrite Forall_forall in Hfin, Hle.
  apply sub_nonneg; auto.
Qed.

(** C2, as amended: for a non-empty dataset whose centroids are finite on
    the three axes, the offset [computeCoordinateOffset] stores is, axis by
    axis, the least centroid coordinate of the dataset, and the centroid of
    every block minus the offset is [>= 0] on each axis. *)
Theorem computeCoordinateOffset_is_minimum blocks s :
  blocks <> [] ->
  Forall finite_centroid blocks ->
  let offset := coordinateOffset (exec (computeCoordinateOffset blocks) s) in
  is_minimum (vx offset) (map centroid_x blocks)
  /\ is_minimum (vy offset) (map centroid_y blocks)
  /\ is_minimum (vz offset) (map centroid_z blocks)
  /\ Forall (fun block =>
               nonneg (vx (normalized offset block))
               /\ nonneg (vy (normalized offset block))
               /\ nonneg (vz (normalized offset block))) blocks.
Proof.
  intros Hne Hfin. cbn.
  unfold centroid_minima. rewrite centroid_minima_fold. cbn [vx vy vz].
  assert (Fx : Forall (fun x => Num.isFinite x = true) (map centroid_x blocks)).
  { apply Forall_fmap. eapply Forall_impl; [exact Hfin|]. now intros b (? & ? & ?). }
  assert (Fy : Forall (fun x => Num.isFinite x = true) (map centroid_y blocks)).
  { apply Forall_fmap. eapply Forall_impl; [exact Hfin|]. now intros b (? & ? & ?). }
  assert (Fz : Forall (fun x => Num.isFinite x = true) (map centroid_z blocks)).
  { apply Forall_fmap. eapply Forall_impl; [exact Hfin|]. now intros b (? & ? & ?). }
  assert (Mx : is_minimum (fold_left Num.min (map centroid_x blocks) Infinity)
                 (map centroid_x blocks)).
  { apply fold_min_is_minimum; [now destruct blocks|].
    eapply Forall_impl; [exact Fx|]. apply finite_notNaN. }
  assert (My : is_minimum (fold_left Num.min (map centroid_y blocks) Infinity)
                 (map centroid_y blocks)).
  { apply fold_min_is_minimum; [now destruct blocks|].
    eapply Forall_impl; [exact Fy|]. apply finite_notNaN. }
  assert (Mz : is_minimum (fold_left Num.min (map centroid_z blocks) Infinity)
                 (map centroid_z blocks)).
  { apply fold_min_is_minimum; [now destruct blocks|].
    eapply Forall_impl; [exact Fz|]. apply finite_notNaN. }
  repeat split; try apply Mx; try apply My; try apply Mz.
  apply Forall_forall. intros b Hb. cbn.
  repeat split.
  - eapply is_minimum_nonneg; [exact Fx | exact Mx |].
    now apply list_elem_of_fmap_2.
  - eapply is_minimum_nonneg; [exact Fy | exact My |].
    now apply list_elem_of_fmap_2.
  - eapply is_minimum_nonneg; [exact Fz | exact Mz |].
    now apply list_elem_of_fmap_2.
Qed.

Lemma computeCoordinateOffset_is_minimum_witness :
  let offset := coordinateOffset (exec (computeCoordinateOffset two_blocks) constructed) in
  is_minimum (vx offset) (map centroid_x two_blocks)
  /\ is_minimum (vy offset) (map centroid_y two_blocks)
  /\ is_minimum (vz offset) (map centroid_z two_blocks)
  /\ Forall (fun block =>
               nonneg (vx (normalized offset block))
               /\ nonneg (vy (normalized offset block))
               /\ nonneg (vz (normalized offset block))) two_blocks.
Proof.
  apply (computeCoordinateOffset_is_minimum two_blocks constructed).
  - discriminate.
  - repeat constructor.
Defined.

(** C2 fails as stated: a row whose centroid-y is not a number is kept (only
    centroid-x and dimension-x are checked), the y of the offset is then
    NaN, and neither [offset <= centroid] nor [centroid - offset >= 0] holds
    on that axis. *)
Lemma computeCoordinateOffset_nan_row :
  exists block,
    eval (parseCSV nan_text) constructed = Normal [block]
    /\ centroid_y block = NaN
    /\ let s := exec (loadData (inr nan_text) "/data/blocks.csv") constructed in
       vy (coordinateOffset s) = NaN
       /\ Num.leb (vy (coordinateOffset s)) (centroid_y block) = false
       /\ Num.geb (vy (normalized (coordinateOffset s) block)) (Finite 0) = false.
Proof. eexists. vm_compute. repeat split; reflexivity. Qed.


(* ===================================================================== *)
(** * The monad *)
(* ===================================================================== *)

Lemma bind_normal {A B} (c : M A) (k : A -> M B) s a s' :
  c s = (Normal a, s') -> bind c k s = k a s'.
Proof. unfold bind. now intros ->. Qed.

Lemma bind_throw {A B} (c : M A) (k : A -> M B) s e s' :
  c s = (Throw e, s') -> bind c k s = (Throw e, s').
Proof. unfold bind. now intros ->. Qed.

Lemma set_materials_id s : set_materials (materials s) s = s.
Proof. now destruct s. Qed.

(* ===================================================================== *)
(** * The clipping controls *)
(* ===================================================================== *)

Lemma forEach_on_mesh f nodes s :
  forEach nodes (on_mesh f) s
  = (Normal tt, set_materials (retarget f nodes (materials s)) s).
Proof.
  revert s. induction nodes as [|node nodes IH]; intros s.
  - cbn. now rewrite set_materials_id.
  - cbn [forEach].
    assert (E : on_mesh f node s
                = (Normal tt,
                   set_materials (retarget f [node] (materials s)) s)).
    { destruct node; cbn; try now rewrite set_materials_id. reflexivity. }
    rewrite (bind_normal _ _ _ _ _ E), IH. reflexivity.
Qed.

Lemma scene_traverse_on_mesh f s :
  scene_traverse (on_mesh f) s
  = (Normal tt, set_materials (retarget f (scene_nodes s) (materials s)) s).
Proof. unfold scene_traverse. cbn. apply forEach_on_mesh. Qed.

Lemma disableClipping_run s : disableClipping s = (Normal tt, disabled s).
Proof.
  unfold disableClipping.
  unfold bind at 1. cbn [modify].
  unfold bind at 1. rewrite scene_traverse_on_mesh.
  reflexivity.
Qed.

Lemma updateClipPlane_run s : updateClipPlane s = (Normal tt, repositioned s).
Proof.
  unfold updateClipPlane, repositioned. cbn.
  destruct (activeClipPlane s) as [active|]; [|reflexivity].
  cbn. destruct (clipPlaneHelpers s active); reflexivity.
Qed.

Lemma setActiveClipPlane_run plane s :
  setActiveClipPlane plane s = (Normal tt, activated plane s).
Proof.
  unfold setActiveClipPlane, activated.
  rewrite (bind_normal _ _ _ _ _ (disableClipping_run s)).
  unfold bind at 1. cbn [modify].
  unfold bind at 1. cbn [get].
  set (s1 := set_activeClipPlane (Some plane) (disabled s)).
  assert (E : (match clipPlaneHelpers s1 plane with
               | None =>
                   helper <- new_PlaneHelper plane ;;
                   modify (fun s => set_clipPlaneHelpers
                     (helper_set plane {| visible := true |} (clipPlaneHelpers s)) s) ;;
                   modify (fun s => set_scene (scene s ++ [helper]) s)
               | Some _ => ret tt
               end)%js s1 = (Normal tt, with_helper plane s1)).
  { unfold with_helper. destruct (clipPlaneHelpers s1 plane); reflexivity. }
  rewrite (bind_normal _ _ _ _ _ E).
  rewrite (bind_normal _ _ _ _ _ (scene_traverse_on_mesh _ _)).
  rewrite (bind_normal _ _ _ _ _ (updateClipPlane_run _)).
  reflexivity.
Qed.

Lemma positionSlider_oninput_run value s :
  positionSlider_oninput value s
  = (Normal tt, repositioned (set_clipPosition (Str.parseFloat value) s)).
Proof.
  unfold positionSlider_oninput. unfold bind. cbn [modify].
  apply updateClipPlane_run.
Qed.

Lemma animate_run s : animate s = (Normal tt, repositioned s).
Proof.
  unfold animate. unfold bind. cbn [get].
  destruct (activeClipPlane s) eqn:E.
  - apply updateClipPlane_run.
  - unfold repositioned. now rewrite E.
Qed.

(* ===================================================================== *)
(** * Objects used as dictionaries *)
(* ===================================================================== *)

Lemma own_set_eq {V} k (v : V) o : Obj.own k (Obj.set k v o) = Some v.
Proof.
  induction o as [|[k' v'] o IH]; cbn.
  - now rewrite String.eqb_refl.
  - destruct (String.eqb k' k) eqn:E; cbn; rewrite E; [reflexivity | exact IH].
Qed.

Lemma set_absent {V} k (v : V) o :
  Obj.own k o = None -> Obj.set k v o = o ++ [(k, v)].
Proof.
  induction o as [|[k' v'] o IH]; cbn; [reflexivity|].
  destruct (String.eqb k' k); [discriminate|].
  intros H. now rewrite IH.
Qed.

Lemma grouped_set k blocksOfType extra o :
  Obj.own k o = Some blocksOfType ->
  grouped (Obj.set k (blocksOfType ++ extra) o) ≡ₚ grouped o ++ extra.
Proof.
  unfold grouped.
  induction o as [|[k' v'] o IH]; cbn; [discriminate|].
  destruct (String.eqb k' k); cbn.
  - intros [= ->]. rewrite <- !app_assoc.
    apply Permutation_app_head, Permutation_app_comm.
  - intros H. rewrite IH by exact H. now rewrite app_assoc.
Qed.

Lemma keys_set k (v : list BlockData) o :
  Obj.inherited k = false -> own_keys_fresh o -> own_keys_fresh (Obj.set k v o).
Proof.
  intros Hk. unfold own_keys_fresh.
  induction 1 as [|[k' v'] o Hkv Ho IH]; cbn.
  - repeat constructor. exact Hk.
  - destruct (String.eqb k' k); constructor; auto.
Qed.

Lemma own_fresh k (blocksOfType : list BlockData) o :
  own_keys_fresh o -> Obj.own k o = Some blocksOfType -> Obj.inherited k = false.
Proof.
  unfold own_keys_fresh.
  induction 1 as [|[k' v'] o Hkv Ho IH]; cbn; [discriminate|].
  destruct (String.eqb_spec k' k) as [<- | _]; [now intros _ | exact IH].
Qed.

(** One round of the grouping: it throws for an inherited label, and
    otherwise files the block under its label. *)
Lemma group_block_run o block :
  own_keys_fresh o ->
  if Obj.inherited (rock block)
  then group_block o block
       = Throw (TypeError "blocksByRock[block.rock].push is not a function")
  else exists o',
         group_block o block = Normal o'
         /\ own_keys_fresh o'
         /\ grouped o' ≡ₚ grouped o ++ [block].
Proof.
  intros Ho. unfold group_block, Obj.get.
  destruct (Obj.own (rock block) o) as [blocksOfType|] eqn:E.
  - rewrite (own_fresh _ _ _ Ho E). rewrite E.
    eexists. split; [reflexivity|]. split.
    + apply keys_set; [|exact Ho]. exact (own_fresh _ _ _ Ho E).
    + now apply grouped_set.
  - destruct (Obj.inherited (rock block)) eqn:I.
    + cbn. rewrite E. reflexivity.
    + cbn. rewrite own_set_eq.
      eexists. split; [reflexivity|]. split.
      * apply keys_set; [exact I|]. apply keys_set; [exact I | exact Ho].
      * rewrite (grouped_set (rock block) [] [block]) by apply own_set_eq.
        rewrite (set_absent _ _ _ E). unfold grouped.
        rewrite map_app, concat_app. cbn. now rewrite !app_nil_r.
Qed.

(** The grouping succeeds when no label is inherited, and then holds the
    blocks it was given. *)
Lemma group_blocks_normal blocks o :
  own_keys_fresh o ->
  Forall (fun block => Obj.inherited (rock block) = false) blocks ->
  exists o',
    group_blocks blocks o = Normal o'
    /\ grouped o' ≡ₚ grouped o ++ blocks.
Proof.
  intros Ho Hb. revert o Ho.
  induction Hb as [|block blocks Hblock _ IH]; intros o Ho; cbn.
  - eexists. split; [reflexivity|]. now rewrite app_nil_r.
  - pose proof (group_block_run o block Ho) as R. rewrite Hblock in R.
    destruct R as (o1 & -> & Ho1 & P1).
    destruct (IH o1 Ho1) as (o' & -> & P').
    eexists. split; [reflexivity|].
    rewrite P', P1, <- app_assoc. reflexivity.
Qed.

(** The grouping throws as soon as one label is inherited. *)
Lemma group_blocks_throw blocks o :
  own_keys_fresh o ->
  Exists (fun block => Obj.inherited (rock block) = true) blocks ->
  group_blocks blocks o
  = Throw (TypeError "blocksByRock[block.rock].push is not a function").
Proof.
  intros Ho Hb. revert o Ho.
  induction blocks as [|block blocks IH]; intros o Ho; cbn.
  - inversion Hb.
  - pose proof (group_block_run o block Ho) as R.
    destruct (Obj.inherited (rock block)) eqn:I.
    + now rewrite R.
    + destruct R as (o1 & -> & Ho1 & _).
      apply IH; [|exact Ho1].
      apply Exists_cons in Hb as [Hb | Hb]; [congruence | exact Hb].
Qed.

Lemma entries_Permutation {V} (o : Obj.t V) : Obj.entries o ≡ₚ o.
Proof.
  unfold Obj.entries. rewrite merge_sort_Permutation.
  unfold Obj.indexed, Obj.named.
  induction o as [|kv o IH]; [reflexivity|].
  cbn. destruct (Obj.array_index (fst kv)) eqn:E; cbn.
  - rewrite decide_False by discriminate. now rewrite IH.
  - rewrite decide_True by reflexivity.
    rewrite <- Permutation_middle. now rewrite IH.
Qed.

Lemma grouped_entries o : grouped (Obj.entries o) ≡ₚ grouped o.
Proof. unfold grouped. now rewrite entries_Permutation. Qed.

(* ===================================================================== *)
(** * The scene builder *)
(* ===================================================================== *)

Lemma cubes_of_replicate offset address blocks :
  cubes_of offset (replicate (length blocks) address) blocks
  = map (make_cube scaleFactor heightScaleFactor offset address) blocks.
Proof.
  unfold cubes_of. induction blocks as [|b blocks IH]; cbn; [reflexivity|].
  now rewrite IH.
Qed.

Lemma fresh_material_absent (store : gmap nat Material) :
  store !! fresh (dom store) = None.
Proof. apply not_elem_of_dom, is_fresh. Qed.

(** The loop over the entries: one fresh material per entry, one cube per
    block, nothing else written but console lines. *)
Lemma add_rock_groups_run colors entries children s :
  exists addresses store lines,
    add_rock_groups colors entries children s
    = (Normal (children ++ cubes_of (coordinateOffset s) addresses (grouped entries)),
       set_console (console s ++ lines) (set_materials store s))
    /\ length addresses = length (grouped entries)
    /\ Forall (fun address => address ∈ dom store) addresses
    /\ materials s ⊆ store.
Proof.
  revert children s.
  induction entries as [|[rockType blocksOfType] entries IH]; intros children s.
  - exists [], (materials s), []. cbn.
    rewrite !app_nil_r. repeat split; auto.
    now destruct s.
  - cbn [add_rock_groups].
    cbv beta iota zeta delta [bind new_material console_log modify get].
    match goal with |- context [add_rock_groups colors entries ?c ?st] =>
      destruct (IH c st) as (addresses & store & lines & -> & L & D & S)
    end.
    cbn [coordinateOffset set_console set_materials materials console] in *.
    set (address := fresh (dom (materials s))) in *.
    exists (replicate (length blocksOfType) address ++ addresses), store.
    exists (Log [AStr "Creating "; AInt (Z.of_nat (length blocksOfType));
                 AStr " "; AStr rockType; AStr " blocks"] :: lines).
    split; [|split; [|split]].
    + unfold grouped at 2. cbn [map concat snd]. fold (grouped entries).
      unfold cubes_of at 2.
      rewrite zip_with_app by apply length_replicate.
      fold (cubes_of (coordinateOffset s) (replicate (length blocksOfType) address) blocksOfType).
      fold (cubes_of (coordinateOffset s) addresses (grouped entries)).
      rewrite cubes_of_replicate, <- !app_assoc.
      unfold set_console, set_materials. cbn.
      reflexivity.
    + unfold grouped. cbn [map concat snd]. fold (grouped entries).
      rewrite !length_app, length_replicate. now rewrite L.
    + apply Forall_app. split; [|exact D].
      apply Forall_replicate.
      apply (subseteq_dom _ _ S), elem_of_dom. rewrite lookup_insert_eq. eauto.
    + etrans; [|exact S]. apply insert_subseteq, fresh_material_absent.
Qed.

(** Reduction of the monad's operations and of the field updates. *)
Ltac run_steps :=
  cbn [bind ret modify get lift throw console_log console_error
       set_scene set_materials set_camera_position set_modelCenter
       set_coordinateOffset set_clipPlanes set_clipPlaneHelpers
       set_activeClipPlane set_clipPosition set_localClippingEnabled
       set_console
       scene materials camera_position modelCenter coordinateOffset
       clipPlanes clipPlaneHelpers activeClipPlane clipPosition
       localClippingEnabled console fst snd].

Tactic Notation "run_steps" "in" hyp(H) :=
  cbn [bind ret modify get lift throw console_log console_error
       set_scene set_materials set_camera_position set_modelCenter
       set_coordinateOffset set_clipPlanes set_clipPlaneHelpers
       set_activeClipPlane set_clipPosition set_localClippingEnabled
       set_console
       scene materials camera_position modelCenter coordinateOffset
       clipPlanes clipPlaneHelpers activeClipPlane clipPosition
       localClippingEnabled console fst snd] in H.

(** [createBlockModel] when the grouping throws: the model centre and
    console lines are written, nothing is built. *)
Lemma createBlockModel_throw blocks s e :
  group_blocks (visibleBlocks_of blocks) [] = Throw e ->
  exists lines,
    createBlockModel blocks s
    = (Throw e,
       set_console (console s ++ lines)
         (set_modelCenter (center_of (coordinateOffset s) blocks) s)).
Proof.
  intros G. unfold createBlockModel, center_of.
  run_steps. rewrite G. run_steps.
  rewrite <- !app_assoc. eexists. reflexivity.
Qed.

Lemma prefix_console (l a : list LogEntry) : l `prefix_of` l ++ a.
Proof. now exists a. Qed.

Ltac console_grows :=
  repeat (apply prefix_app_r); first [reflexivity | apply prefix_console].

(** [createBlockModel] when the grouping succeeds: one group of cubes is
    added to the scene, one cube per grouped block, each with a material of
    the store; the camera is placed over the model centre. *)
Lemma createBlockModel_normal blocks s blocksByRock :
  group_blocks (visibleBlocks_of blocks) [] = Normal blocksByRock ->
  exists addresses store s',
    createBlockModel blocks s = (Normal tt, s')
    /\ scene s'
       = scene s ++ [Group (cubes_of (coordinateOffset s) addresses
                              (grouped (Obj.entries blocksByRock)))]
    /\ materials s' = store
    /\ modelCenter s' = center_of (coordinateOffset s) blocks
    /\ camera_position s' = camera_over (center_of (coordinateOffset s) blocks)
    /\ coordinateOffset s' = coordinateOffset s
    /\ same_controls s s'
    /\ console s `prefix_of` console s'
    /\ length addresses = length (grouped (Obj.entries blocksByRock))
    /\ Forall (fun address => address ∈ dom store) addresses
    /\ materials s ⊆ store.
Proof.
  intros G. unfold createBlockModel, center_of, camera_over.
  run_steps. rewrite G. run_steps.
  match goal with |- context [bind (add_rock_groups ?c ?en ?ch) ?k ?st] =>
    destruct (add_rock_groups_run c en ch st)
      as (addresses & store & lines & E & L & D & S);
    rewrite (bind_normal _ k _ _ _ E)
  end.
  run_steps in S. run_steps.
  exists addresses, store. eexists. split; [reflexivity|].
  run_steps. repeat split; auto. console_grows.
Qed.

(* ===================================================================== *)
(** * loadData *)
(* ===================================================================== *)

(** [loadData] never throws; it leaves the clipping controls alone, only
    adds to the console and to the store of materials, and adds at most one
    group of cubes to the scene. *)
Lemma loadData_run response url s :
  exists s',
    loadData response url s = (Normal tt, s')
    /\ same_controls s s'
    /\ console s `prefix_of` console s'
    /\ materials s ⊆ materials s'
    /\ (scene s' = scene s
        \/ exists offset addresses blocks,
             scene s' = scene s ++ [Group (cubes_of offset addresses blocks)]
             /\ length addresses = length blocks
             /\ Forall (fun address => address ∈ dom (materials s')) addresses).
Proof.
  unfold loadData, try_catch.
  destruct response as [e | text]; run_steps.
  - eexists. split; [reflexivity|]. run_steps.
    repeat split; auto. console_grows.
  - match goal with |- context [bind (parseCSV text) ?k ?st] =>
      destruct (parseCSV_run text st) as [lines E];
      rewrite (bind_normal _ k _ _ _ E)
    end.
    set (data := map _ _) in *. clearbody data. clear E.
    run_steps.
    destruct data as [|block data]; cbn [length Nat.ltb Nat.leb]; run_steps.
    + eexists. split; [reflexivity|]. run_steps.
      repeat split; auto. console_grows.
    + unfold computeCoordinateOffset. run_steps.
      destruct (group_blocks (visibleBlocks_of (block :: data)) []) as [o | e] eqn:G.
      * match goal with |- context [createBlockModel ?b ?st] =>
          destruct (createBlockModel_normal b st o G)
            as (addresses & store & s' & -> & Sc & Ma & _ & _ & _ & Co & Pr & L & D & S)
        end.
        exists s'. split; [reflexivity|].
        run_steps in Sc. run_steps in S. run_steps in Pr.
        destruct Co as (C1 & C2 & C3 & C4 & C5).
        run_steps in C1. run_steps in C2. run_steps in C3.
        run_steps in C4. run_steps in C5.
        repeat split; auto.
        -- etrans; [|exact Pr]. console_grows.
        -- now rewrite Ma.
        -- right. do 3 eexists. split; [exact Sc|]. rewrite Ma. auto.
      * match goal with |- context [createBlockModel ?b ?st] =>
          destruct (createBlockModel_throw b st e G) as [lines' ->]
        end.
        eexists. split; [reflexivity|]. run_steps.
        repeat split; auto. console_grows.
Qed.

(* ===================================================================== *)
(** * The clipping state machine *)
(* ===================================================================== *)

(** The traversal visits the objects of the graph, and only them. *)
Lemma below_descendants node o : below node o <-> node ∈ descendants o.
Proof.
  split.
  - induction 1 as [|child children Hin _ IH|plane child children Hin _ IH].
    + destruct node; cbn; left.
    + cbn. right. apply list_elem_of_In, in_flat_map.
      exists child. split; now apply list_elem_of_In.
    + cbn. right. apply list_elem_of_In, in_flat_map.
      exists child. split; now apply list_elem_of_In.
  - revert node. induction o as [g address p|children IH|plane children IH|o E]
      using Object3D_graph_ind; intros node H.
    + cbn in H. apply list_elem_of_singleton in H as ->. constructor.
    + cbn in H. apply elem_of_cons in H as [-> | H]; [constructor|].
      apply list_elem_of_In, in_flat_map in H as (child & Hin & H).
      apply list_elem_of_In in Hin, H. rewrite Forall_forall in IH.
      apply (below_group node child); auto.
    + cbn in H. apply elem_of_cons in H as [-> | H]; [constructor|].
      apply list_elem_of_In, in_flat_map in H as (child & Hin & H).
      apply list_elem_of_In in Hin, H. rewrite Forall_forall in IH.
      apply (below_helper node plane child); auto.
    + rewrite E in H. apply list_elem_of_singleton in H as ->. constructor.
Qed.

Lemma in_scene_nodes node s : in_scene node s <-> node ∈ scene_nodes s.
Proof.
  unfold in_scene, scene_nodes. split.
  - intros (root & Hin & H). apply list_elem_of_In, in_flat_map.
    exists root. split; apply list_elem_of_In; [exact Hin|].
    now apply below_descendants.
  - intros H. apply list_elem_of_In, in_flat_map in H as (root & Hin & H).
    apply list_elem_of_In in Hin, H.
    exists root. split; [exact Hin | now apply below_descendants].
Qed.

Lemma descendants_helper plane face :
  descendants (helper_of plane face)
  = [helper_of plane face; Mesh Square face origin].
Proof. reflexivity. Qed.

Lemma retarget_dom f nodes store : dom (retarget f nodes store) = dom store.
Proof.
  unfold retarget. revert store.
  induction nodes as [|node nodes IH]; intros store; cbn; [reflexivity|].
  rewrite IH. destruct node; try reflexivity. apply dom_alter_L.
Qed.

(** A property every [f m] has, and which [f] keeps, holds of the material
    of every visited mesh. *)
Lemma retarget_keeps (P : Material -> Prop) f nodes store address :
  (forall m, P (f m)) ->
  (forall m, store !! address = Some m -> P m) ->
  forall m, retarget f nodes store !! address = Some m -> P m.
Proof.
  intros Hf. unfold retarget. revert store.
  induction nodes as [|node nodes IH]; intros store Hs; cbn; [exact Hs|].
  apply IH. destruct node; try exact Hs.
  intros m. rewrite lookup_alter. case_decide; [subst|apply Hs].
  destruct (store !! address); cbn; [|discriminate].
  intros [= <-]. apply Hf.
Qed.

Lemma retarget_visited (P : Material -> Prop) f nodes store g address p :
  (forall m, P (f m)) ->
  Mesh g address p ∈ nodes ->
  forall m, retarget f nodes store !! address = Some m -> P m.
Proof.
  intros Hf. unfold retarget. revert store.
  induction nodes as [|node nodes IH]; intros store Hin; [inversion Hin|].
  apply elem_of_cons in Hin as [<- | Hin]; cbn.
  - apply (retarget_keeps P f nodes _ address Hf).
    intros m. rewrite lookup_alter_eq.
    destruct (store !! address); cbn; [|discriminate].
    intros [= <-]. apply Hf.
  - now apply IH.
Qed.

Lemma repositioned_frame s :
  scene (repositioned s) = scene s
  /\ materials (repositioned s) = materials s
  /\ activeClipPlane (repositioned s) = activeClipPlane s
  /\ localClippingEnabled (repositioned s) = localClippingEnabled s
  /\ clipPosition (repositioned s) = clipPosition s.
Proof.
  unfold repositioned.
  destruct (activeClipPlane s) as [active|] eqn:E; [|now rewrite E].
  destruct (clipPlaneHelpers s active); cbn; now rewrite E.
Qed.

Lemma plane_get_set p v planes : plane_get p (plane_set p v planes) = v.
Proof. now destruct p. Qed.

Lemma plane_get_set_other p q v planes :
  p <> q -> plane_get q (plane_set p v planes) = plane_get q planes.
Proof. destruct p, q; intros H; try reflexivity; congruence. Qed.

Lemma repositioned_active_plane s p :
  activeClipPlane s = Some p ->
  plane_position p (repositioned s) = Num.neg (clipPosition s).
Proof.
  intros E. unfold repositioned, plane_position. rewrite E.
  destruct (clipPlaneHelpers s p); cbn; now rewrite plane_get_set.
Qed.

Lemma repositioned_inactive s : activeClipPlane s = None -> repositioned s = s.
Proof. intros E. unfold repositioned. now rewrite E. Qed.

Lemma with_helper_frame plane s :
  activeClipPlane (with_helper plane s) = activeClipPlane s
  /\ clipPosition (with_helper plane s) = clipPosition s
  /\ (scene (with_helper plane s) = scene s
      /\ materials (with_helper plane s) = materials s
      \/ scene (with_helper plane s)
         = scene s ++ [helper_of plane (fresh (dom (materials s)))]
         /\ materials (with_helper plane s)
            = <[fresh (dom (materials s)) := fresh_material helper_red]>
                (materials s)).
Proof.
  unfold with_helper. destruct (clipPlaneHelpers s plane); cbn; auto.
Qed.

Lemma activated_state plane s :
  activeClipPlane (activated plane s) = Some plane
  /\ localClippingEnabled (activated plane s) = true
  /\ clipPosition (activated plane s) = clipPosition s.
Proof.
  unfold activated.
  set (chosen := with_helper plane _).
  set (marked := set_materials _ chosen).
  destruct (repositioned_frame marked) as (_ & _ & A & _ & C).
  destruct (with_helper_frame plane (set_activeClipPlane (Some plane) (disabled s)))
    as (A' & C' & _).
  cbn [activeClipPlane localClippingEnabled clipPosition set_localClippingEnabled].
  rewrite A, C. subst marked chosen.
  cbn [activeClipPlane clipPosition set_materials].
  rewrite A', C'. auto.
Qed.

Lemma exec_handle event s :
  exec (handle event) s
  = match event with
    | SelectPlane p => activated p s
    | Disable => disabled s
    | SetOffset value => repositioned (set_clipPosition (Str.parseFloat value) s)
    | Frame => repositioned s
    | Loaded response url => exec (loadData response url) s
    end.
Proof.
  unfold exec. destruct event; cbn [handle].
  - now rewrite setActiveClipPlane_run.
  - now rewrite disableClipping_run.
  - now rewrite positionSlider_oninput_run.
  - now rewrite animate_run.
  - reflexivity.
Qed.

Lemma run_snoc events event s :
  run (events ++ [event]) s = exec (handle event) (run events s).
Proof. unfold run. now rewrite fold_left_app. Qed.

(** Every handler keeps the renderer flag in step with the active plane. *)
Lemma handle_clip_consistent event s :
  clip_consistent s -> clip_consistent (exec (handle event) s).
Proof.
  unfold clip_consistent. intros H. rewrite exec_handle.
  destruct event as [p | | value | | response url].
  - destruct (activated_state p s) as (-> & -> & _). easy.
  - cbn. easy.
  - destruct (repositioned_frame (set_clipPosition (Str.parseFloat value) s))
      as (_ & _ & -> & -> & _). exact H.
  - destruct (repositioned_frame s) as (_ & _ & -> & -> & _). exact H.
  - unfold exec.
    destruct (loadData_run response url s)
      as (s' & -> & (_ & _ & A & _ & F) & _).
    cbn [snd]. now rewrite A, F.
Qed.

Lemma run_clip_consistent events s :
  clip_consistent s -> clip_consistent (run events s).
Proof.
  intros H. induction events as [|event events IH] using rev_ind; [exact H|].
  rewrite run_snoc. now apply handle_clip_consistent.
Qed.

Lemma scene_nodes_snoc nodes node :
  flat_map descendants (nodes ++ [node])
  = flat_map descendants nodes ++ descendants node.
Proof. rewrite flat_map_app. cbn. now rewrite app_nil_r. Qed.

Lemma descendants_cubes offset addresses blocks :
  flat_map descendants (cubes_of offset addresses blocks)
  = cubes_of offset addresses blocks.
Proof.
  unfold cubes_of. revert blocks.
  induction addresses as [|a addresses IH]; intros [|b blocks]; cbn;
    try reflexivity.
  now rewrite IH.
Qed.

Lemma mesh_of_cubes offset addresses blocks g address p :
  Mesh g address p ∈ cubes_of offset addresses blocks -> address ∈ addresses.
Proof.
  unfold cubes_of. intros H.
  apply elem_of_zip_with in H as (a & b & E & Ha & _).
  unfold make_cube in E. now injection E as _ -> _.
Qed.

Lemma disabled_state s :
  scene (disabled s) = scene s
  /\ materials (disabled s) = retarget clear_planes (scene_nodes s) (materials s)
  /\ activeClipPlane (disabled s) = None
  /\ localClippingEnabled (disabled s) = false
  /\ clipPosition (disabled s) = clipPosition s
  /\ clipPlanes (disabled s) = clipPlanes s.
Proof. now cbn. Qed.

(** [setActiveClipPlane] leaves the scene and the addresses of the store as
    they are, or adds a helper and the material of its face. *)
Lemma activated_scene plane s :
  (scene (activated plane s) = scene s
   /\ dom (materials (activated plane s)) = dom (materials s))
  \/ (exists face,
        scene (activated plane s) = scene s ++ [helper_of plane face]
        /\ dom (materials (activated plane s)) = {[face]} ∪ dom (materials s)).
Proof.
  unfold activated.
  set (chosen := with_helper plane _).
  set (marked := set_materials _ chosen).
  destruct (repositioned_frame marked) as (Sc & Ma & _).
  destruct (with_helper_frame plane (set_activeClipPlane (Some plane) (disabled s)))
    as (_ & _ & [(Sc' & Ma') | (Sc' & Ma')]).
  - left. cbn [scene materials set_localClippingEnabled].
    rewrite Sc, Ma. subst marked. cbn [scene materials set_materials].
    rewrite retarget_dom. subst chosen. rewrite Sc', Ma'.
    split; [reflexivity|].
    change (materials (set_activeClipPlane (Some plane) (disabled s)))
      with (retarget clear_planes (scene_nodes s) (materials s)).
    apply retarget_dom.
  - right. eexists. cbn [scene materials set_localClippingEnabled].
    rewrite Sc, Ma. subst marked. cbn [scene materials set_materials].
    rewrite retarget_dom. subst chosen. rewrite Sc', Ma'.
    split; [reflexivity|].
    rewrite dom_insert_L.
    change (materials (set_activeClipPlane (Some plane) (disabled s)))
      with (retarget clear_planes (scene_nodes s) (materials s)).
    now rewrite retarget_dom.
Qed.

(** Every handler keeps the materials of the meshes in the store. *)
Lemma handle_materials_present event s :
  materials_present s -> materials_present (exec (handle event) s).
Proof.
  unfold materials_present. setoid_rewrite in_scene_nodes.
  unfold scene_nodes. intros H g address p.
  rewrite exec_handle.
  destruct event as [plane | | value | | response url].
  - destruct (activated_scene plane s) as [(-> & ->) | (face & -> & ->)];
      [apply H|].
    rewrite scene_nodes_snoc, descendants_helper.
    rewrite elem_of_app, !elem_of_cons, elem_of_nil, elem_of_union,
      elem_of_singleton.
    intros [Hin | [Hin | [Hin | []]]].
    + right. now apply (H g address p).
    + discriminate.
    + left. now injection Hin.
  - cbn [scene materials disabled set_localClippingEnabled set_activeClipPlane
         set_materials set_clipPlaneHelpers].
    rewrite retarget_dom. apply H.
  - destruct (repositioned_frame (set_clipPosition (Str.parseFloat value) s))
      as (-> & -> & _). apply H.
  - destruct (repositioned_frame s) as (-> & -> & _). apply H.
  - unfold exec.
    destruct (loadData_run response url s)
      as (s' & -> & _ & _ & Sub & Sc).
    cbn [snd]. apply subseteq_dom in Sub.
    destruct Sc as [-> | (offset & addresses & blocks & -> & _ & D)].
    + intros Hin. apply Sub. now apply (H g address p).
    + rewrite scene_nodes_snoc. cbn [descendants].
      rewrite descendants_cubes, elem_of_app, elem_of_cons.
      intros [Hin | [Hin | Hin]].
      * apply Sub. now apply (H g address p).
      * discriminate.
      * rewrite Forall_forall in D. apply D.
        now apply (mesh_of_cubes offset addresses blocks g address p).
Qed.

Lemma run_materials_present events s :
  materials_present s -> materials_present (run events s).
Proof.
  intros H. induction events as [|event events IH] using rev_ind; [exact H|].
  rewrite run_snoc. now apply handle_materials_present.
Qed.

Lemma constructed_materials_present : materials_present constructed.
Proof.
  intros g address p. rewrite in_scene_nodes. unfold scene_nodes. cbn.
  rewrite !elem_of_cons, elem_of_nil. intuition discriminate.
Qed.

Lemma disabled_no_planes s g address p m :
  Mesh g address p ∈ scene_nodes (disabled s) ->
  materials (disabled s) !! address = Some m ->
  clippingPlanes m = [].
Proof.
  change (scene_nodes (disabled s)) with (scene_nodes s).
  change (materials (disabled s))
    with (retarget clear_planes (scene_nodes s) (materials s)).
  intros Hin.
  now apply (retarget_visited (fun m => clippingPlanes m = [])
               clear_planes (scene_nodes s) (materials s) g address p).
Qed.

Lemma disabled_no_mesh_clipped s :
  materials_present s -> no_mesh_clipped (disabled s).
Proof.
  intros H g address p Hin.
  assert (D : address ∈ dom (materials (disabled s))).
  { change (materials (disabled s))
      with (retarget clear_planes (scene_nodes s) (materials s)).
    rewrite retarget_dom. now apply (H g address p). }
  apply elem_of_dom in D as [m Hm].
  exists m. split; [exact Hm|].
  apply in_scene_nodes in Hin. now apply (disabled_no_planes s g address p).
Qed.

Lemma mesh_addresses_elem nodes address :
  address ∈ mesh_addresses nodes <-> exists g p, Mesh g address p ∈ nodes.
Proof.
  unfold mesh_addresses. rewrite list_elem_of_omap. split.
  - intros (node & Hin & E). destruct node; try discriminate.
    injection E as ->. eauto.
  - intros (g & p & Hin). exists (Mesh g address p). auto.
Qed.

(** What a traversal with an idempotent write leaves in the store. *)
Lemma retarget_lookup f nodes store address :
  (forall m, f (f m) = f m) ->
  retarget f nodes store !! address
  = if decide (address ∈ mesh_addresses nodes)
    then f <$> store !! address
    else store !! address.
Proof.
  intros Hf. unfold retarget. revert store.
  induction nodes as [|node nodes IH]; intros store.
  - cbn. rewrite decide_False; [reflexivity | apply not_elem_of_nil].
  - cbn [fold_left]. rewrite IH. clear IH.
    destruct node as [g a p | | | | | | |];
      try (change (mesh_addresses (?n :: nodes)) with (mesh_addresses nodes);
           reflexivity).
    change (mesh_addresses (Mesh g a p :: nodes)) with (a :: mesh_addresses nodes).
    destruct (decide (a = address)) as [-> | Hne].
    + rewrite lookup_alter_eq.
      rewrite (decide_True (P := address ∈ address :: _)) by constructor.
      destruct (store !! address) as [m|]; cbn; [|now case_decide].
      rewrite Hf. now case_decide.
    + rewrite lookup_alter_ne by exact Hne.
      destruct (decide (address ∈ mesh_addresses nodes)) as [Hin | Hnin].
      * rewrite decide_True; [reflexivity | now constructor].
      * rewrite decide_False; [reflexivity|].
        rewrite not_elem_of_cons. split; [congruence | exact Hnin].
Qed.

Lemma clear_planes_idem m : clear_planes (clear_planes m) = clear_planes m.
Proof. reflexivity. Qed.

Lemma assign_plane_idem p m : assign_plane p (assign_plane p m) = assign_plane p m.
Proof. reflexivity. Qed.

Lemma assign_clear p m : assign_plane p (clear_planes m) = assign_plane p m.
Proof. reflexivity. Qed.

(** The store [setActiveClipPlane] leaves: the materials of the meshes get
    the plane, the others are as they were. *)
Lemma retarget_assign_clear p nodes store :
  retarget (assign_plane p) nodes (retarget clear_planes nodes store)
  = retarget (assign_plane p) nodes store.
Proof.
  apply map_eq. intros address.
  rewrite !(retarget_lookup (assign_plane p)) by apply assign_plane_idem.
  rewrite (retarget_lookup clear_planes) by apply clear_planes_idem.
  case_decide; [|reflexivity].
  now destruct (store !! address).
Qed.

Lemma retarget_idem f nodes store :
  (forall m, f (f m) = f m) ->
  retarget f nodes (retarget f nodes store) = retarget f nodes store.
Proof.
  intros Hf. apply map_eq. intros address.
  rewrite !(retarget_lookup f) by exact Hf.
  case_decide; [|reflexivity].
  destruct (store !! address); cbn; [now rewrite Hf | reflexivity].
Qed.

Lemma mesh_addresses_snoc_helper nodes plane face :
  mesh_addresses (nodes ++ descendants (helper_of plane face))
  = mesh_addresses nodes ++ [face].
Proof. unfold mesh_addresses. now rewrite omap_app. Qed.

Lemma retarget_addresses f nodes nodes' store :
  (forall m, f (f m) = f m) ->
  mesh_addresses nodes = mesh_addresses nodes' ->
  retarget f nodes store = retarget f nodes' store.
Proof.
  intros Hf E. apply map_eq. intros address.
  rewrite !(retarget_lookup f) by exact Hf. now rewrite E.
Qed.

Ltac activated_cases q s :=
  unfold activated, repositioned, with_helper, disabled, helper_set, scene_nodes;
  destruct (clipPlaneHelpers s q) as [h|] eqn:Eh;
  repeat (progress (run_steps; rewrite ?Eh; rewrite ?decide_True by reflexivity;
                    cbn [fmap option_fmap option_map])).

Lemma activated_helpers q s r :
  clipPlaneHelpers (activated q s) r
  = if decide (r = q) then Some {| visible := true |}
    else hide <$> clipPlaneHelpers s r.
Proof.
  activated_cases q s; destruct (decide (r = q)) as [-> | Hne]; reflexivity.
Qed.

Lemma activated_scene_exact q s :
  scene (activated q s)
  = match clipPlaneHelpers s q with
    | Some _ => scene s
    | None => scene s ++ [helper_of q (fresh (dom (materials s)))]
    end.
Proof. activated_cases q s; [reflexivity|]. now rewrite retarget_dom. Qed.

Lemma activated_planes q s :
  clipPlanes (activated q s)
  = plane_set q
      {| normal := normal (plane_get q (clipPlanes s));
         constant := Num.neg (clipPosition s) |}
      (clipPlanes s).
Proof. activated_cases q s; reflexivity. Qed.

Lemma activated_rest q s :
  camera_position (activated q s) = camera_position s
  /\ modelCenter (activated q s) = modelCenter s
  /\ coordinateOffset (activated q s) = coordinateOffset s
  /\ console (activated q s) = console s.
Proof. activated_cases q s; repeat split. Qed.

(** The store [setActiveClipPlane] leaves: the materials of the meshes
    hold the plane, and so does the new material of the face of a helper
    made by the call. *)
Lemma activated_materials q s :
  materials (activated q s)
  = match clipPlaneHelpers s q with
    | Some _ => retarget (assign_plane q) (scene_nodes s) (materials s)
    | None =>
        <[fresh (dom (materials s)) := assign_plane q (fresh_material helper_red)]>
          (retarget (assign_plane q) (scene_nodes s) (materials s))
    end.
Proof.
  activated_cases q s.
  - apply retarget_assign_clear.
  - rewrite retarget_dom. set (face := fresh (dom (materials s))).
    apply map_eq. intros address.
    rewrite (retarget_lookup (assign_plane q)) by apply assign_plane_idem.
    rewrite scene_nodes_snoc, mesh_addresses_snoc_helper.
    destruct (decide (address = face)) as [-> | Hne].
    + rewrite !lookup_insert_eq.
      rewrite decide_True; [reflexivity|].
      apply elem_of_app. right. constructor.
    + rewrite !lookup_insert_ne by congruence.
      rewrite (retarget_lookup (assign_plane q)) by apply assign_plane_idem.
      rewrite (retarget_lookup clear_planes) by apply clear_planes_idem.
      destruct (decide (address ∈ mesh_addresses (flat_map descendants (scene s))))
        as [Hin | Hnin].
      * rewrite decide_True by (apply elem_of_app; now left).
        now destruct (materials s !! address).
      * rewrite decide_False; [reflexivity|].
        rewrite elem_of_app, list_elem_of_singleton. intuition.
Qed.

Lemma scene_nodes_activated q s :
  scene_nodes (activated q s)
  = match clipPlaneHelpers s q with
    | Some _ => scene_nodes s
    | None =>
        scene_nodes s
        ++ [helper_of q (fresh (dom (materials s)));
            Mesh Square (fresh (dom (materials s))) origin]
    end.
Proof.
  unfold scene_nodes. rewrite activated_scene_exact.
  destruct (clipPlaneHelpers s q); [reflexivity|].
  now rewrite scene_nodes_snoc, descendants_helper.
Qed.

Lemma mesh_addresses_activated q s :
  mesh_addresses (scene_nodes (activated q s))
  = match clipPlaneHelpers s q with
    | Some _ => mesh_addresses (scene_nodes s)
    | None => mesh_addresses (scene_nodes s) ++ [fresh (dom (materials s))]
    end.
Proof.
  rewrite scene_nodes_activated.
  destruct (clipPlaneHelpers s q); [reflexivity|].
  apply (mesh_addresses_snoc_helper _ q).
Qed.

(** After [setActiveClipPlane q] the material of every mesh of the scene,
    the face of the helper included, holds the plane [q] alone. *)
Lemma activated_mesh_planes q s g address p m :
  Mesh g address p ∈ scene_nodes (activated q s) ->
  materials (activated q s) !! address = Some m ->
  clippingPlanes m = [q] /\ clipIntersection m = false.
Proof.
  rewrite scene_nodes_activated, activated_materials.
  destruct (clipPlaneHelpers s q) as [h|].
  - intros Hin Hm.
    exact (retarget_visited
             (fun m => clippingPlanes m = [q] /\ clipIntersection m = false)
             (assign_plane q) (scene_nodes s) (materials s) g address p
             (fun m => conj eq_refl eq_refl) Hin m Hm).
  - set (face := fresh (dom (materials s))).
    destruct (decide (address = face)) as [-> | Hne].
    + rewrite lookup_insert_eq. intros _ [= <-]. now split.
    + rewrite lookup_insert_ne by congruence.
      rewrite elem_of_app, !elem_of_cons, elem_of_nil.
      intros [Hin | [Hin | [Hin | []]]] Hm.
      * exact (retarget_visited
                 (fun m => clippingPlanes m = [q] /\ clipIntersection m = false)
                 (assign_plane q) (scene_nodes s) (materials s) g address p
                 (fun m => conj eq_refl eq_refl) Hin m Hm).
      * discriminate.
      * injection Hin as _ E. congruence.
Qed.


Lemma plane_set_set p v v' planes :
  plane_set p v (plane_set p v' planes) = plane_set p v planes.
Proof. now destruct p. Qed.

Lemma hide_hide (o : option PlaneHelperState) : hide <$> (hide <$> o) = hide <$> o.
Proof. now destruct o. Qed.

Lemma repositioned_helpers s r :
  clipPlaneHelpers (repositioned s) r
  = match activeClipPlane s with
    | Some p => if decide (r = p) then show <$> clipPlaneHelpers s p
                else clipPlaneHelpers s r
    | None => clipPlaneHelpers s r
    end.
Proof.
  unfold repositioned, helper_set.
  destruct (activeClipPlane s) as [p|]; [|reflexivity].
  destruct (clipPlaneHelpers s p) as [h|] eqn:E; cbn.
  - now destruct (decide (r = p)).
  - destruct (decide (r = p)) as [-> | _]; [exact E | reflexivity].
Qed.

Lemma repositioned_planes s :
  clipPlanes (repositioned s)
  = match activeClipPlane s with
    | Some p =>
        plane_set p
          {| normal := normal (plane_get p (clipPlanes s));
             constant := Num.neg (clipPosition s) |}
          (clipPlanes s)
    | None => clipPlanes s
    end.
Proof.
  unfold repositioned.
  destruct (activeClipPlane s) as [p|]; [|reflexivity].
  now destruct (clipPlaneHelpers s p).
Qed.

Lemma repositioned_rest s :
  camera_position (repositioned s) = camera_position s
  /\ modelCenter (repositioned s) = modelCenter s
  /\ coordinateOffset (repositioned s) = coordinateOffset s
  /\ console (repositioned s) = console s.
Proof.
  unfold repositioned.
  destruct (activeClipPlane s) as [p|]; [|auto].
  now destruct (clipPlaneHelpers s p).
Qed.

(** After [setActiveClipPlane q] a second assignment of [q] changes the
    material of no mesh. *)
Lemma activated_fixed q s address :
  address ∈ mesh_addresses (scene_nodes (activated q s)) ->
  assign_plane q <$> materials (activated q s) !! address
  = materials (activated q s) !! address.
Proof.
  rewrite mesh_addresses_activated, activated_materials.
  destruct (clipPlaneHelpers s q) as [h|].
  - intros Hin.
    rewrite (retarget_lookup (assign_plane q)) by apply assign_plane_idem.
    rewrite decide_True by exact Hin. now destruct (materials s !! address).
  - set (face := fresh (dom (materials s))).
    destruct (decide (address = face)) as [-> | Hne].
    + now rewrite lookup_insert_eq.
    + rewrite lookup_insert_ne by congruence.
      rewrite elem_of_app, list_elem_of_singleton.
      intros [Hin | Hin]; [|congruence].
      rewrite (retarget_lookup (assign_plane q)) by apply assign_plane_idem.
      rewrite decide_True by exact Hin. now destruct (materials s !! address).
Qed.

Lemma scene_grows event s : scene s `prefix_of` scene (exec (handle event) s).
Proof.
  rewrite exec_handle.
  destruct event as [plane | | value | | response url].
  - rewrite activated_scene_exact. destruct (clipPlaneHelpers s plane).
    + reflexivity.
    + now apply prefix_app_r.
  - reflexivity.
  - now destruct (repositioned_frame (set_clipPosition (Str.parseFloat value) s))
      as (-> & _).
  - now destruct (repositioned_frame s) as (-> & _).
  - unfold exec.
    destruct (loadData_run response url s) as (s' & -> & _ & _ & _ & Sc).
    cbn [snd].
    destruct Sc as [-> | (offset & addresses & blocks & -> & _)];
      [reflexivity | now apply prefix_app_r].
Qed.

(** A helper, once made, is kept by every handler. *)
Lemma handle_keeps_helpers event s r :
  is_Some (clipPlaneHelpers s r) ->
  is_Some (clipPlaneHelpers (exec (handle event) s) r).
Proof.
  intros H. rewrite exec_handle.
  destruct event as [plane | | value | | response url].
  - rewrite activated_helpers. case_decide; [eauto|].
    destruct H as [h ->]. cbn. eauto.
  - destruct H as [h H]. cbn. rewrite H. cbn. eauto.
  - rewrite repositioned_helpers.
    change (activeClipPlane (set_clipPosition _ s)) with (activeClipPlane s).
    change (clipPlaneHelpers (set_clipPosition _ s)) with (clipPlaneHelpers s).
    destruct (activeClipPlane s) as [p|]; [|exact H].
    case_decide; [subst|exact H]. destruct H as [h ->]. cbn. eauto.
  - rewrite repositioned_helpers.
    destruct (activeClipPlane s) as [p|]; [|exact H].
    case_decide; [subst|exact H]. destruct H as [h ->]. cbn. eauto.
  - unfold exec.
    destruct (loadData_run response url s) as (s' & E & (_ & Eh & _) & _).
    rewrite E. cbn [snd]. now rewrite Eh.
Qed.

(** A helper the application holds was there before, or was made by the
    selection of its plane. *)
Lemma helper_origin event s r :
  is_Some (clipPlaneHelpers (exec (handle event) s) r) ->
  is_Some (clipPlaneHelpers s r)
  \/ event = SelectPlane r /\ clipPlaneHelpers s r = None.
Proof.
  rewrite exec_handle.
  assert (U : forall (f : PlaneHelperState -> PlaneHelperState) o,
                is_Some (f <$> o) -> is_Some o).
  { intros f [h|] [h' E]; [eauto | discriminate]. }
  destruct event as [plane | | value | | response url].
  - rewrite activated_helpers. case_decide as E.
    + subst r. intros _. destruct (clipPlaneHelpers s plane); eauto.
    + intros Hr. left. exact (U _ _ Hr).
  - intros Hr. left. exact (U hide _ Hr).
  - rewrite repositioned_helpers.
    change (activeClipPlane (set_clipPosition _ s)) with (activeClipPlane s).
    change (clipPlaneHelpers (set_clipPosition _ s)) with (clipPlaneHelpers s).
    destruct (activeClipPlane s) as [p|]; [|now left].
    case_decide; [subst|now left]. intros Hr. left. exact (U _ _ Hr).
  - rewrite repositioned_helpers.
    destruct (activeClipPlane s) as [p|]; [|now left].
    case_decide; [subst|now left]. intros Hr. left. exact (U _ _ Hr).
  - unfold exec.
    destruct (loadData_run response url s) as (s' & E & (_ & Eh & _) & _).
    rewrite E. cbn [snd]. rewrite Eh. now left.
Qed.

Lemma handle_helpers_in_scene event s :
  helpers_in_scene s -> helpers_in_scene (exec (handle event) s).
Proof.
  intros H r Hr.
  destruct (helper_origin event s r Hr) as [Hs | (-> & Hn)].
  - destruct (H r Hs) as (face & Hin). exists face.
    destruct (scene_grows event s) as (rest & ->).
    apply elem_of_app. now left.
  - rewrite exec_handle, activated_scene_exact, Hn. eexists.
    apply elem_of_app. right. constructor.
Qed.

Lemma run_helpers_in_scene events s :
  helpers_in_scene s -> helpers_in_scene (run events s).
Proof.
  intros H. induction events as [|event events IH] using rev_ind; [exact H|].
  rewrite run_snoc. now apply handle_helpers_in_scene.
Qed.

Lemma constructed_helpers_in_scene : helpers_in_scene constructed.
Proof. intros r [h Hr]. discriminate. Qed.

(** Once a plane has been selected its helper is there, and the mesh of
    its face is in the scene. *)
Lemma selected_helper_mesh events p s :
  helpers_in_scene s ->
  SelectPlane p ∈ events ->
  exists face, in_scene (Mesh Square face origin) (run events s).
Proof.
  intros H0 Hin.
  assert (Hp : is_Some (clipPlaneHelpers (run events s) p)).
  { induction events as [|event events IH] using rev_ind; [inversion Hin|].
    rewrite run_snoc.
    apply elem_of_app in Hin as [Hin | Hin].
    - apply handle_keeps_helpers. now apply IH.
    - apply list_elem_of_singleton in Hin as <-.
      rewrite exec_handle, activated_helpers, decide_True by reflexivity. eauto. }
  destruct (run_helpers_in_scene events s H0 p Hp) as (face & Hf).
  exists face, (helper_of p face). split; [exact Hf|].
  apply (below_helper _ p (Mesh Square face origin)); constructor.
Qed.

(** C3: after any sequence of plane selections, slider moves, disablings,
    animation frames and data arrivals, starting from the constructed
    application, the renderer's clipping flag is set if and only if a plane
    is active; [disableClipping], from any state whatever, leaves the flag
    unset, no plane active and no clip plane on the material of any mesh of
    the scene graph, the faces of the plane helpers included; in every
    state the application reaches each mesh has such a material; and there
    are such meshes as soon as a plane has been selected: the face of its
    helper stays in the scene. *)
Theorem clipping_flag_follows_state :
  (forall events, clip_consistent (run events constructed))
  /\ (forall s,
        let s' := exec disableClipping s in
        localClippingEnabled s' = false
        /\ activeClipPlane s' = None
        /\ forall g address p m,
             in_scene (Mesh g address p) s' ->
             materials s' !! address = Some m ->
             clippingPlanes m = [])
  /\ (forall events,
        no_mesh_clipped (exec disableClipping (run events constructed)))
  /\ (forall events p,
        SelectPlane p ∈ events ->
        exists face,
          in_scene (Mesh Square face origin)
                   (exec disableClipping (run events constructed))).
Proof.
  split; [|split; [|split]].
  - intros events. apply run_clip_consistent. unfold clip_consistent. now cbn.
  - intros s. unfold exec. rewrite disableClipping_run. cbn [snd].
    split; [reflexivity|]. split; [reflexivity|].
    intros g address p m Hin. apply in_scene_nodes in Hin. revert Hin.
    apply disabled_no_planes.
  - intros events. unfold exec. rewrite disableClipping_run. cbn [snd].
    apply disabled_no_mesh_clipped, run_materials_present,
      constructed_materials_present.
  - intros events p Hin.
    change (exec disableClipping (run events constructed))
      with (exec (handle Disable) (run events constructed)).
    rewrite <- run_snoc.
    apply (selected_helper_mesh _ p); [apply constructed_helpers_in_scene|].
    apply elem_of_app. now left.
Qed.

Lemma moved_active_plane s p v :
  activeClipPlane s = Some p ->
  plane_position p (repositioned (set_clipPosition v s)) = Num.neg v.
Proof.
  intros A. rewrite (repositioned_active_plane _ p); [reflexivity | exact A].
Qed.

(** C4: after a plane is selected and the slider is moved, the stored
    position of that plane is the negation of the value of the slider,
    whatever the state before; selecting "xy" and moving the slider to 150
    stores -150. *)
Theorem slider_value_is_negated :
  (forall s p value,
     plane_position p (run [SelectPlane p; SetOffset value] s)
     = Num.neg (Str.parseFloat value))
  /\ plane_position XY (run [SelectPlane XY; SetOffset "150"] constructed)
     = Finite (-150).
Proof.
  assert (G : forall s p value,
     plane_position p (run [SelectPlane p; SetOffset value] s)
     = Num.neg (Str.parseFloat value)).
  { intros s p value. unfold run. cbn [fold_left]. rewrite !exec_handle.
    destruct (activated_state p s) as (A & _).
    now apply moved_active_plane. }
  split; [exact G|]. rewrite G. vm_compute. reflexivity.
Qed.

(** C9: while no plane is active a move of the slider changes no clip
    plane, no material, no part of the scene, no helper and not the
    renderer flag; yet the move is not ignored: the value is remembered in
    [clipPosition], and the next selection of a plane puts that plane at
    minus the value. *)
Theorem slider_ignored_while_inactive s value :
  activeClipPlane s = None ->
  let s' := exec (positionSlider_oninput value) s in
  eval (positionSlider_oninput value) s = Normal tt
  /\ clipPlanes s' = clipPlanes s
  /\ (forall p, plane_position p s' = plane_position p s)
  /\ materials s' = materials s
  /\ scene s' = scene s
  /\ clipPlaneHelpers s' = clipPlaneHelpers s
  /\ localClippingEnabled s' = localClippingEnabled s
  /\ activeClipPlane s' = None
  /\ clipPosition s' = Str.parseFloat value
  /\ (forall q,
        plane_position q (exec (setActiveClipPlane q) s')
        = Num.neg (Str.parseFloat value)).
Proof.
  intros E. unfold exec, eval. rewrite positionSlider_oninput_run.
  cbn [fst snd]. rewrite repositioned_inactive by exact E.
  cbn. repeat split; auto.
  intros q. rewrite setActiveClipPlane_run. cbn [snd].
  unfold plane_position. rewrite activated_planes.
  now rewrite plane_get_set.
Qed.

Lemma slider_ignored_while_inactive_witness :
  let s' := exec (positionSlider_oninput "150") constructed in
  eval (positionSlider_oninput "150") constructed = Normal tt
  /\ clipPlanes s' = clipPlanes constructed
  /\ (forall p, plane_position p s' = plane_position p constructed)
  /\ materials s' = materials constructed
  /\ scene s' = scene constructed
  /\ clipPlaneHelpers s' = clipPlaneHelpers constructed
  /\ localClippingEnabled s' = localClippingEnabled constructed
  /\ activeClipPlane s' = None
  /\ clipPosition s' = Str.parseFloat "150"
  /\ (forall q,
        plane_position q (exec (setActiveClipPlane q) s')
        = Num.neg (Str.parseFloat "150")).
Proof.
  apply (slider_ignored_while_inactive constructed "150"). reflexivity.
Defined.

(** C9, the move that is not ignored: no plane is active in the
    constructed application; a move of the slider to 150 changes the
    remembered value from 0 to 150, and the plane "yz" selected afterwards
    stands at -150, where it stands at 0 when the slider was not moved. *)
Lemma inactive_slider_move_is_kept :
  activeClipPlane constructed = None
  /\ clipPosition constructed = Finite 0
  /\ clipPosition (run [SetOffset "150"] constructed) = Finite 150
  /\ plane_position YZ (run [SetOffset "150"; SelectPlane YZ] constructed)
     = Finite (-150)
  /\ plane_position YZ (run [SelectPlane YZ] constructed) = Finite 0.
Proof.
  split; [reflexivity|]. split; [reflexivity|].
  unfold run. cbn [fold_left]. rewrite !exec_handle.
  rewrite repositioned_inactive by reflexivity.
  unfold plane_position. rewrite !activated_planes, !plane_get_set.
  cbn [constant clipPosition set_clipPosition].
  repeat split; vm_compute; reflexivity.
Qed.

(* ===================================================================== *)
(** * Scaling, colours and the cap on visible blocks *)
(* ===================================================================== *)

Lemma make_cube_box offset address block :
  make_cube scaleFactor heightScaleFactor offset address block
  = box_of_block offset address block.
Proof. reflexivity. Qed.

Lemma cubes_of_boxes offset addresses blocks :
  Forall (fun cube =>
            exists address block,
              block ∈ blocks /\ cube = box_of_block offset address block)
         (cubes_of offset addresses blocks).
Proof.
  apply Forall_forall. intros cube H. unfold cubes_of in H.
  apply elem_of_zip_with in H as (a & b & -> & _ & Hb).
  exists a, b. split; [exact Hb | apply make_cube_box].
Qed.

Lemma group_blocks_grouped blocks o :
  group_blocks blocks [] = Normal o -> grouped o ≡ₚ blocks.
Proof.
  intros G.
  destruct (Exists_dec (fun block => Obj.inherited (rock block) = true) blocks)
    as [E | N].
  - rewrite group_blocks_throw in G; [discriminate | constructor | exact E].
  - apply not_Exists_Forall in N; [|apply _].
    destruct (group_blocks_normal blocks []) as (o' & G' & P).
    + constructor.
    + eapply Forall_impl; [exact N|]. cbn. intros block.
      now destruct (Obj.inherited (rock block)).
    + rewrite G in G'. injection G' as <-. exact P.
Qed.

(** C5, as amended: when [createBlockModel] completes, it adds one group
    whose children are boxes of visible blocks; the width and the depth of
    a box are the x and y dimensions times 0.7, its height is the z
    dimension times 0.7 and times 2; its position is the normalized
    centroid with the height doubled and the horizontal coordinates
    unscaled.  The height multiplier enters neither horizontal extent nor
    horizontal coordinate. *)
Theorem height_scale_is_vertical_only blocks s :
  eval (createBlockModel blocks) s = Normal tt ->
  (exists cubes,
     scene (exec (createBlockModel blocks) s) = scene s ++ [Group cubes]
     /\ Forall (fun cube =>
                  exists address block,
                    block ∈ visibleBlocks_of blocks
                    /\ cube = box_of_block (coordinateOffset s) address block)
               cubes)
  /\ (forall scale h h' offset address block,
        horizontal (make_cube scale h offset address block)
        = horizontal (make_cube scale h' offset address block)).
Proof.
  intros N. split; [|reflexivity].
  unfold eval, exec in *.
  destruct (group_blocks (visibleBlocks_of blocks) []) as [o | e] eqn:G.
  - destruct (createBlockModel_normal blocks s o G)
      as (addresses & store & s' & E & Sc & _).
    rewrite E. cbn [snd]. eexists. split; [exact Sc|].
    eapply Forall_impl; [apply cubes_of_boxes|].
    cbn. intros cube (a & b & Hb & ->). exists a, b. split; [|reflexivity].
    rewrite <- (group_blocks_grouped _ _ G), <- grouped_entries. exact Hb.
  - destruct (createBlockModel_throw blocks s e G) as [lines E].
    rewrite E in N. discriminate.
Qed.

Lemma height_scale_is_vertical_only_witness :
  (exists cubes,
     scene (exec (createBlockModel two_blocks) constructed)
     = scene constructed ++ [Group cubes]
     /\ Forall (fun cube =>
                  exists address block,
                    block ∈ visibleBlocks_of two_blocks
                    /\ cube = box_of_block (coordinateOffset constructed) address block)
               cubes)
  /\ (forall scale h h' offset address block,
        horizontal (make_cube scale h offset address block)
        = horizontal (make_cube scale h' offset address block)).
Proof.
  apply (height_scale_is_vertical_only two_blocks constructed).
  vm_compute. reflexivity.
Defined.

(** C5 fails as stated: the horizontal position of a box is the normalized
    centroid itself, not 0.7 times it.  For the second of two blocks whose
    x are 10 and 12 the box stands at x = 2, and 2 is not 0.7 * 2. *)
Lemma horizontal_position_is_not_scaled :
  let s := exec (computeCoordinateOffset two_blocks) constructed in
  exists first g address p block,
    scene (exec (createBlockModel two_blocks) s)
    = scene s ++ [Group [first; Mesh (Box g) address p]]
    /\ two_blocks !! 1%nat = Some block
    /\ vx p = Finite 2
    /\ same_number (vx p) (vx (normalized (coordinateOffset s) block)) = true
    /\ same_number (vx p)
         (Num.mul (vx (normalized (coordinateOffset s) block)) scaleFactor)
       = false
    /\ same_number (width g) (Num.mul (dim_x block) scaleFactor) = true.
Proof.
  cbv zeta. do 5 eexists.
  split; [vm_compute; reflexivity|].
  split; [reflexivity|].
  repeat split; vm_compute; reflexivity.
Qed.

(* ===================================================================== *)
(** * Rock types and their colours *)
(* ===================================================================== *)

Lemma Set_of_snoc labels x :
  Set_of (labels ++ [x]) = Set_add (Set_of labels) x.
Proof. unfold Set_of. now rewrite fold_left_app. Qed.

Lemma Set_of_elem labels r : r ∈ Set_of labels <-> r ∈ labels.
Proof.
  revert r. induction labels as [|x labels IH] using rev_ind; intros r;
    [reflexivity|].
  rewrite Set_of_snoc. unfold Set_add.
  case_bool_decide as Hx; rewrite ?elem_of_app, ?list_elem_of_singleton, IH.
  - apply IH in Hx. split; [tauto|]. intros [H | ->]; tauto.
  - reflexivity.
Qed.

Lemma Set_of_NoDup labels : NoDup (Set_of labels).
Proof.
  induction labels as [|x labels IH] using rev_ind; [constructor|].
  rewrite Set_of_snoc. unfold Set_add.
  case_bool_decide as Hx; [exact IH|].
  apply NoDup_app. split; [exact IH|]. split; [|apply NoDup_singleton].
  intros y Hy Hyx. apply list_elem_of_singleton in Hyx. now subst.
Qed.

(** Adding the labels of a list without repetition, in order, gives the
    list back. *)
Lemma Set_of_fixed l : NoDup l -> Set_of l = l.
Proof.
  induction l as [|x l IH] using rev_ind; [reflexivity|].
  intros N. apply NoDup_app in N as (Nl & Hx & _).
  rewrite Set_of_snoc, IH by exact Nl. unfold Set_add.
  rewrite bool_decide_eq_false_2; [reflexivity|].
  intros Hin. apply (Hx x Hin). now apply list_elem_of_singleton.
Qed.

Lemma first_index_app x l k :
  x ∈ l -> first_index x (l ++ k) = first_index x l.
Proof.
  induction l as [|y l IH]; [now intros ?%elem_of_nil|].
  cbn. destruct (String.eqb_spec y x) as [_ | Hne]; [reflexivity|].
  intros [-> | H]%elem_of_cons; [congruence|]. now rewrite IH.
Qed.

Lemma first_index_lt x l : x ∈ l -> (first_index x l < length l)%nat.
Proof.
  induction l as [|y l IH]; [now intros ?%elem_of_nil|].
  cbn. destruct (String.eqb_spec y x) as [_ | Hne]; [lia|].
  intros [-> | H]%elem_of_cons; [congruence|]. apply IH in H. lia.
Qed.

Lemma first_index_new x l : x ∉ l -> first_index x (l ++ [x]) = length l.
Proof.
  induction l as [|y l IH]; cbn.
  - now rewrite String.eqb_refl.
  - intros H. apply not_elem_of_cons in H as [Hne H].
    destruct (String.eqb_spec y x) as [-> | _]; [congruence|].
    now rewrite IH.
Qed.

(** The labels come out in the order of their first occurrences. *)
Lemma Set_of_order labels i j r r' :
  (i < j)%nat ->
  Set_of labels !! i = Some r -> Set_of labels !! j = Some r' ->
  (first_index r labels < first_index r' labels)%nat.
Proof.
  revert i j r r'.
  induction labels as [|x labels IH] using rev_ind; intros i j r r' Hij.
  - cbn. now rewrite lookup_nil.
  - rewrite Set_of_snoc. unfold Set_add.
    case_bool_decide as Hx.
    + intros Hi Hj.
      rewrite !first_index_app
        by (apply Set_of_elem; eapply list_elem_of_lookup_2; eassumption).
      now apply (IH i j).
    + intros Hi Hj.
      assert (Hilt : (i < length (Set_of labels))%nat).
      { apply lookup_lt_Some in Hj. rewrite length_app in Hj. cbn in Hj. lia. }
      rewrite lookup_app_l in Hi by exact Hilt.
      assert (Hr : r ∈ labels).
      { apply Set_of_elem. eapply list_elem_of_lookup_2. exact Hi. }
      rewrite (first_index_app r) by exact Hr.
      destruct (decide (j < length (Set_of labels))%nat) as [Hjlt | Hjge].
      * rewrite lookup_app_l in Hj by exact Hjlt.
        rewrite first_index_app
          by (apply Set_of_elem; eapply list_elem_of_lookup_2; exact Hj).
        now apply (IH i j).
      * rewrite lookup_app_r in Hj by lia.
        apply list_lookup_singleton_Some in Hj as [_ <-].
        rewrite first_index_new by (now rewrite <- Set_of_elem).
        now apply first_index_lt.
Qed.

(** The table after the [forEach] over the labels [l], for [k] labels in
    all. *)
Lemma paint_snoc k l x :
  fold_left
    (fun colors '(i, rock) =>
       <[rock := setHSL (hue_of i k) saturation lightness]> colors)
    (imap pair (l ++ [x])) (∅ : gmap string Color)
  = <[x := setHSL (hue_of (length l) k) saturation lightness]>
      (fold_left
         (fun colors '(i, rock) =>
            <[rock := setHSL (hue_of i k) saturation lightness]> colors)
         (imap pair l) ∅).
Proof.
  rewrite imap_app, fold_left_app. cbn. now rewrite Nat.add_0_r.
Qed.

Lemma paint_table k l :
  NoDup l ->
  let colors :=
    fold_left
      (fun colors '(i, rock) =>
         <[rock := setHSL (hue_of i k) saturation lightness]> colors)
      (imap pair l) (∅ : gmap string Color) in
  dom colors = list_to_set l
  /\ forall i r, l !! i = Some r ->
       colors !! r = Some (setHSL (hue_of i k) saturation lightness).
Proof.
  induction l as [|x l IH] using rev_ind; intros N.
  - cbn. split; [apply dom_empty_L|]. intros i r. now rewrite lookup_nil.
  - apply NoDup_app in N as (Nl & Hx & _).
    destruct (IH Nl) as [D T]. cbv zeta. rewrite paint_snoc.
    split.
    + rewrite dom_insert_L, D, list_to_set_app_L. cbn.
      rewrite (right_id_L ∅ (∪)). apply (comm_L (∪)).
    + intros i r Hi.
      destruct (decide (i < length l)%nat) as [Hlt | Hge].
      * rewrite lookup_app_l in Hi by exact Hlt.
        rewrite lookup_insert_ne; [now apply T|].
        intros <-. apply (Hx x); [|now apply list_elem_of_singleton].
        eapply list_elem_of_lookup_2. exact Hi.
      * rewrite lookup_app_r in Hi by lia.
        apply list_lookup_singleton_Some in Hi as [Hi <-].
        rewrite lookup_insert_eq. do 3 f_equal. lia.
Qed.

(** C6: with [k] distinct rock labels in the dataset, the table holds
    exactly [k] colours, one per label; the labels are ranked by first
    occurrence, the label of rank [i] gets the hue [i / k] with the fixed
    saturation and lightness; colouring the ranked labels again gives the
    same ranking and the same table. *)
Theorem rock_colors_by_first_occurrence blocks :
  let labels := map rock blocks in
  let rockTypes := rockTypes_of blocks in
  let rockColors := rockColors_of rockTypes in
  let k := size (list_to_set labels : gset string) in
  size rockColors = k
  /\ length rockTypes = k
  /\ NoDup rockTypes
  /\ (forall r, r ∈ rockTypes <-> r ∈ labels)
  /\ (forall i j r r',
        (i < j)%nat -> rockTypes !! i = Some r -> rockTypes !! j = Some r' ->
        (first_index r labels < first_index r' labels)%nat)
  /\ (forall i r,
        rockTypes !! i = Some r ->
        rockColors !! r
        = Some (setHSL (Num.div (Num.of_nat i) (Num.of_nat k))
                  saturation lightness))
  /\ Set_of rockTypes = rockTypes
  /\ rockColors_of (Set_of rockTypes) = rockColors.
Proof.
  cbv zeta. unfold rockTypes_of.
  set (labels := map rock blocks).
  pose proof (Set_of_NoDup labels) as N.
  assert (K : length (Set_of labels) = size (list_to_set labels : gset string)).
  { rewrite <- (size_list_to_set (C := gset string)) by exact N.
    f_equal. apply set_eq. intros r.
    rewrite !elem_of_list_to_set. apply Set_of_elem. }
  destruct (paint_table (length (Set_of labels)) (Set_of labels) N) as [D T].
  cbv zeta in D, T.
  repeat split.
  - unfold rockColors_of. rewrite <- size_dom, <- K.
    unfold hue_of in D. rewrite D. now apply size_list_to_set.
  - exact K.
  - exact N.
  - apply Set_of_elem.
  - apply Set_of_elem.
  - apply Set_of_order.
  - intros i r Hi. rewrite <- K. now apply T.
  - now apply Set_of_fixed.
  - now rewrite Set_of_fixed.
Qed.

(* ===================================================================== *)
(** * The cap on visible blocks *)
(* ===================================================================== *)

Lemma visibleBlocks_of_cap blocks :
  (maxBlocks < length blocks)%nat ->
  visibleBlocks_of blocks = take maxBlocks blocks
  /\ length (visibleBlocks_of blocks) = maxBlocks.
Proof.
  intros H. unfold visibleBlocks_of.
  destruct (Nat.ltb_spec maxBlocks (length blocks)) as [_ | ?]; [|lia].
  split; [reflexivity|]. rewrite length_take. lia.
Qed.

Lemma visibleBlocks_of_all blocks :
  (length blocks <= maxBlocks)%nat -> visibleBlocks_of blocks = blocks.
Proof.
  intros H. unfold visibleBlocks_of.
  destruct (Nat.ltb_spec maxBlocks (length blocks)) as [? | _]; [lia|].
  reflexivity.
Qed.

(** A visible block whose label is an inherited property name makes
    [createBlockModel] throw before anything is built. *)
Lemma createBlockModel_inherited_label blocks s :
  Exists (fun block => Obj.inherited (rock block) = true) (visibleBlocks_of blocks) ->
  eval (createBlockModel blocks) s
  = Throw (TypeError "blocksByRock[block.rock].push is not a function")
  /\ scene (exec (createBlockModel blocks) s) = scene s
  /\ materials (exec (createBlockModel blocks) s) = materials s.
Proof.
  intros E. unfold eval, exec.
  destruct (createBlockModel_throw blocks s _
              (group_blocks_throw _ [] (Forall_nil_2 _) E)) as [lines ->].
  now cbn.
Qed.

(** When no visible label is an inherited property name, the build
    completes: the group added holds one box per visible block. *)
Lemma createBlockModel_builds_visible blocks s :
  Forall (fun block => Obj.inherited (rock block) = false) (visibleBlocks_of blocks) ->
  exists addresses shown,
    eval (createBlockModel blocks) s = Normal tt
    /\ scene (exec (createBlockModel blocks) s)
       = scene s ++ [Group (cubes_of (coordinateOffset s) addresses shown)]
    /\ shown ≡ₚ visibleBlocks_of blocks
    /\ length addresses = length shown.
Proof.
  intros F. unfold eval, exec.
  destruct (group_blocks_normal (visibleBlocks_of blocks) [] (Forall_nil_2 _) F)
    as (o & G & P).
  destruct (createBlockModel_normal blocks s o G)
    as (addresses & store & s' & -> & Sc & _ & _ & _ & _ & _ & _ & L & _).
  exists addresses, (grouped (Obj.entries o)). cbn [fst snd].
  repeat split; auto. now rewrite grouped_entries, P.
Qed.

(** C7 fails on the code: a file of 5001 valid rows labelled "constructor"
    is parsed into 5001 blocks, [createBlockModel] throws a [TypeError] in
    the grouping, [loadData] catches it and logs it, and the scene is left
    as the constructor made it: no box at all. *)
Theorem prototype_label_aborts_the_build :
  let s := exec (loadData (inr constructor_text) "/data/blocks.csv") constructed in
  eval (parseCSV constructor_text) constructed = Normal constructor_dataset
  /\ length constructor_dataset = 5001%nat
  /\ eval (loadData (inr constructor_text) "/data/blocks.csv") constructed
     = Normal tt
  /\ scene s = scene constructed
  /\ last (console s)
     = Some (LogError
               [AStr "Failed to load or parse data:";
                AErr (TypeError "blocksByRock[block.rock].push is not a function")]).
Proof. vm_compute. repeat split; reflexivity. Qed.

(* ===================================================================== *)
(** * Further properties: the grouping by rock type *)
(* ===================================================================== *)

Lemma own_None {V} k (o : Obj.t V) : Obj.own k o = None <-> k ∉ map fst o.
Proof.
  induction o as [|[k' v] o IH]; cbn.
  - split; [intros _; apply not_elem_of_nil | reflexivity].
  - rewrite not_elem_of_cons.
    destruct (String.eqb_spec k' k) as [-> | Hne].
    + split; [discriminate | intros [H _]; congruence].
    + rewrite IH. split; [intros H; split; [congruence | exact H] | tauto].
Qed.

Lemma own_Some {V} k (v : V) (o : Obj.t V) : Obj.own k o = Some v -> (k, v) ∈ o.
Proof.
  induction o as [|[k' v'] o IH]; cbn; [discriminate|].
  destruct (String.eqb_spec k' k) as [-> | Hne].
  - intros [= ->]. constructor.
  - intros H. apply elem_of_cons. right. now apply IH.
Qed.

Lemma keys_set_present {V} k (v v' : V) o :
  Obj.own k o = Some v' -> map fst (Obj.set k v o) = map fst o.
Proof.
  induction o as [|[k0 v0] o IH]; cbn; [discriminate|].
  destruct (String.eqb_spec k0 k) as [-> | Hne]; cbn; [reflexivity|].
  intros H. now rewrite IH.
Qed.

Lemma Forall_set {V} (P : string * V -> Prop) k v o :
  P (k, v) -> Forall P o -> Forall P (Obj.set k v o).
Proof.
  intros Hk. induction 1 as [|[k0 v0] o H0 Ho IH]; cbn.
  - now repeat constructor.
  - destruct (String.eqb_spec k0 k) as [-> | Hne]; constructor; auto.
Qed.

Lemma set_last {V} k (v v0 : V) o :
  Obj.own k o = None -> Obj.set k v (o ++ [(k, v0)]) = o ++ [(k, v)].
Proof.
  induction o as [|[k' v'] o IH]; cbn.
  - now rewrite String.eqb_refl.
  - destruct (String.eqb k' k); [discriminate|].
    intros H. now rewrite IH.
Qed.

Lemma group_block_well_grouped o block o' :
  well_grouped o -> group_block o block = Normal o' -> well_grouped o'.
Proof.
  intros [N F]. unfold group_block, Obj.get.
  destruct (Obj.own (rock block) o) as [blocksOfType|] eqn:E.
  - rewrite E. intros [= <-]. split.
    + now rewrite (keys_set_present _ _ _ _ E).
    + apply Forall_set; [|exact F]. cbn.
      apply own_Some in E. rewrite Forall_forall in F.
      destruct (F _ E) as [_ Hb]. cbn in Hb.
      split; [now destruct blocksOfType|].
      apply Forall_app. split; [exact Hb | now repeat constructor].
  - destruct (Obj.inherited (rock block)); [rewrite E; discriminate|].
    rewrite own_set_eq. intros [= <-].
    rewrite (set_absent _ _ _ E), (set_last _ _ _ _ E).
    split.
    + rewrite !map_app. cbn.
      apply NoDup_app. split; [exact N|]. split; [|apply NoDup_singleton].
      intros k Hk Hk'. apply list_elem_of_singleton in Hk'. subst k.
      now apply own_None in E.
    + rewrite Forall_app. split; [exact F|].
      constructor; [|constructor]. cbn.
      split; [discriminate | now repeat constructor].
Qed.

Lemma group_blocks_well_grouped blocks o o' :
  well_grouped o -> group_blocks blocks o = Normal o' -> well_grouped o'.
Proof.
  revert o. induction blocks as [|block blocks IH]; intros o W; cbn.
  - now intros [= <-].
  - destruct (group_block o block) as [o1 | e] eqn:G; [|discriminate].
    apply IH. now apply (group_block_well_grouped o block).
Qed.

Lemma entries_well_grouped o : well_grouped o -> well_grouped (Obj.entries o).
Proof.
  intros [N F]. split.
  - now rewrite entries_Permutation.
  - now rewrite entries_Permutation.
Qed.

(** The loop over the entries, rock type by rock type: each entry gets one
    material of its own, newly allocated, holding the colour of its label
    and no clip plane; its boxes all refer to that material. *)
Lemma add_rock_groups_groups colors entries children s :
  exists groups store lines,
    add_rock_groups colors entries children s
    = (Normal (children ++ boxes_of_groups (coordinateOffset s) groups),
       set_console (console s ++ lines) (set_materials store s))
    /\ map (fun g => (group_rock g, group_blocks_of g)) groups = entries
    /\ NoDup (map group_material groups)
    /\ Forall (fun g =>
                 (group_material g ∉ dom (materials s))
                 /\ store !! group_material g
                    = Some (fresh_material
                              (default (hex 13421772) (colors !! group_rock g))))
              groups
    /\ materials s ⊆ store
    /\ dom store = dom (materials s) ∪ list_to_set (map group_material groups).
Proof.
  revert children s.
  induction entries as [|[rockType blocksOfType] entries IH]; intros children s.
  - exists [], (materials s), []. cbn.
    rewrite !app_nil_r. repeat split; auto; try constructor.
    + now destruct s.
    + now rewrite (right_id_L ∅ (∪)).
  - cbn [add_rock_groups].
    cbv beta iota zeta delta [bind new_material console_log modify get].
    match goal with |- context [add_rock_groups colors entries ?c ?st] =>
      destruct (IH c st) as (groups & store & lines & -> & Hen & N & F & S & D)
    end.
    cbn [coordinateOffset set_console set_materials materials console] in *.
    set (address := fresh (dom (materials s))) in *.
    set (m := {| color := default (hex 13421772) (colors !! rockType);
                 clippingPlanes := []; clipIntersection := false;
                 needsUpdate := false |}) in *.
    assert (Ha : address ∉ dom (materials s)) by apply is_fresh.
    assert (Hnew : forall g, g ∈ groups -> group_material g <> address).
    { intros g Hg. rewrite Forall_forall in F. destruct (F g Hg) as [Hd _].
      intros Heq. apply Hd. rewrite Heq, dom_insert_L.
      apply elem_of_union_l. now apply elem_of_singleton. }
    exists (mkRockGroup address rockType blocksOfType :: groups), store.
    exists (Log [AStr "Creating "; AInt (Z.of_nat (length blocksOfType));
                 AStr " "; AStr rockType; AStr " blocks"] :: lines).
    split; [|split; [|split; [|split; [|split]]]].
    + unfold boxes_of_groups at 2. cbn [flat_map group_material group_blocks_of].
      fold (boxes_of_groups (coordinateOffset s) groups).
      rewrite <- !app_assoc.
      unfold set_console, set_materials. cbn. reflexivity.
    + cbn. now rewrite Hen.
    + cbn. constructor; [|exact N].
      intros Hin. apply list_elem_of_fmap in Hin as (g & Hg & Hin).
      now apply (Hnew g).
    + constructor.
      * cbn. split; [exact Ha|].
        apply (lookup_weaken _ _ _ _ (lookup_insert_eq _ _ _) S).
      * eapply Forall_impl; [exact F|]. cbn. intros g [Hd Hs].
        split; [|exact Hs].
        intros Hin. apply Hd. rewrite dom_insert_L. now apply elem_of_union_r.
    + etrans; [|exact S]. apply insert_subseteq, fresh_material_absent.
    + rewrite D, dom_insert_L. cbn. set_solver.
Qed.

Lemma createBlockModel_groups blocks s blocksByRock :
  group_blocks (visibleBlocks_of blocks) [] = Normal blocksByRock ->
  exists groups s',
    createBlockModel blocks s = (Normal tt, s')
    /\ scene s' = scene s ++ [Group (boxes_of_groups (coordinateOffset s) groups)]
    /\ map (fun g => (group_rock g, group_blocks_of g)) groups
       = Obj.entries blocksByRock
    /\ NoDup (map group_material groups)
    /\ Forall (fun g =>
                 (group_material g ∉ dom (materials s))
                 /\ materials s' !! group_material g
                    = Some (fresh_material
                              (default (hex 13421772)
                                 (rockColors_of (rockTypes_of blocks) !! group_rock g))))
              groups
    /\ materials s ⊆ materials s'
    /\ dom (materials s') = dom (materials s) ∪ list_to_set (map group_material groups).
Proof.
  intros G. unfold createBlockModel.
  run_steps. rewrite G. run_steps.
  match goal with |- context [bind (add_rock_groups ?c ?en ?ch) ?k ?st] =>
    destruct (add_rock_groups_groups c en ch st)
      as (groups & store & lines & E & Hen & N & F & S & D);
    rewrite (bind_normal _ k _ _ _ E)
  end.
  run_steps in S. run_steps in D. run_steps in F. run_steps.
  exists groups. eexists. split; [reflexivity|].
  run_steps. repeat split; auto.
Qed.

Lemma visibleBlocks_of_subset blocks block :
  block ∈ visibleBlocks_of blocks -> block ∈ blocks.
Proof.
  unfold visibleBlocks_of.
  destruct (maxBlocks <? length blocks)%nat; [|auto].
  apply subseteq_take.
Qed.

Lemma elem_of_concat {A} (x : A) l ls : x ∈ l -> l ∈ ls -> x ∈ concat ls.
Proof.
  rewrite !list_elem_of_In, in_concat. eauto.
Qed.

Lemma rockColors_lookup blocks r :
  r ∈ map rock blocks ->
  exists i,
    rockTypes_of blocks !! i = Some r
    /\ rockColors_of (rockTypes_of blocks) !! r
       = Some (setHSL (hue_of i (length (rockTypes_of blocks)))
                 saturation lightness).
Proof.
  intros Hr. unfold rockTypes_of.
  apply Set_of_elem, list_elem_of_lookup in Hr as [i Hi].
  exists i. split; [exact Hi|].
  destruct (paint_table (length (Set_of (map rock blocks)))
              (Set_of (map rock blocks)) (Set_of_NoDup _)) as [_ T].
  now apply T.
Qed.

(** X1: when no visible label is an inherited property name,
    [createBlockModel] builds the model rock type by rock type: the labels
    of the groups are distinct, each group holds the visible blocks of its
    label (none is lost, none is added), each group has a material of its
    own, allocated by this call, which holds no clip plane and the colour of
    hue [i / k] for the rank [i] of the label; the grey fallback colour is
    never used, and no material is allocated besides. *)
Theorem rock_types_get_own_materials blocks s :
  Forall (fun block => Obj.inherited (rock block) = false) (visibleBlocks_of blocks) ->
  let s' := exec (createBlockModel blocks) s in
  let rockTypes := rockTypes_of blocks in
  exists groups,
    scene s' = scene s ++ [Group (boxes_of_groups (coordinateOffset s) groups)]
    /\ concat (map group_blocks_of groups) ≡ₚ visibleBlocks_of blocks
    /\ NoDup (map group_rock groups)
    /\ NoDup (map group_material groups)
    /\ Forall (fun g =>
                 group_blocks_of g <> []
                 /\ Forall (fun block => rock block = group_rock g) (group_blocks_of g)
                 /\ (group_material g ∉ dom (materials s))
                 /\ exists i,
                      rockTypes !! i = Some (group_rock g)
                      /\ materials s' !! group_material g
                         = Some (fresh_material
                                   (setHSL (hue_of i (length rockTypes))
                                      saturation lightness)))
              groups
    /\ dom (materials s') = dom (materials s) ∪ list_to_set (map group_material groups)
    /\ materials s ⊆ materials s'.
Proof.
  intros F. cbv zeta. unfold exec.
  destruct (group_blocks_normal (visibleBlocks_of blocks) [] (Forall_nil_2 _) F)
    as (o & G & P).
  assert (W : well_grouped (Obj.entries o)).
  { apply entries_well_grouped.
    apply (group_blocks_well_grouped (visibleBlocks_of blocks) [] o); [|exact G].
    split; constructor. }
  destruct (createBlockModel_groups blocks s o G)
    as (groups & s' & -> & Sc & Hen & N & Fm & S & D).
  cbn [snd]. exists groups.
  assert (Hb : concat (map group_blocks_of groups) ≡ₚ visibleBlocks_of blocks).
  { rewrite <- P, <- grouped_entries, <- Hen. unfold grouped.
    rewrite <- list_fmap_compose. reflexivity. }
  destruct W as [Wk Wf]. rewrite <- Hen in Wk, Wf.
  rewrite <- list_fmap_compose in Wk.
  rewrite Forall_fmap in Wf.
  repeat split; auto.
  rewrite Forall_forall in Fm, Wf. apply Forall_forall. intros g Hg.
  destruct (Fm g Hg) as [Hd Hm]. destruct (Wf g Hg) as [Hne Hr]. cbn in Hne, Hr.
  repeat split; auto.
  assert (Hin : group_rock g ∈ map rock blocks).
  { destruct (group_blocks_of g) as [|b bs] eqn:Eb; [congruence|].
    apply Forall_cons in Hr as [<- _].
    apply list_elem_of_fmap_2, visibleBlocks_of_subset.
    rewrite <- Hb. apply (elem_of_concat b (b :: bs)); [constructor|].
    rewrite <- Eb. now apply list_elem_of_fmap_2. }
  destruct (rockColors_lookup blocks _ Hin) as (i & Hi & Hc).
  exists i. split; [exact Hi|]. rewrite Hm, Hc. reflexivity.
Qed.

Lemma no_inherited_check blocks :
  forallb (fun block => negb (Obj.inherited (rock block))) (visibleBlocks_of blocks)
  = true ->
  Forall (fun block => Obj.inherited (rock block) = false) (visibleBlocks_of blocks).
Proof.
  intros H. apply Forall_forall. intros block Hin.
  apply list_elem_of_In in Hin. rewrite forallb_forall in H.
  apply H in Hin. now apply negb_true_iff in Hin.
Qed.

Lemma rock_types_get_own_materials_witness :
  let s' := exec (createBlockModel two_blocks) constructed in
  let rockTypes := rockTypes_of two_blocks in
  exists groups,
    scene s'
    = scene constructed
      ++ [Group (boxes_of_groups (coordinateOffset constructed) groups)]
    /\ concat (map group_blocks_of groups) ≡ₚ visibleBlocks_of two_blocks
    /\ NoDup (map group_rock groups)
    /\ NoDup (map group_material groups)
    /\ Forall (fun g =>
                 group_blocks_of g <> []
                 /\ Forall (fun block => rock block = group_rock g) (group_blocks_of g)
                 /\ (group_material g ∉ dom (materials constructed))
                 /\ exists i,
                      rockTypes !! i = Some (group_rock g)
                      /\ materials s' !! group_material g
                         = Some (fresh_material
                                   (setHSL (hue_of i (length rockTypes))
                                      saturation lightness)))
              groups
    /\ dom (materials s')
       = dom (materials constructed) ∪ list_to_set (map group_material groups)
    /\ materials constructed ⊆ materials s'.
Proof.
  apply (rock_types_get_own_materials two_blocks constructed).
  apply no_inherited_check. vm_compute. reflexivity.
Defined.

(* ===================================================================== *)
(** * Further properties: loading *)
(* ===================================================================== *)

(** X2: [loadData] never throws, whatever the response and the state: an
    error of the fetch or of the build is caught and logged.  It leaves the
    clipping controls as they are, removes no material and no console line,
    and adds at most one group to the scene; when the fetch fails nothing
    but the console changes, and its last line is the error. *)
Theorem loadData_never_throws response url s :
  let s' := exec (loadData response url) s in
  eval (loadData response url) s = Normal tt
  /\ same_controls s s'
  /\ console s `prefix_of` console s'
  /\ materials s ⊆ materials s'
  /\ (scene s' = scene s \/ exists cubes, scene s' = scene s ++ [Group cubes])
  /\ (forall e, response = inl e ->
        s' = set_console
               (console s
                  ++ [Log [AStr "Loading data from:"; AStr url];
                      LogError [AStr "Failed to load or parse data:"; AErr e]]) s).
Proof.
  cbv zeta. unfold eval, exec.
  destruct (loadData_run response url s) as (s' & E & C & P & M & Sc).
  rewrite E. cbn [fst snd].
  repeat split; auto; try apply C.
  - destruct Sc as [Sc | (offset & addresses & blocks & Sc & _)]; eauto.
  - intros e ->. unfold loadData, try_catch in E. run_steps in E.
    injection E as <-. unfold set_console. cbn. now rewrite <- app_assoc.
Qed.

Lemma visibleBlocks_of_take blocks : visibleBlocks_of blocks = take maxBlocks blocks.
Proof.
  unfold visibleBlocks_of.
  destruct (Nat.ltb_spec maxBlocks (length blocks)) as [_ | H]; [reflexivity|].
  now rewrite take_ge.
Qed.

(** X3: when no visible label is an inherited property name,
    [createBlockModel] completes and adds one group of boxes: as many boxes
    as there are blocks, but 5000 at most, and they are the boxes of the
    first blocks of the dataset, up to their order; the camera is put 500
    units beyond the model centre on each axis. *)
Theorem at_most_maxBlocks_boxes blocks s :
  Forall (fun block => Obj.inherited (rock block) = false) (visibleBlocks_of blocks) ->
  let s' := exec (createBlockModel blocks) s in
  exists addresses shown,
    eval (createBlockModel blocks) s = Normal tt
    /\ scene s'
       = scene s ++ [Group (cubes_of (coordinateOffset s) addresses shown)]
    /\ shown ≡ₚ take maxBlocks blocks
    /\ length (cubes_of (coordinateOffset s) addresses shown)
       = Nat.min (length blocks) maxBlocks
    /\ camera_position s' = camera_over (center_of (coordinateOffset s) blocks).
Proof.
  intros F. cbv zeta. unfold eval, exec.
  destruct (group_blocks_normal (visibleBlocks_of blocks) [] (Forall_nil_2 _) F)
    as (o & G & P).
  destruct (createBlockModel_normal blocks s o G)
    as (addresses & store & s' & -> & Sc & _ & _ & Ca & _ & _ & _ & L & _).
  exists addresses, (grouped (Obj.entries o)). cbn [fst snd].
  assert (Hs : grouped (Obj.entries o) ≡ₚ take maxBlocks blocks).
  { rewrite grouped_entries, P. cbn. now rewrite visibleBlocks_of_take. }
  repeat split; auto.
  unfold cubes_of. rewrite length_zip_with, L, Nat.min_id, Hs, length_take.
  apply Nat.min_comm.
Qed.

Lemma at_most_maxBlocks_boxes_witness :
  let s' := exec (createBlockModel two_blocks) constructed in
  exists addresses shown,
    eval (createBlockModel two_blocks) constructed = Normal tt
    /\ scene s'
       = scene constructed
         ++ [Group (cubes_of (coordinateOffset constructed) addresses shown)]
    /\ shown ≡ₚ take maxBlocks two_blocks
    /\ length (cubes_of (coordinateOffset constructed) addresses shown)
       = Nat.min (length two_blocks) maxBlocks
    /\ camera_position s'
       = camera_over (center_of (coordinateOffset constructed) two_blocks).
Proof.
  apply (at_most_maxBlocks_boxes two_blocks constructed).
  apply no_inherited_check. vm_compute. reflexivity.
Defined.

(** X4: a visible block labelled with a property name every object inherits
    ("constructor", "toString", "__proto__", ...) makes [createBlockModel]
    throw a [TypeError] in the grouping: the model centre is already
    written, but no material is allocated, nothing is added to the scene
    and the camera stays where it was. *)
Theorem inherited_label_stops_the_build blocks s :
  Exists (fun block => Obj.inherited (rock block) = true) (visibleBlocks_of blocks) ->
  let s' := exec (createBlockModel blocks) s in
  eval (createBlockModel blocks) s
  = Throw (TypeError "blocksByRock[block.rock].push is not a function")
  /\ scene s' = scene s
  /\ materials s' = materials s
  /\ camera_position s' = camera_position s
  /\ modelCenter s' = center_of (coordinateOffset s) blocks
  /\ same_controls s s'.
Proof.
  intros E. cbv zeta. unfold eval, exec.
  destruct (createBlockModel_throw blocks s _
              (group_blocks_throw _ [] (Forall_nil_2 _) E)) as [lines ->].
  cbn. repeat split.
Qed.

Lemma inherited_label_stops_the_build_witness :
  let s' := exec (createBlockModel [granite_block; constructor_block]) constructed in
  eval (createBlockModel [granite_block; constructor_block]) constructed
  = Throw (TypeError "blocksByRock[block.rock].push is not a function")
  /\ scene s' = scene constructed
  /\ materials s' = materials constructed
  /\ camera_position s' = camera_position constructed
  /\ modelCenter s'
     = center_of (coordinateOffset constructed) [granite_block; constructor_block]
  /\ same_controls constructed s'.
Proof.
  apply (inherited_label_stops_the_build [granite_block; constructor_block]
           constructed).
  apply Exists_cons_tl, Exists_cons_hd. reflexivity.
Defined.

(* ===================================================================== *)
(** * Further properties: the clipping controls *)
(* ===================================================================== *)

(** X5: [setActiveClipPlane q], from any state, completes with [q] active and
    the renderer clipping; the position of [q] is minus the remembered
    slider value and the other planes keep theirs; the helper of [q] exists
    and is visible, every other helper is hidden; when [q] had no helper
    one is made and added to the scene, with a new red material for the
    mesh of its face, and otherwise the scene is left as it is; the
    material of every mesh of the scene graph, the faces of the helpers
    included, holds the plane [q] and nothing else, and the materials no
    mesh of the scene refers to are untouched. *)
Theorem selected_plane_is_the_only_one q s :
  let s' := exec (setActiveClipPlane q) s in
  eval (setActiveClipPlane q) s = Normal tt
  /\ activeClipPlane s' = Some q
  /\ localClippingEnabled s' = true
  /\ plane_position q s' = Num.neg (clipPosition s)
  /\ (forall r, r <> q -> plane_position r s' = plane_position r s)
  /\ clipPlaneHelpers s' q = Some {| visible := true |}
  /\ (forall r h, r <> q -> clipPlaneHelpers s' r = Some h -> visible h = false)
  /\ match clipPlaneHelpers s q with
     | Some _ => scene s' = scene s
     | None =>
         exists face,
           (face ∉ dom (materials s))
           /\ scene s' = scene s ++ [PlaneHelper q [Mesh Square face origin]]
           /\ materials s' !! face
              = Some {| color := hex 16711680; clippingPlanes := [q];
                        clipIntersection := false; needsUpdate := true |}
     end
  /\ (forall g address p m,
        in_scene (Mesh g address p) s' ->
        materials s' !! address = Some m ->
        clippingPlanes m = [q] /\ clipIntersection m = false)
  /\ (forall address,
        (forall g p, ~ in_scene (Mesh g address p) s') ->
        materials s' !! address = materials s !! address).
Proof.
  cbv zeta. unfold eval, exec. rewrite setActiveClipPlane_run. cbn [fst snd].
  destruct (activated_state q s) as (A & F & _).
  split; [reflexivity|]. split; [exact A|]. split; [exact F|].
  unfold plane_position. rewrite activated_planes.
  split; [now rewrite plane_get_set|].
  split; [intros r Hr; now rewrite plane_get_set_other by congruence|].
  split; [rewrite activated_helpers; now rewrite decide_True|].
  split; [|split; [|split]].
  - intros r h Hr. rewrite activated_helpers, decide_False by exact Hr.
    destruct (clipPlaneHelpers s r); cbn; [|discriminate]. now intros [= <-].
  - rewrite activated_scene_exact, activated_materials.
    destruct (clipPlaneHelpers s q); [reflexivity|].
    exists (fresh (dom (materials s))).
    split; [apply is_fresh|]. split; [reflexivity|].
    now rewrite lookup_insert_eq.
  - intros g address p m Hin. apply in_scene_nodes in Hin. revert Hin.
    apply activated_mesh_planes.
  - intros address Hn.
    assert (N : address ∉ mesh_addresses (scene_nodes (activated q s))).
    { rewrite mesh_addresses_elem. intros (g & p & Hin).
      apply (Hn g p). now apply in_scene_nodes. }
    rewrite mesh_addresses_activated in N. rewrite activated_materials.
    destruct (clipPlaneHelpers s q).
    + rewrite (retarget_lookup (assign_plane q)) by apply assign_plane_idem.
      now rewrite decide_False.
    + rewrite not_elem_of_app, list_elem_of_singleton in N.
      destruct N as (N & Hne).
      rewrite lookup_insert_ne by congruence.
      rewrite (retarget_lookup (assign_plane q)) by apply assign_plane_idem.
      now rewrite decide_False.
Qed.

(** X6: selecting the plane that is already selected, or disabling the
    clipping when it is disabled, changes nothing: two calls in a row leave
    the state one call leaves. *)
Theorem select_and_disable_are_idempotent q s :
  same_state (run [SelectPlane q] s) (run [SelectPlane q; SelectPlane q] s)
  /\ same_state (run [Disable] s) (run [Disable; Disable] s).
Proof.
  unfold run. cbn [fold_left]. rewrite !exec_handle. split.
  - set (s1 := activated q s).
    destruct (activated_state q s1) as (A & F & P).
    destruct (activated_state q s) as (A1 & F1 & P1). fold s1 in A1, F1, P1.
    destruct (activated_rest q s1) as (R1 & R2 & R3 & R4).
    assert (H1 : clipPlaneHelpers s1 q = Some {| visible := true |}).
    { unfold s1. rewrite activated_helpers. now rewrite decide_True. }
    unfold same_state. repeat split; try congruence.
    + rewrite activated_scene_exact. now rewrite H1.
    + rewrite activated_materials, H1.
      apply map_eq. intros address.
      rewrite (retarget_lookup (assign_plane q)) by apply assign_plane_idem.
      case_decide as Hin; [|reflexivity].
      now apply activated_fixed.
    + rewrite (activated_planes q s1). rewrite P1.
      unfold s1. rewrite (activated_planes q s).
      rewrite plane_get_set, plane_set_set. cbn [normal]. reflexivity.
    + intros p. rewrite (activated_helpers q s1). unfold s1.
      rewrite !(activated_helpers q s).
      destruct (decide (p = q)); [reflexivity|].
      cbn. now destruct (clipPlaneHelpers s p).
  - unfold same_state. cbn. repeat split.
    + apply retarget_idem, clear_planes_idem.
    + intros p. apply hide_hide.
Qed.

(** [updateClipPlane] keeps the controls in step, for any slider value
    stored beforehand. *)
Lemma repositioned_in_step s v :
  controls_in_step s -> controls_in_step (repositioned (set_clipPosition v s)).
Proof.
  intros (C & P & V & H & Sc).
  set (s0 := set_clipPosition v s).
  destruct (repositioned_frame s0) as (Es & _ & Ea & Ef & Ep).
  unfold controls_in_step, clip_consistent, plane_position.
  rewrite Ea, Ef, Ep, Es.
  change (activeClipPlane s0) with (activeClipPlane s).
  change (localClippingEnabled s0) with (localClippingEnabled s).
  change (clipPosition s0) with v. change (scene s0) with (scene s).
  split; [exact C|]. split; [|split; [|split]].
  - intros p Hp. rewrite repositioned_planes.
    change (activeClipPlane s0) with (activeClipPlane s). rewrite Hp.
    now rewrite plane_get_set.
  - intros r h. rewrite repositioned_helpers.
    change (activeClipPlane s0) with (activeClipPlane s).
    change (clipPlaneHelpers s0) with (clipPlaneHelpers s).
    destruct (activeClipPlane s) as [p|] eqn:Hp; [|apply V].
    destruct (decide (r = p)) as [-> | Hne]; [|apply V].
    destruct (clipPlaneHelpers s p); cbn; [|discriminate].
    intros [= <-]. cbn. tauto.
  - intros p Hp. rewrite repositioned_helpers.
    change (activeClipPlane s0) with (activeClipPlane s).
    change (clipPlaneHelpers s0) with (clipPlaneHelpers s).
    rewrite Hp, decide_True by reflexivity.
    destruct (H p Hp) as [h ->]. cbn. eauto.
  - intros r. rewrite repositioned_helpers.
    change (activeClipPlane s0) with (activeClipPlane s).
    change (clipPlaneHelpers s0) with (clipPlaneHelpers s).
    rewrite <- Sc.
    destruct (activeClipPlane s) as [p|] eqn:Hp; [|reflexivity].
    destruct (decide (r = p)) as [-> | Hne]; [|reflexivity].
    now rewrite fmap_is_Some.
Qed.

Lemma set_clipPosition_same s : set_clipPosition (clipPosition s) s = s.
Proof. now destruct s. Qed.

Lemma activated_in_step q s :
  controls_in_step s -> controls_in_step (activated q s).
Proof.
  intros (C & P & V & H & Sc).
  destruct (activated_state q s) as (A & F & Ep).
  unfold controls_in_step, clip_consistent, plane_position.
  rewrite A, F, Ep.
  split; [split; [intros _; discriminate | reflexivity]|].
  split; [|split; [|split]].
  - intros p [= <-]. rewrite activated_planes. now rewrite plane_get_set.
  - intros r h. rewrite activated_helpers.
    destruct (decide (r = q)) as [-> | Hne].
    + intros [= <-]. cbn. tauto.
    + destruct (clipPlaneHelpers s r); cbn; [|discriminate].
      intros [= <-]. cbn. split; [discriminate | congruence].
  - intros p [= <-]. rewrite activated_helpers, decide_True by reflexivity. eauto.
  - intros r. rewrite activated_helpers, activated_scene_exact.
    destruct (decide (r = q)) as [-> | Hne].
    + split; [intros _ | eauto].
      destruct (clipPlaneHelpers s q) eqn:E.
      * apply Sc. rewrite E. eauto.
      * eexists. apply elem_of_app. right. constructor.
    + rewrite fmap_is_Some, Sc.
      destruct (clipPlaneHelpers s q); [reflexivity|].
      split; intros (children & Hin); exists children.
      * apply elem_of_app. now left.
      * apply elem_of_app in Hin as [Hin | Hin]; [exact Hin|].
        apply list_elem_of_singleton in Hin. unfold helper_of in Hin. congruence.
Qed.

Lemma disabled_in_step s : controls_in_step s -> controls_in_step (disabled s).
Proof.
  intros (C & P & V & H & Sc).
  unfold controls_in_step, clip_consistent. cbn.
  split; [easy|]. split; [discriminate|]. split; [|split; [discriminate|]].
  - intros r h. destruct (clipPlaneHelpers s r); cbn; [|discriminate].
    intros [= <-]. cbn. split; discriminate.
  - intros r. now rewrite fmap_is_Some.
Qed.

Lemma loaded_in_step response url s :
  controls_in_step s -> controls_in_step (exec (loadData response url) s).
Proof.
  intros (C & P & V & H & Sc). unfold exec.
  destruct (loadData_run response url s)
    as (s' & -> & (E1 & E2 & E3 & E4 & E5) & _ & _ & Hs).
  cbn [snd]. unfold controls_in_step, clip_consistent, plane_position.
  rewrite E1, E2, E3, E4, E5.
  split; [exact C|]. split; [exact P|]. split; [exact V|]. split; [exact H|].
  intros r. rewrite Sc.
  destruct Hs as [-> | (offset & addresses & blocks & -> & _)]; [reflexivity|].
  split; intros (children & Hin); exists children.
  - apply elem_of_app. now left.
  - apply elem_of_app in Hin as [Hin | Hin]; [exact Hin|].
    apply list_elem_of_singleton in Hin. discriminate.
Qed.

Lemma handle_in_step event s :
  controls_in_step s -> controls_in_step (exec (handle event) s).
Proof.
  intros I. rewrite exec_handle.
  destruct event as [p | | value | | response url].
  - now apply activated_in_step.
  - now apply disabled_in_step.
  - now apply repositioned_in_step.
  - rewrite <- (set_clipPosition_same s) at 1. now apply repositioned_in_step.
  - now apply loaded_in_step.
Qed.

Lemma constructed_in_step : controls_in_step constructed.
Proof.
  unfold controls_in_step, clip_consistent. cbn.
  split; [easy|]. split; [discriminate|]. split; [discriminate|].
  split; [discriminate|].
  intros r. split; [intros [h E]; discriminate|].
  intros (children & Hin). revert Hin.
  rewrite !elem_of_cons, elem_of_nil. intuition discriminate.
Qed.

Lemma plane_set_same p planes :
  plane_set p
    {| normal := normal (plane_get p planes);
       constant := constant (plane_get p planes) |} planes
  = planes.
Proof. destruct p, planes as [[] [] []]; reflexivity. Qed.

(** X7: in every state the application reaches, the controls are in step
    with the active plane: the renderer clips exactly when a plane is
    active, the position of the active plane is minus the slider value, the
    one visible helper is the helper of the active plane, and the helpers
    are the plane helpers of the scene.  An animation frame therefore
    changes nothing. *)
Theorem controls_stay_in_step events :
  controls_in_step (run events constructed)
  /\ same_state (run events constructed) (run (events ++ [Frame]) constructed).
Proof.
  assert (I : controls_in_step (run events constructed)).
  { induction events as [|event events IH] using rev_ind.
    - apply constructed_in_step.
    - rewrite run_snoc. now apply handle_in_step. }
  split; [exact I|].
  rewrite run_snoc, exec_handle.
  set (s := run events constructed) in *.
  destruct I as (_ & P & V & H & _).
  destruct (repositioned_frame s) as (Es & Em & Ea & Ef & Ep).
  destruct (repositioned_rest s) as (R1 & R2 & R3 & R4).
  unfold same_state. repeat split; try assumption.
  - rewrite repositioned_planes.
    destruct (activeClipPlane s) as [p|] eqn:Hp; [|reflexivity].
    rewrite <- (P p eq_refl). apply plane_set_same.
  - intros r. rewrite repositioned_helpers.
    destruct (activeClipPlane s) as [p|] eqn:Hp; [|reflexivity].
    destruct (decide (r = p)) as [-> | Hne]; [|reflexivity].
    destruct (H p eq_refl) as [h Hh]. rewrite Hh. cbn.
    destruct h as [v]. destruct (V p _ Hh) as [_ Hv].
    cbn in Hv. rewrite Hv by reflexivity. reflexivity.
Qed.

(* ===================================================================== *)
(** * Further properties: the whole pipeline *)
(* ===================================================================== *)

(** [loadData] on a fetched text, case by case: no kept row, a build that
    throws, a build that completes. *)
Lemma loadData_text_run text url s :
  exists s',
    loadData (inr text) url s = (Normal tt, s')
    /\ same_controls s s'
    /\ match parsed text with
       | [] =>
           scene s' = scene s /\ materials s' = materials s
           /\ coordinateOffset s' = coordinateOffset s
       | _ :: _ =>
           coordinateOffset s' = centroid_minima (parsed text)
           /\ match group_blocks (visibleBlocks_of (parsed text)) [] with
              | Throw _ => scene s' = scene s /\ materials s' = materials s
              | Normal o =>
                  exists groups,
                    scene s'
                    = scene s
                      ++ [Group (boxes_of_groups (centroid_minima (parsed text)) groups)]
                    /\ map (fun g => (group_rock g, group_blocks_of g)) groups
                       = Obj.entries o
                    /\ Forall (fun g =>
                                 (group_material g ∉ dom (materials s))
                                 /\ exists c,
                                      materials s' !! group_material g
                                      = Some (fresh_material c))
                              groups
                    /\ materials s ⊆ materials s'
              end
       end.
Proof.
  unfold loadData, try_catch. run_steps.
  match goal with |- context [bind (parseCSV text) ?k ?st] =>
    destruct (parseCSV_run text st) as [lines E];
    rewrite (bind_normal _ k _ _ _ E)
  end.
  fold (parsed text) in *. clear E.
  destruct (parsed text) as [|block data] eqn:D;
    cbn [length Nat.ltb Nat.leb]; run_steps.
  - eexists. split; [reflexivity|]. run_steps. repeat split.
  - unfold computeCoordinateOffset. run_steps.
    destruct (group_blocks (visibleBlocks_of (block :: data)) []) as [o | e] eqn:G.
    + match goal with |- context [createBlockModel ?b ?st] =>
        destruct (createBlockModel_groups b st o G)
          as (groups & s' & E1 & Sc & Hen & N & F & S & _);
        destruct (createBlockModel_normal b st o G)
          as (_ & _ & s'' & E2 & _ & _ & _ & _ & Off & Co & _);
        rewrite E1 in E2; injection E2 as <-; rewrite E1
      end.
      exists s'. split; [reflexivity|].
      run_steps in Sc. run_steps in S. run_steps in F. run_steps in Off.
      destruct Co as (C1 & C2 & C3 & C4 & C5).
      run_steps in C1. run_steps in C2. run_steps in C3.
      run_steps in C4. run_steps in C5.
      repeat split; auto.
      exists groups. repeat split; auto.
      eapply Forall_impl; [exact F|]. cbn. intros g [Hd Hm]. eauto.
    + match goal with |- context [createBlockModel ?b ?st] =>
        destruct (createBlockModel_throw b st e G) as [lines' ->]
      end.
      eexists. split; [reflexivity|]. run_steps. repeat split.
Qed.

Lemma boxes_of_groups_blocks offset groups cube :
  cube ∈ boxes_of_groups offset groups ->
  exists g block,
    g ∈ groups /\ block ∈ group_blocks_of g
    /\ cube = make_cube scaleFactor heightScaleFactor offset (group_material g) block.
Proof.
  unfold boxes_of_groups. rewrite list_elem_of_In, in_flat_map.
  intros (g & Hg & Hc). apply in_map_iff in Hc as (block & <- & Hb).
  exists g, block. rewrite !list_elem_of_In. auto.
Qed.

Lemma boxes_of_groups_length offset groups :
  length (boxes_of_groups offset groups)
  = length (concat (map group_blocks_of groups)).
Proof.
  unfold boxes_of_groups. induction groups as [|g groups IH]; [reflexivity|].
  cbn. now rewrite !length_app, length_map, IH.
Qed.

Lemma groups_blocks groups (o : Obj.t (list BlockData)) :
  map (fun g => (group_rock g, group_blocks_of g)) groups = o ->
  concat (map group_blocks_of groups) = grouped o.
Proof.
  intros <-. unfold grouped. now rewrite <- list_fmap_compose.
Qed.

(** X8: a dataset that arrives while a plane is active is not clipped: the
    plane stays active and the renderer keeps clipping, but the materials
    of the new boxes hold no clip plane (until a plane is selected again).
    So it is for the granite text after "xy" is selected. *)
Theorem late_data_is_not_clipped :
  (forall p text url s,
     let before := run [SelectPlane p] s in
     let after := run [SelectPlane p; Loaded (inr text) url] s in
     activeClipPlane after = Some p
     /\ localClippingEnabled after = true
     /\ (scene after = scene before
         \/ exists cubes,
              scene after = scene before ++ [Group cubes]
              /\ Forall (unclipped_mesh (materials after)) cubes))
  /\ (let before := run [SelectPlane XY] constructed in
      let after :=
        run [SelectPlane XY; Loaded (inr granite_text) "/data/blocks.csv"]
            constructed in
      exists cube,
        scene after = scene before ++ [Group [cube]]
        /\ unclipped_mesh (materials after) cube
        /\ localClippingEnabled after = true
        /\ activeClipPlane after = Some XY).
Proof.
  assert (G : forall p text url s,
     let before := run [SelectPlane p] s in
     let after := run [SelectPlane p; Loaded (inr text) url] s in
     activeClipPlane after = Some p
     /\ localClippingEnabled after = true
     /\ (scene after = scene before
         \/ exists cubes,
              scene after = scene before ++ [Group cubes]
              /\ Forall (unclipped_mesh (materials after)) cubes)).
  { intros p text url s. cbv zeta. unfold run. cbn [fold_left].
    rewrite !exec_handle.
    destruct (activated_state p s) as (A & F & _).
    set (s1 := activated p s) in *. unfold exec.
    destruct (loadData_text_run text url s1)
      as (s' & -> & (_ & _ & C3 & _ & C5) & H).
    cbn [snd]. rewrite C3, C5. split; [exact A|]. split; [exact F|].
    destruct (parsed text) as [|block data]; [left; apply H|].
    destruct H as [_ H].
    destruct (group_blocks (visibleBlocks_of (block :: data)) []) as [o | e];
      [|left; apply H].
    destruct H as (groups & Sc & _ & Fm & _).
    right. eexists. split; [exact Sc|].
    apply Forall_forall. intros cube Hc.
    apply boxes_of_groups_blocks in Hc as (g & b & Hg & _ & ->).
    rewrite Forall_forall in Fm. destruct (Fm g Hg) as [_ [c Hm]].
    cbn. exists (fresh_material c). auto. }
  split; [exact G|].
  cbv zeta. eexists. vm_compute.
  split; [reflexivity|]. split; [|split; reflexivity].
  eexists. split; reflexivity.
Qed.

Lemma centroid_minima_normalizes blocks block :
  Forall finite_centroid blocks ->
  block ∈ blocks ->
  let offset := centroid_minima blocks in
  nonneg (vx (normalized offset block))
  /\ nonneg (vy (normalized offset block))
  /\ nonneg (vz (normalized offset block)).
Proof.
  intros Hfin Hb. cbv zeta.
  assert (Hne : blocks <> []) by (intros ->; now apply elem_of_nil in Hb).
  unfold centroid_minima. rewrite centroid_minima_fold. cbn [vx vy vz normalized].
  assert (Fx : Forall (fun x => Num.isFinite x = true) (map centroid_x blocks)).
  { apply Forall_fmap. eapply Forall_impl; [exact Hfin|]. now intros b (? & ? & ?). }
  assert (Fy : Forall (fun x => Num.isFinite x = true) (map centroid_y blocks)).
  { apply Forall_fmap. eapply Forall_impl; [exact Hfin|]. now intros b (? & ? & ?). }
  assert (Fz : Forall (fun x => Num.isFinite x = true) (map centroid_z blocks)).
  { apply Forall_fmap. eapply Forall_impl; [exact Hfin|]. now intros b (? & ? & ?). }
  assert (M : forall f : BlockData -> number,
             Forall (fun x => Num.isFinite x = true) (map f blocks) ->
             is_minimum (fold_left Num.min (map f blocks) Infinity) (map f blocks)).
  { intros f Ff. apply fold_min_is_minimum; [now destruct blocks|].
    eapply Forall_impl; [exact Ff|]. apply finite_notNaN. }
  repeat split.
  - eapply is_minimum_nonneg; [exact Fx | exact (M _ Fx) |].
    now apply list_elem_of_fmap_2.
  - eapply is_minimum_nonneg; [exact Fy | exact (M _ Fy) |].
    now apply list_elem_of_fmap_2.
  - eapply is_minimum_nonneg; [exact Fz | exact (M _ Fz) |].
    now apply list_elem_of_fmap_2.
Qed.

(** Doubling keeps a nonnegative number nonnegative, an overflow to
    Infinity included. *)
Lemma doubled_nonneg x : nonneg x -> nonneg (Num.mul x heightScaleFactor).
Proof.
  destruct x as [| |q|]; try discriminate; [|reflexivity].
  unfold nonneg, Num.geb, Num.leb. rewrite Qle_bool_iff. intros H.
  change (Num.mul (Finite q) heightScaleFactor) with (Num.round (q * 2)).
  apply round_nonneg. apply Qmult_le_0_compat; [exact H | discriminate].
Qed.

(** X9: when the centroids of the parsed blocks are all finite, and there
    is a parsed block and no visible block bears an inherited property name
    as its label, [loadData] adds one group of boxes, as many as parsed
    blocks but 5000 at most, and every box stands at nonnegative
    coordinates on the three axes of the scene (a difference that
    overflows is Infinity); when there is no parsed block, or a visible
    label is an inherited name, the scene is left as it is. *)
Theorem boxes_stand_in_the_positive_octant text url s :
  Forall finite_centroid (parsed text) ->
  let s' := exec (loadData (inr text) url) s in
  (parsed text <> [] ->
   Forall (fun block => Obj.inherited (rock block) = false)
          (visibleBlocks_of (parsed text)) ->
   exists cubes,
     scene s' = scene s ++ [Group cubes]
     /\ Forall in_positive_octant cubes
     /\ length cubes = Nat.min (length (parsed text)) maxBlocks)
  /\ (parsed text = []
      \/ Exists (fun block => Obj.inherited (rock block) = true)
                (visibleBlocks_of (parsed text)) ->
      scene s' = scene s).
Proof.
  intros Hfin. cbv zeta. unfold exec.
  destruct (loadData_text_run text url s) as (s' & -> & _ & H).
  cbn [snd]. split.
  - intros Hne Hlab.
    destruct (parsed text) as [|block data] eqn:D; [congruence|].
    destruct H as [_ H].
    destruct (group_blocks_normal (visibleBlocks_of (block :: data)) [])
      as (o & G & _); [constructor | exact Hlab |].
    rewrite G in H. destruct H as (groups & Sc & Hen & _ & _).
    eexists. split; [exact Sc|].
    assert (Hb : concat (map group_blocks_of groups)
                 ≡ₚ visibleBlocks_of (block :: data)).
    { rewrite (groups_blocks groups _ Hen), grouped_entries.
      apply (group_blocks_grouped _ _ G). }
    split.
    + apply Forall_forall. intros cube Hc.
      apply boxes_of_groups_blocks in Hc as (g & b & Hg & Hin & ->).
      assert (Hd : b ∈ block :: data).
      { apply visibleBlocks_of_subset. rewrite <- Hb.
        apply (elem_of_concat b (group_blocks_of g)); [exact Hin|].
        now apply list_elem_of_fmap_2. }
      destruct (centroid_minima_normalizes (block :: data) b Hfin Hd)
        as (Hx & Hy & Hz).
      cbn. repeat split; [exact Hx | | exact Hy].
      now apply doubled_nonneg.
    + rewrite boxes_of_groups_length, Hb, visibleBlocks_of_take, length_take.
      apply Nat.min_comm.
  - intros [He | Hlab].
    + rewrite He in H. apply H.
    + destruct (parsed text) as [|block data] eqn:D; [apply H|].
      destruct H as [_ H].
      rewrite (group_blocks_throw _ [] ltac:(constructor) Hlab) in H. apply H.
Qed.

Lemma finite_centroids_check text :
  forallb (fun block =>
             Num.isFinite (centroid_x block) && Num.isFinite (centroid_y block)
             && Num.isFinite (centroid_z block)) (parsed text) = true ->
  Forall finite_centroid (parsed text).
Proof.
  intros H. apply Forall_forall. intros block Hin.
  apply list_elem_of_In in Hin. rewrite forallb_forall in H.
  apply H in Hin. apply andb_prop in Hin as [Hin Hz].
  apply andb_prop in Hin as [Hx Hy]. now repeat split.
Qed.

Lemma boxes_stand_in_the_positive_octant_witness :
  let s' := exec (loadData (inr granite_text) "/data/blocks.csv") constructed in
  (parsed granite_text <> [] ->
   Forall (fun block => Obj.inherited (rock block) = false)
          (visibleBlocks_of (parsed granite_text)) ->
   exists cubes,
     scene s' = scene constructed ++ [Group cubes]
     /\ Forall in_positive_octant cubes
     /\ length cubes = Nat.min (length (parsed granite_text)) maxBlocks)
  /\ (parsed granite_text = []
      \/ Exists (fun block => Obj.inherited (rock block) = true)
                (visibleBlocks_of (parsed granite_text)) ->
      scene s' = scene constructed).
Proof.
  apply (boxes_stand_in_the_positive_octant granite_text "/data/blocks.csv"
           constructed).
  apply finite_centroids_check. vm_compute. reflexivity.
Defined.

(* ===================================================================== *)
(** * Further properties: the parser *)
(* ===================================================================== *)

Lemma split_nonempty sep s : Str.split sep s <> [].
Proof.
  destruct s as [|c s]; cbn [Str.split]; [discriminate|].
  destruct (Ascii.eqb c sep); [discriminate|].
  destruct (Str.split sep s); discriminate.
Qed.

(** Splitting a text cut at a separator. *)
Lemma split_app sep a b :
  Str.split sep (a +:+ String sep b) = Str.split sep a ++ Str.split sep b.
Proof.
  induction a as [|c a IH].
  - change (EmptyString +:+ String sep b) with (String sep b).
    cbn [Str.split]. now rewrite Ascii.eqb_refl.
  - change (String c a +:+ String sep b) with (String c (a +:+ String sep b)).
    cbn [Str.split].
    destruct (Ascii.eqb c sep); [now rewrite IH|].
    rewrite IH. pose proof (split_nonempty sep a) as N.
    destruct (Str.split sep a); [congruence | reflexivity].
Qed.

Lemma csv_lines_app a b :
  csv_lines (a +:+ NL +:+ b) = csv_lines a ++ csv_lines b.
Proof. unfold csv_lines, NL. cbn. apply split_app. Qed.

Lemma parseCSV_parsed text s : eval (parseCSV text) s = Normal (parsed text).
Proof.
  unfold eval. destruct (parseCSV_run text s) as [lines ->]. reflexivity.
Qed.

Lemma csv_rockIndex_prefix a b :
  csv_rockIndex (a +:+ NL +:+ b) = csv_rockIndex a.
Proof.
  unfold csv_rockIndex, csv_headers. rewrite csv_lines_app.
  pose proof (split_nonempty LF a) as N. unfold csv_lines.
  destruct (Str.split LF a); [congruence | reflexivity].
Qed.

Lemma data_lines_app a b :
  (3 <= length (csv_lines a))%nat ->
  data_lines (a +:+ NL +:+ b) = data_lines a ++ csv_lines b.
Proof.
  intros H. unfold data_lines. rewrite csv_lines_app, skipn_app.
  replace (3 - length (csv_lines a))%nat with 0%nat by lia. reflexivity.
Qed.

(** X10: lines the parser does not keep (blank lines, rows with fewer than
    six fields, rows whose first or fourth field is not a number) can be
    inserted anywhere after the three leading lines without changing the
    blocks [parseCSV] returns. *)
Theorem malformed_lines_change_nothing pre bad post s :
  (3 <= length (csv_lines pre))%nat ->
  Forall (fun line => row_kept line = false) (csv_lines bad) ->
  eval (parseCSV (pre +:+ NL +:+ bad +:+ NL +:+ post)) s
  = eval (parseCSV (pre +:+ NL +:+ post)) s.
Proof.
  intros H3 Hbad. rewrite !parseCSV_parsed. f_equal. unfold parsed.
  rewrite !csv_rockIndex_prefix. f_equal.
  rewrite !data_lines_app by exact H3.
  rewrite csv_lines_app, !List.filter_app, (filter_none _ _ Hbad). reflexivity.
Qed.

Lemma malformed_lines_change_nothing_witness :
  eval (parseCSV (("x,y,z,dx,dy,dz,rock" +:+ NL +:+ "A" +:+ NL +:+ "B")
                  +:+ NL +:+ "1,2,3,4" +:+ NL +:+ "10,20,30,2,2,2,granite"))
       constructed
  = eval (parseCSV (("x,y,z,dx,dy,dz,rock" +:+ NL +:+ "A" +:+ NL +:+ "B")
                    +:+ NL +:+ "10,20,30,2,2,2,granite"))
         constructed.
Proof.
  apply (malformed_lines_change_nothing
           ("x,y,z,dx,dy,dz,rock" +:+ NL +:+ "A" +:+ NL +:+ "B")
           "1,2,3,4" "10,20,30,2,2,2,granite" constructed).
  - vm_compute. lia.
  - apply Forall_forall. intros line Hin. vm_compute in Hin.
    apply list_elem_of_singleton in Hin. subst line. vm_compute. reflexivity.
Defined.

(** X11: [parseCSV] returns at most one block per line after the third; in
    particular it returns no block for a text of three lines or fewer, the
    empty text included, and [loadData] then only logs "No valid blocks
    found in data". *)
Theorem parsed_blocks_bound text url s :
  eval (parseCSV text) s = Normal (parsed text)
  /\ (length (parsed text) <= length (csv_lines text) - 3)%nat
  /\ ((length (csv_lines text) <= 3)%nat ->
      parsed text = []
      /\ exists lines,
           exec (loadData (inr text) url) s
           = set_console
               (console s ++ lines
                  ++ [LogError [AStr "No valid blocks found in data"]]) s).
Proof.
  split; [apply parseCSV_parsed|].
  assert (B : (length (parsed text) <= length (csv_lines text) - 3)%nat).
  { unfold parsed, data_lines. rewrite length_map.
    etrans; [apply List.filter_length_le|]. now rewrite length_skipn. }
  split; [exact B|].
  intros H. 
  assert (E : data_lines text = []).
  { unfold data_lines. apply skipn_all2. exact H. }
  split.
  - unfold parsed. now rewrite E.
  - destruct (loadData_empty text url s) as [lines El].
    + rewrite E. constructor.
    + exists lines. unfold exec. now rewrite El.
Qed.

Lemma indexOf_from_absent i l x : x ∉ l -> Str.indexOf_from i l x = -1.
Proof.
  revert i. induction l as [|y l IH]; intros i H; cbn; [reflexivity|].
  apply not_elem_of_cons in H as [Hne H].
  destruct (String.eqb_spec y x) as [-> | _]; [congruence|]. now apply IH.
Qed.

Lemma Set_of_constant x n : Set_of (replicate (S n) x) = [x].
Proof.
  induction n as [|n IH].
  - reflexivity.
  - change (replicate (S (S n)) x) with (x :: replicate (S n) x).
    rewrite (replicate_cons_app (S n) x), Set_of_snoc, IH.
    unfold Set_add. rewrite bool_decide_eq_true_2; [reflexivity | constructor].
Qed.

Lemma constant_list {A} (x : A) l :
  Forall (fun y => y = x) l -> l = replicate (length l) x.
Proof. induction 1 as [|y l -> _ IH]; cbn; [reflexivity | now rewrite <- IH]. Qed.

(** X12: when no header field is exactly "rock" (a missing column, another
    spelling, or a last header followed by a carriage return), every
    parsed block is labelled "unknown"; there is then one rock type, and
    its colour has hue 0. *)
Theorem no_rock_column_one_colour text s :
  "rock" ∉ csv_headers text ->
  csv_rockIndex text = -1
  /\ eval (parseCSV text) s = Normal (parsed text)
  /\ Forall (fun block => rock block = "unknown") (parsed text)
  /\ (parsed text <> [] ->
      rockTypes_of (parsed text) = ["unknown"]
      /\ rockColors_of (rockTypes_of (parsed text))
         = {[ "unknown" := setHSL (Finite 0) saturation lightness ]}).
Proof.
  intros H.
  assert (R : csv_rockIndex text = -1).
  { unfold csv_rockIndex, Str.indexOf. now apply indexOf_from_absent. }
  assert (U : Forall (fun block => rock block = "unknown") (parsed text)).
  { unfold parsed. rewrite R. apply Forall_fmap, Forall_forall.
    intros line _. reflexivity. }
  split; [exact R|]. split; [apply parseCSV_parsed|]. split; [exact U|].
  intros Hne.
  assert (T : rockTypes_of (parsed text) = ["unknown"]).
  { unfold rockTypes_of.
    assert (L : Forall (fun y => y = "unknown") (map rock (parsed text))).
    { apply Forall_fmap. exact U. }
    rewrite (constant_list _ _ L), length_map.
    destruct (parsed text); [congruence|]. apply Set_of_constant. }
  split; [exact T|]. rewrite T. reflexivity.
Qed.

Lemma no_rock_column_one_colour_witness :
  csv_rockIndex granite_crlf_text = -1
  /\ eval (parseCSV granite_crlf_text) constructed
     = Normal (parsed granite_crlf_text)
  /\ Forall (fun block => rock block = "unknown") (parsed granite_crlf_text)
  /\ (parsed granite_crlf_text <> [] ->
      rockTypes_of (parsed granite_crlf_text) = ["unknown"]
      /\ rockColors_of (rockTypes_of (parsed granite_crlf_text))
         = {[ "unknown" := setHSL (Finite 0) saturation lightness ]}).
Proof.
  apply (no_rock_column_one_colour granite_crlf_text constructed).
  apply (bool_decide_unpack _). vm_compute. exact I.
Defined.

Example crlf_rows_are_parsed :
  parsed granite_crlf_text
  = [ {| centroid_x := Finite 10; centroid_y := Finite 20; centroid_z := Finite 30;
         dim_x := Finite 2; dim_y := Finite 2; dim_z := Finite 2;
         rock := "unknown" |} ].
Proof. vm_compute. reflexivity. Qed.

(* ===================================================================== *)
(** * Further properties: the planes the materials hold *)
(* ===================================================================== *)

Lemma loadData_fresh response url s :
  exists s',
    loadData response url s = (Normal tt, s')
    /\ same_controls s s'
    /\ materials s ⊆ materials s'
    /\ (scene s' = scene s
        \/ exists offset groups,
             scene s' = scene s ++ [Group (boxes_of_groups offset groups)]
             /\ Forall (fun g =>
                          exists c,
                            materials s' !! group_material g
                            = Some (fresh_material c))
                       groups).
Proof.
  destruct response as [e | text].
  - unfold loadData, try_catch. run_steps.
    eexists. split; [reflexivity|]. run_steps. repeat split; auto.
  - destruct (loadData_text_run text url s) as (s' & E & C & H).
    exists s'. split; [exact E|]. split; [exact C|].
    destruct (parsed text) as [|block data].
    + destruct H as (Sc & Ma & _). rewrite Ma. auto.
    + destruct H as [_ H].
      destruct (group_blocks (visibleBlocks_of (block :: data)) []) as [o | e'].
      * destruct H as (groups & Sc & _ & F & S).
        split; [exact S|]. right. do 2 eexists. split; [exact Sc|].
        eapply Forall_impl; [exact F|]. cbn. now intros g [_ Hc].
      * destruct H as (Sc & Ma). rewrite Ma. auto.
Qed.

Lemma descendants_boxes offset groups :
  flat_map descendants (boxes_of_groups offset groups)
  = boxes_of_groups offset groups.
Proof.
  unfold boxes_of_groups.
  induction groups as [|gr groups IH]; [reflexivity|].
  cbn [flat_map]. rewrite flat_map_app, IH. f_equal.
  induction (group_blocks_of gr) as [|b bs IHb]; [reflexivity|].
  cbn [map flat_map]. rewrite IHb. reflexivity.
Qed.

Lemma handle_no_stale_plane event s :
  materials_present s -> no_stale_plane s ->
  no_stale_plane (exec (handle event) s).
Proof.
  intros MP I. unfold no_stale_plane, materials_present in *.
  setoid_rewrite in_scene_nodes in MP. setoid_rewrite in_scene_nodes in I.
  setoid_rewrite in_scene_nodes. rewrite exec_handle.
  destruct event as [q | | value | | response url]; intros g address p m.
  - intros Hin Hm. right. exists q.
    destruct (activated_state q s) as (A & _). split; [exact A|].
    exact (proj1 (activated_mesh_planes q s g address p m Hin Hm)).
  - intros Hin Hm. left. now apply (disabled_no_planes s g address p).
  - destruct (repositioned_frame (set_clipPosition (Str.parseFloat value) s))
      as (Es & Em & Ea & _).
    unfold scene_nodes. rewrite Es, Em, Ea. apply I.
  - destruct (repositioned_frame s) as (Es & Em & Ea & _).
    unfold scene_nodes. rewrite Es, Em, Ea. apply I.
  - unfold exec.
    destruct (loadData_fresh response url s)
      as (s' & -> & (_ & _ & Ea & _) & Sub & Sc).
    cbn [snd]. rewrite Ea.
    assert (Old : Mesh g address p ∈ scene_nodes s ->
                  materials s' !! address = Some m ->
                  clippingPlanes m = []
                  \/ exists q, activeClipPlane s = Some q /\ clippingPlanes m = [q]).
    { intros Hin Hm.
      pose proof (MP g address p Hin) as Hd.
      apply elem_of_dom in Hd as [m0 Hm0].
      pose proof (lookup_weaken _ _ _ _ Hm0 Sub) as Hm'.
      rewrite Hm in Hm'. injection Hm' as ->. now apply (I g address p). }
    unfold scene_nodes at 1.
    destruct Sc as [-> | (offset & groups & -> & F)]; [exact Old|].
    rewrite scene_nodes_snoc. cbn [descendants].
    rewrite elem_of_app, elem_of_cons.
    intros [Hin | [Hin | Hin]] Hm; [now apply Old | discriminate |].
    left.
    rewrite descendants_boxes in Hin.
    apply boxes_of_groups_blocks in Hin as (gr & b & Hg & _ & E).
    injection E as _ -> _.
    rewrite Forall_forall in F. destruct (F gr Hg) as [c Hc].
    rewrite Hm in Hc. now injection Hc as ->.
Qed.

Lemma helper_face_in_scene q face s :
  helper_of q face ∈ scene s -> in_scene (Mesh Square face origin) s.
Proof.
  intros H. exists (helper_of q face). split; [exact H|].
  apply (below_helper _ q (Mesh Square face origin)); constructor.
Qed.

Lemma handle_active_face event s :
  materials_present s -> active_face_clipped s ->
  active_face_clipped (exec (handle event) s).
Proof.
  intros MP I q face.
  pose proof (handle_materials_present event s MP) as MP'.
  revert MP'. rewrite exec_handle.
  destruct event as [plane | | value | | response url]; intros MP'.
  - destruct (activated_state plane s) as (-> & _). intros [= <-] Hin.
    apply helper_face_in_scene in Hin.
    pose proof (MP' _ _ _ Hin) as D. apply elem_of_dom in D as [m Hm].
    exists m. split; [exact Hm|]. apply in_scene_nodes in Hin.
    exact (proj1 (activated_mesh_planes plane s _ _ _ m Hin Hm)).
  - discriminate.
  - destruct (repositioned_frame (set_clipPosition (Str.parseFloat value) s))
      as (-> & -> & -> & _). apply I.
  - destruct (repositioned_frame s) as (-> & -> & -> & _). apply I.
  - unfold exec in *.
    destruct (loadData_run response url s)
      as (s' & E & (_ & _ & Ea & _) & _ & Sub & Sc).
    rewrite E in *. cbn [snd] in *. rewrite Ea. intros Hq Hin.
    assert (Hin' : helper_of q face ∈ scene s).
    { destruct Sc as [<- | (offset & addresses & blocks & Sc & _)]; [exact Hin|].
      rewrite Sc in Hin. apply elem_of_app in Hin as [Hin | Hin]; [exact Hin|].
      apply list_elem_of_singleton in Hin. discriminate. }
    destruct (I q face Hq Hin') as (m & Hm & Hp).
    exists m. split; [|exact Hp]. exact (lookup_weaken _ _ _ _ Hm Sub).
Qed.

Lemma run_active_face events :
  active_face_clipped (run events constructed).
Proof.
  induction events as [|event events IH] using rev_ind.
  - intros q face Hq. discriminate.
  - rewrite run_snoc. apply handle_active_face; [|exact IH].
    apply run_materials_present, constructed_materials_present.
Qed.

Lemma run_in_step events : controls_in_step (run events constructed).
Proof.
  induction events as [|event events IH] using rev_ind.
  - apply constructed_in_step.
  - rewrite run_snoc. now apply handle_in_step.
Qed.

(** X13: in every state the application reaches, the material of a mesh of
    the scene graph, be it a box or the face of a plane helper, is in the
    store and holds no clip plane or the active plane alone: a plane that
    was active before is never left on a material.  And while a plane is
    active there is such a mesh: the face of its helper is in the scene,
    and its material holds the plane. *)
Theorem no_stale_clip_plane events :
  no_stale_plane (run events constructed)
  /\ materials_present (run events constructed)
  /\ (forall q,
        activeClipPlane (run events constructed) = Some q ->
        exists face m,
          in_scene (Mesh Square face origin) (run events constructed)
          /\ materials (run events constructed) !! face = Some m
          /\ clippingPlanes m = [q]).
Proof.
  assert (G : no_stale_plane (run events constructed)
              /\ materials_present (run events constructed)).
  { induction events as [|event events [I MP]] using rev_ind.
    - split; [|apply constructed_materials_present].
      intros g address p m Hin. apply in_scene_nodes in Hin.
      unfold scene_nodes in Hin. cbn in Hin.
      rewrite !elem_of_cons, elem_of_nil in Hin. intuition discriminate.
    - rewrite run_snoc. split.
      + now apply handle_no_stale_plane.
      + now apply handle_materials_present. }
  destruct G as (I & MP). split; [exact I|]. split; [exact MP|].
  intros q Hq.
  destruct (run_in_step events) as (_ & _ & _ & H & _).
  destruct (run_helpers_in_scene events constructed
              constructed_helpers_in_scene q (H q Hq)) as (face & Hin).
  destruct (run_active_face events q face Hq Hin) as (m & Hm & Hp).
  exists face, m. split; [|now split].
  now apply (helper_face_in_scene q).
Qed.

(** X14: of two moves of the slider in a row only the second counts: the
    state is the one the second move alone would leave. *)
Theorem last_slider_value_wins a b s :
  same_state (run [SetOffset b] s) (run [SetOffset a; SetOffset b] s).
Proof.
  unfold run. cbn [fold_left]. rewrite !exec_handle.
  set (va := Str.parseFloat a). set (vb := Str.parseFloat b).
  set (s1 := repositioned (set_clipPosition va s)).
  destruct (repositioned_frame (set_clipPosition va s)) as (Es1 & Em1 & Ea1 & Ef1 & _).
  destruct (repositioned_rest (set_clipPosition va s)) as (R1 & R2 & R3 & R4).
  fold s1 in Es1, Em1, Ea1, Ef1, R1, R2, R3, R4.
  cbn [scene materials activeClipPlane localClippingEnabled camera_position
       modelCenter coordinateOffset console set_clipPosition] in *.
  destruct (repositioned_frame (set_clipPosition vb s1)) as (Es & Em & Ea & Ef & Ep).
  destruct (repositioned_rest (set_clipPosition vb s1)) as (Q1 & Q2 & Q3 & Q4).
  destruct (repositioned_frame (set_clipPosition vb s)) as (Fs & Fm & Fa & Ff & Fp).
  destruct (repositioned_rest (set_clipPosition vb s)) as (P1 & P2 & P3 & P4).
  cbn [scene materials activeClipPlane localClippingEnabled camera_position
       modelCenter coordinateOffset console clipPosition set_clipPosition] in *.
  unfold same_state. repeat split; try congruence.
  - rewrite !repositioned_planes.
    cbn [activeClipPlane clipPlanes clipPosition set_clipPosition].
    rewrite Ea1. unfold s1. rewrite repositioned_planes.
    cbn [activeClipPlane clipPlanes clipPosition set_clipPosition].
    destruct (activeClipPlane s) as [p|]; [|reflexivity].
    now rewrite plane_get_set, plane_set_set.
  - intros r. rewrite (repositioned_helpers (set_clipPosition vb s1)).
    rewrite (repositioned_helpers (set_clipPosition vb s)).
    change (activeClipPlane (set_clipPosition vb s1)) with (activeClipPlane s1).
    change (activeClipPlane (set_clipPosition vb s)) with (activeClipPlane s).
    change (clipPlaneHelpers (set_clipPosition vb s1)) with (clipPlaneHelpers s1).
    change (clipPlaneHelpers (set_clipPosition vb s)) with (clipPlaneHelpers s).
    rewrite Ea1.
    destruct (activeClipPlane s) as [p|] eqn:Hp.
    + unfold s1. rewrite !(repositioned_helpers (set_clipPosition va s)).
      change (activeClipPlane (set_clipPosition va s)) with (activeClipPlane s).
      change (clipPlaneHelpers (set_clipPosition va s)) with (clipPlaneHelpers s).
      rewrite Hp.
      destruct (decide (r = p)) as [-> | Hne]; [|reflexivity].
      rewrite decide_True by reflexivity.
      now destruct (clipPlaneHelpers s p).
    + unfold s1. rewrite (repositioned_helpers (set_clipPosition va s)).
      change (activeClipPlane (set_clipPosition va s)) with (activeClipPlane s).
      now rewrite Hp.
Qed.
